(** * Scribl: layout, scale and slicing logic

    A shallow embedding of the layout core of Scribl (chart, track and glyph
    classes) together with the properties its specification states.

    Conventions of the embedding.
    - A JavaScript number is idealised as a rational ([Q]): arithmetic is
      exact, so the statements below are about the values the code computes
      before IEEE rounding.  Numeric equalities are stated with [==].
    - A field the constructors leave [undefined] is an [option]; arithmetic
      on [undefined] yields [NaN], which is [None] here, and every comparison
      with [NaN] is false.
    - Division by zero (JavaScript's [Infinity]) is outside the model: each
      theorem about a path that divides states the non-zero divisor as a
      hypothesis.
    - Where a strict comparison decides on the boundary, rounding decides
      with it: the lane scan of [Track.addFeature] is embedded a second
      time, in [Track64], with every arithmetic operation rounded to the
      nearest double ([Double.round]: IEEE 754 binary64, ties to even), and
      the gap invariant and the first-fit rule are stated of that
      embedding.  A result of magnitude [2^1024] or more (again
      [Infinity]) is outside the model.
    - An object mutated in place is passed and returned explicitly; an
      exception is a [Throw] completion. *)

From Stdlib Require Import ZArith QArith Qround Qabs Qpower Lqa Lia.
From stdpp Require Import base option list strings pretty.

Local Open Scope Q_scope.

(** ** JavaScript primitives used by the code *)

Module Js.

Inductive Error : Type :=
| ReferenceError (ident : string)
| TypeError
| SyntaxError.

Inductive Completion (A : Type) : Type :=
| Normal (a : A)
| Throw (e : Error).
Arguments Normal {A} a.
Arguments Throw {A} e.

Definition bind {A B : Type} (c : Completion A) (k : A -> Completion B)
  : Completion B :=
  match c with
  | Normal a => k a
  | Throw e => Throw e
  end.

(** [a < b] and [a <= b] as the booleans the code branches on. *)
Definition ltb (a b : Q) : bool := negb (Qle_bool b a).
Definition leb (a b : Q) : bool := Qle_bool a b.
Definition gtb (a b : Q) : bool := ltb b a.
Definition geb (a b : Q) : bool := leb b a.

(** Truncation toward zero, the integer part [%] and [parseInt] keep. *)
Definition trunc (x : Q) : Z :=
  if Qle_bool 0 x then Qfloor x else Qceiling x.

(** [a % b]: the remainder has the sign of the dividend. *)
Definition rem (a b : Q) : Q := a - b * inject_Z (trunc (a / b)).

(** [Math.round]: the nearest integer, halves going up. *)
Definition Math_round (x : Q) : Q := inject_Z (Qfloor (x + (1 # 2))).
Definition Math_ceil (x : Q) : Q := inject_Z (Qceiling x).
Definition Math_abs (x : Q) : Q := Qabs x.
Definition Math_max (a b : Q) : Q := if Qle_bool a b then b else a.
Definition Math_pow (b : Q) (e : Z) : Q := Qpower b e.

(** [parseInt(x)] of a number: the integer part of its decimal notation
    (numbers the runtime prints without an exponent, below 10^21). *)
Definition parseInt (x : Q) : Z := trunc x.

(** The fractional digits of [0 <= r < 1], as many as are non-zero. *)
Fixpoint frac_digits (fuel : nat) (r : Q) : string :=
  match fuel with
  | O => EmptyString
  | S n =>
      if Qeq_bool r 0 then EmptyString
      else
        let d := Qfloor (r * 10) in
        String (pretty_N_char (Z.to_N d))
               (frac_digits n (Qred (r * 10 - inject_Z d)))
  end.

(** Number to string for a value with a finite decimal expansion:
    sign, integer digits, and the fraction when there is one. *)
Definition toString (q : Q) : string :=
  let a := Qabs q in
  let i := Qfloor a in
  let f := Qred (a - inject_Z i) in
  ((if ltb q 0 then "-" else "")
     +:+ pretty i
     +:+ (if Qeq_bool f 0 then "" else "." +:+ frac_digits 20 f))%string.

End Js.

Import Js.

(** Sequencing of completions, written [x ← c; k] as for [option]. *)
#[global] Instance completion_ret : MRet Js.Completion := @Js.Normal.
#[global] Instance completion_bind : MBind Js.Completion :=
fun A B k c => Js.bind c k.

(** ** Doubles: the arithmetic of JavaScript numbers

    A finite double is the rational it stands for.  An arithmetic operation
    of the code gives the double nearest to the exact result, a tie going
    to the double whose last bit is 0. *)

Module Double.

(** Nearest integer, a tie going to the even one. *)
Definition rne (y : Q) : Z :=
  let f := Qfloor y in
  match Qcompare (y - inject_Z f) (1 # 2) with
  | Lt => f
  | Gt => (f + 1)%Z
  | Eq => if Z.even f then f else (f + 1)%Z
  end.

(** For [x > 0], the [e] with [2^e <= x < 2^(e+1)]. *)
Definition ilog2 (x : Q) : Z :=
  let c := (Z.log2 (Qnum x) - Z.log2 (Zpos (Qden x)))%Z in
  if Qle_bool (2 ^ c) x then c else (c - 1)%Z.

(** The weight of the last of the 53 bits of [x], [2^-1074] at the least. *)
Definition ulp_exp (x : Q) : Z :=
  Z.max (ilog2 (Qabs x) - 52) (-1074).

(** [x] to the nearest multiple of [2^k]. *)
Definition round_at (k : Z) (x : Q) : Q :=
  inject_Z (rne (x / 2 ^ k)) * 2 ^ k.

(** The double nearest to [x]. *)
Definition round (x : Q) : Q :=
  if Qeq_bool x 0 then 0 else round_at (ulp_exp x) x.

(** [a + b], [a - b] and [a / b] as the code computes them. *)
Definition add (a b : Q) : Q := round (a + b).
Definition sub (a b : Q) : Q := round (a - b).
Definition div (a b : Q) : Q := round (a / b).

End Double.

(** ** Glyph: a feature *)

Module Glyph.

Record t : Type := mk
  { uid : nat;
    glyphType : string;
    type : string;
    position : Q;
    length : Q;
    strand : string;
    name : string;
    orientation : option string }.

Definition set_position (p : Q) (g : t) : t :=
  mk (uid g) (glyphType g) (type g) p (length g) (strand g) (name g)
     (orientation g).
Definition set_length (l : Q) (g : t) : t :=
  mk (uid g) (glyphType g) (type g) (position g) l (strand g) (name g)
     (orientation g).
Definition set_name (n : string) (g : t) : t :=
  mk (uid g) (glyphType g) (type g) (position g) (length g) (strand g) n
     (orientation g).

(** [getEnd]: [this.position + this.length]. *)
Definition getEnd (g : t) : Q := position g + length g.

Section Clone.
(** [clone] reads a variable [f] that it neither declares nor receives:
    it resolves in the global scope.  [global_f] is that binding, when
    there is one, and [eval] is the runtime's evaluator. *)
Variable global_f : option t.
Variable eval : string -> Completion t.

Definition truthy (o : option string) : bool :=
  match o with
  | Some s => negb (String.eqb s "")
  | None => false
  end.

Definition clone (this : t) : Completion t :=
  match global_f with
  | None => Throw (ReferenceError "f")
  | Some f =>
      if truthy (orientation f) then
        eval ("new" +:+ glyphType f +:+ "(" +:+ type f +:+ ","
                +:+ toString (position f) +:+ ","
                +:+ toString (length f) +:+ ","
                +:+ default "" (orientation f))%string
      else
        eval ("new" +:+ glyphType f +:+ "(" +:+ type f +:+ ","
                +:+ toString (position f) +:+ ","
                +:+ toString (length f))%string
  end.
End Clone.

End Glyph.

(** ** Lane: an ordered row of features *)

Module Lane.

Record t : Type := mk { features : list Glyph.t }.

Definition init : t := mk [].

(** Modelled from the spec: the Lane class is not part of the sources at
    hand.  A lane is an insertion-ordered sequence of features, and adding
    a feature appends it. *)
Definition addFeature (lane : t) (feature : Glyph.t) : t :=
  mk (features lane ++ [feature]).

End Lane.

(** ** Track: lanes of features and a draw style *)

Module Track.

Record t : Type := mk
  { lanes : list Lane.t;
    drawStyle : option string }.

Definition set_lanes (ls : list Lane.t) (track : t) : t :=
  mk ls (drawStyle track).
Definition set_drawStyle (s : option string) (track : t) : t :=
  mk (lanes track) s.

(** [init]: no lanes, the draw style left [undefined]. *)
Definition init : t := mk [] None.

(** [addLane]: push a new lane; the lane returned is the one at the index
    given back. *)
Definition addLane (track : t) : t * nat :=
  (set_lanes (lanes track ++ [Lane.init]) track, List.length (lanes track)).

Section WithChart.
(** A track reaches its chart through [this.chart]; the chart class comes
    later in the file, so the one method a track calls on it is a variable
    here and is instantiated with [Scribl.pixelsToNts] below. *)
Context {Chart : Type}.
Variable pixelsToNts : Chart -> option Q -> option Q.

(** The test of the lane scan, in exact arithmetic:
    [prev_feature != undefined &&
     (feature.position - 3/this.chart.pixelsToNts())
       > (prev_feature.position + prev_feature.length)].
    [Track64.accepts] below is the same test with the rounding of each
    operation, which decides when the two sides are a rounding error
    apart. *)
Definition accepts (chart : Chart) (lane : Lane.t) (feature : Glyph.t)
  : bool :=
  match last (Lane.features lane) with
  | None => false
  | Some prev_feature =>
      match pixelsToNts chart None with
      | None => false
      | Some r =>
          gtb (Glyph.position feature - 3 / r)
              (Glyph.position prev_feature + Glyph.length prev_feature)
      end
  end.

(** [for (j = 0; j < this.lanes.length; j++) ... break]: the index of the
    first lane that accepts the feature. *)
Fixpoint find_lane (chart : Chart) (feature : Glyph.t)
  (ls : list Lane.t) (j : nat) : option nat :=
  match ls with
  | [] => None
  | lane :: rest =>
      if accepts chart lane feature then Some j
      else find_lane chart feature rest (S j)
  end.

Definition addFeature (chart : Chart) (track : t) (feature : Glyph.t)
  : t * Glyph.t :=
  let '(track1, curr_lane) :=
    match find_lane chart feature (lanes track) 0 with
    | Some j => (track, j)
    | None => addLane track
    end in
  (set_lanes
     (alter (fun lane => Lane.addFeature lane feature) curr_lane
            (lanes track1))
     track1,
   feature).

End WithChart.

(** *** The collapse branch of [draw]

    The glyph objects are shared between the lanes and the local array
    [features]; the array, indexed by position, stands for that store.
    Rendering is external: [features[j].draw()] is recorded as the glyph
    as it is at the time of the call. *)

(** [features.sort(function(a,b){ return a.position - b.position })]: a
    stable insertion sort on [position]. *)
Fixpoint sort_insert (g : Glyph.t) (l : list Glyph.t) : list Glyph.t :=
  match l with
  | [] => [g]
  | h :: rest =>
      if ltb (Glyph.position g) (Glyph.position h) then g :: h :: rest
      else h :: sort_insert g rest
  end.

Definition sort_by_position (l : list Glyph.t) : list Glyph.t :=
  foldl (fun acc g => sort_insert g acc) [] l.

(** [for (m = j+1; m < features.length; m++)]: [n] counts the indices left
    up to [features.length]; the result is the store and the [m] the loop
    leaves with. *)
Fixpoint merge_loop (n : nat) (j m : nat) (features : list Glyph.t)
  : list Glyph.t * nat :=
  match n with
  | O => (features, m)
  | S n' =>
      match features !! j, features !! m with
      | Some fj, Some fm =>
          if geb (Glyph.getEnd fj) (Glyph.position fm) then
            let fj1 :=
              Glyph.set_length
                (Math_max (Glyph.getEnd fj) (Glyph.getEnd fm)
                 - Glyph.position fj) fj in
            let fj2 := Glyph.set_name "" fj1 in
            merge_loop n' j (S m) (<[j := fj2]> features)
          else (features, m)
      | _, _ => (features, m)
      end
  end.

(** [for (j = 0; j < features.length; j++) { ...; j = m-1 }].  Each round
    moves [j] forward, so [fuel] rounds suffice when [fuel] is the length of
    the array; [None] is a loop cut short by the fuel. *)
Fixpoint collapse_loop (fuel : nat) (j : nat) (features drawn : list Glyph.t)
  : option (list Glyph.t * list Glyph.t) :=
  match features !! j with
  | None => Some (features, drawn)
  | Some fj =>
      match fuel with
      | O => None
      | S fuel' =>
          let originalLength := Glyph.length fj in
          let originalName := Glyph.name fj in
          let '(features1, m) :=
            merge_loop (List.length features - S j) j (S j) features in
          let shown := default fj (features1 !! j) in
          let features2 :=
            <[j := Glyph.set_name originalName
                     (Glyph.set_length originalLength shown)]> features1 in
          collapse_loop fuel' m features2 (drawn ++ [shown])
      end
  end.

(** The collapse branch on the features of all lanes: the store when the
    pass is over and the glyphs drawn, in order. *)
Definition draw_collapse (track : t)
  : option (list Glyph.t * list Glyph.t) :=
  let features :=
    foldl (fun acc lane => acc ++ Lane.features lane) [] (lanes track) in
  let features := sort_by_position features in
  collapse_loop (List.length features) 0 features [].

End Track.

(** ** Scribl: the chart *)

Module Scribl.

(** The fields the layout code reads or writes; [this.scale.max] is
    [scale_max] and so on.  The rendering context, colours and event tables
    are left out. *)
Record t : Type := mk
  { width : Q;
    laneSizes : Q;
    scale_pretty : bool;
    scale_max : option Q;
    scale_min : option Q;
    scale_auto : bool;
    scale_font_buffer : Q;
    tick_auto : bool;
    tick_major_size : Q;
    tick_minor_size : Q;
    drawStyle : string;
    tracks : list (option Track.t) }.

Definition set_laneSizes (v : Q) (c : t) : t :=
  mk (width c) v (scale_pretty c) (scale_max c) (scale_min c)
     (scale_auto c) (scale_font_buffer c) (tick_auto c) (tick_major_size c)
     (tick_minor_size c) (drawStyle c) (tracks c).
Definition set_scale_max (v : option Q) (c : t) : t :=
  mk (width c) (laneSizes c) (scale_pretty c) v (scale_min c)
     (scale_auto c) (scale_font_buffer c) (tick_auto c) (tick_major_size c)
     (tick_minor_size c) (drawStyle c) (tracks c).
Definition set_scale_min (v : option Q) (c : t) : t :=
  mk (width c) (laneSizes c) (scale_pretty c) (scale_max c) v
     (scale_auto c) (scale_font_buffer c) (tick_auto c) (tick_major_size c)
     (tick_minor_size c) (drawStyle c) (tracks c).
Definition set_tick_major_size (v : Q) (c : t) : t :=
  mk (width c) (laneSizes c) (scale_pretty c) (scale_max c) (scale_min c)
     (scale_auto c) (scale_font_buffer c) (tick_auto c) v
     (tick_minor_size c) (drawStyle c) (tracks c).
Definition set_tick_minor_size (v : Q) (c : t) : t :=
  mk (width c) (laneSizes c) (scale_pretty c) (scale_max c) (scale_min c)
     (scale_auto c) (scale_font_buffer c) (tick_auto c) (tick_major_size c)
     v (drawStyle c) (tracks c).
Definition set_drawStyle (v : string) (c : t) : t :=
  mk (width c) (laneSizes c) (scale_pretty c) (scale_max c) (scale_min c)
     (scale_auto c) (scale_font_buffer c) (tick_auto c) (tick_major_size c)
     (tick_minor_size c) v (tracks c).
Definition set_tracks (v : list (option Track.t)) (c : t) : t :=
  mk (width c) (laneSizes c) (scale_pretty c) (scale_max c) (scale_min c)
     (scale_auto c) (scale_font_buffer c) (tick_auto c) (tick_major_size c)
     (tick_minor_size c) (drawStyle c) v.

(** [init]: the defaults of [new Scribl(canvas, width)]. *)
Definition init (width : Q) : t :=
  {| width := width;
     laneSizes := 50;
     scale_pretty := true;
     scale_max := None;
     scale_min := None;
     scale_auto := true;
     scale_font_buffer := 10;
     tick_auto := true;
     tick_major_size := 10;
     tick_minor_size := 1;
     drawStyle := "expand";
     tracks := [] |}.

(** [addTrack]: a list holding only [undefined] is emptied first; the new
    track is pushed, and is the one at the index given back. *)
Definition addTrack (c : t) : t * nat :=
  let track := Track.init in
  let tracks0 :=
    match tracks c with
    | [None] => []
    | ts => ts
    end in
  (set_tracks (tracks0 ++ [Some track]) c, List.length tracks0).

(** [pixelsToNts]: pixels per nucleotide, times [pixels] when given. *)
Definition pixelsToNts (c : t) (pixels : option Q) : option Q :=
  mx ← scale_max c;
  mn ← scale_min c;
  match pixels with
  | None => Some (width c / (mx - mn))
  | Some p => Some (width c / (mx - mn) * p)
  end.

(** [ntsToPixels]: nucleotides per pixel when called without argument. *)
Definition ntsToPixels (c : t) (nts : option Q) : option Q :=
  match nts with
  | None => r ← pixelsToNts c None; Some (1 / r)
  | Some n => Some (n / width c)
  end.

(** [addFeature]: [this.tracks[0] || this.addTrack()], then the track's own
    [addFeature]. *)
Definition addFeature (c : t) (feature : Glyph.t) : t * Glyph.t :=
  let '(c1, track) :=
    match tracks c !! 0%nat with
    | Some (Some _) => (c, 0%nat)
    | _ => addTrack c
    end in
  (set_tracks
     (alter (fmap (fun tr => fst (Track.addFeature pixelsToNts c1 tr feature)))
            track (tracks c1))
     c1,
   feature).

(** [loadFeatures]: [addFeature] on each, in order. *)
Definition loadFeatures (c : t) (features : list Glyph.t) : t :=
  foldl (fun c0 g => fst (addFeature c0 g)) c features.

(** *** Tick labels *)

(** A tick label is the number itself when [tick.auto] is off, and a string
    once a suffix has been appended. *)
Inductive TickText : Type :=
| Num (q : Q)
| Str (s : string).

(** The text a label shows, a number being converted as by [+ '']. *)
Definition text_of (x : TickText) : string :=
  match x with
  | Num q => toString q
  | Str s => s
  end.

Definition getTickText (c : t) (tickNumber : Q) : TickText :=
  if negb (tick_auto c) then Num tickNumber
  else if geb tickNumber 1000000 then
    let decPlaces := 5%Z in
    let base := Math_pow 10 decPlaces in
    Str (toString (Math_round (tickNumber / 1000000 * base) / base) +:+ "m")
  else if geb tickNumber 1000 then
    let decPlaces := 2%Z in
    let base := Math_pow 10 decPlaces in
    Str (toString (Math_round (tickNumber / 1000 * base) / base) +:+ "k")
  else Num tickNumber.

Definition getTickTextDecimalPlaces (c : t) (tickNumber : Q) : TickText :=
  if negb (tick_auto c) then Num tickNumber
  else if geb tickNumber 1000000 then
    let decPlaces := 5%Z in
    Str (toString
           (Math_round (tickNumber / (1000000 / Math_pow 10 decPlaces)))
         +:+ "m")
  else if geb tickNumber 1000 then
    let decPlaces := 2%Z in
    Str (toString
           (Math_round (tickNumber / (1000 / Math_pow 10 decPlaces)))
         +:+ "k")
  else Num tickNumber.

Section Ticks.
(** [this.ctx.measureText(text).width]: supplied by the rendering surface. *)
Variable measureText : string -> Q.

(** [determineMajorTick]: the chart with the intermediate value it stores
    in [tick.major.size], and the interval returned; [None] when the scale
    is not set. *)
Definition determineMajorTick (c : t) : option (t * Q) :=
  mx ← scale_max c;
  mn ← scale_min c;
  let numtimes :=
    width c
    / (measureText (text_of (getTickTextDecimalPlaces c mx))
       + scale_font_buffer c) in
  let irregularTick := (mx - mn) / numtimes in
  let baseNum :=
    Math_pow 10
      (Z.of_nat (String.length (pretty (parseInt irregularTick))) - 1) in
  let c1 :=
    set_tick_major_size (Math_ceil (irregularTick / baseNum) * baseNum) c in
  let digits := String.length (toString (tick_major_size c1)) in
  let places := Math_pow 10 (Z.of_nat digits) in
  let first_digit := tick_major_size c1 / places in
  let first_digit :=
    if gtb first_digit (1 # 10) && leb first_digit (1 # 2) then 1 # 2
    else if gtb first_digit (1 # 2) then 1
    else first_digit in
  Some (c1, first_digit * places).

(** [draw], the block under "make scale end on major ticks". *)
Definition draw_scale_ends (c : t) : option t :=
  if scale_auto c then
    mn ← scale_min c;
    let c1 := set_scale_min (Some (mn - rem mn (tick_major_size c))) c in
    mx ← scale_max c1;
    Some (set_scale_max
            (Some (Math_round (mx / tick_major_size c1 + (4 # 10))
                   * tick_major_size c1)) c1)
  else Some c.

(** The part of [draw] that runs before anything is rendered: the tick
    intervals, then the ends of the scale. *)
Definition draw_scale (c : t) : option t :=
  if scale_pretty c then
    c1 ← (if tick_auto c then
            '(c0, major) ← determineMajorTick c;
            let c0 := set_tick_major_size major c0 in
            Some (set_tick_minor_size
                    (Math_round (tick_major_size c0 / 10)) c0)
          else Some c);
    draw_scale_ends c1
  else Some c.

End Ticks.

(** *** Slicing *)

Section Slice.
(** What [Glyph.clone] depends on: the global binding of [f], and [eval]. *)
Variable global_f : option Glyph.t.
Variable eval : string -> Completion Glyph.t.

(** The body of the innermost loop of [slice], for one feature. *)
Definition slice_feature (from to : Q) (type : string)
  (newLane : Lane.t) (sf : Glyph.t) : Completion Lane.t :=
  let end_ := Glyph.position sf + Glyph.length sf in
  let start := Glyph.position sf in
  if String.eqb type "inclusive" then
    if geb start from && leb start to then
      Normal (Lane.addFeature newLane sf)
    else if gtb end_ from && ltb end_ to then
      Normal (Lane.addFeature newLane sf)
    else if ltb start from && gtb end_ to then
      Normal (Lane.addFeature newLane sf)
    else if gtb start from && ltb end_ to then
      Normal (Lane.addFeature newLane sf)
    else Normal newLane
  else if String.eqb type "strict" then
    if geb start from && leb start to then
      if gtb end_ from && ltb end_ to then
        Normal (Lane.addFeature newLane sf)
      else
        f ← Glyph.clone global_f eval sf;
        let f := Glyph.set_length (Math_abs (to - start)) f in
        Normal (Lane.addFeature newLane f)
    else if gtb end_ from && ltb end_ to then
      f ← Glyph.clone global_f eval sf;
      let f := Glyph.set_position from f in
      let f := Glyph.set_length (Math_abs (end_ - from)) f in
      Normal (Lane.addFeature newLane f)
    else if ltb start from && gtb end_ to then
      f ← Glyph.clone global_f eval sf;
      let f := Glyph.set_position from f in
      let f := Glyph.set_length (Math_abs (to - from)) f in
      Normal (Lane.addFeature newLane f)
    else Normal newLane
  else if String.eqb type "exclusive" then
    if geb start from && leb start to && gtb end_ from && ltb end_ to then
      Normal (Lane.addFeature newLane sf)
    else Normal newLane
  else Normal newLane.

(** The loop over the features of one lane, into a new lane of [newTrack]. *)
Definition slice_lane (from to : Q) (type : string)
  (newTrack : Track.t) (lane : Lane.t) : Completion Track.t :=
  let '(newTrack1, i) := Track.addLane newTrack in
  newLane ← foldl
    (fun acc sf => l ← acc; slice_feature from to type l sf)
    (Normal Lane.init) (Lane.features lane);
  Normal (Track.set_lanes (<[i := newLane]> (Track.lanes newTrack1))
                          newTrack1).

(** The loop over the lanes of one track, into a new track of [newChart];
    reading [track.drawStyle] of an [undefined] entry is a [TypeError]. *)
Definition slice_track (from to : Q) (type : string)
  (newChart : t) (track : option Track.t) : Completion t :=
  match track with
  | None => Throw TypeError
  | Some track =>
      let '(newChart1, j) := addTrack newChart in
      let newTrack := Track.set_drawStyle (Track.drawStyle track) Track.init in
      newTrack ← foldl
        (fun acc lane => tr ← acc; slice_lane from to type tr lane)
        (Normal newTrack) (Track.lanes track);
      Normal (set_tracks (<[j := Some newTrack]> (tracks newChart1))
                         newChart1)
  end.

(** [slice(from, to, type)]; [type] defaults to ['inclusive']. *)
Definition slice (c : t) (from to : Q) (type : option string)
  : Completion t :=
  let type :=
    match type with
    | Some s => if String.eqb s "" then "inclusive"%string else s
    | None => "inclusive"%string
    end in
  let sliced_features : list Glyph.t := [] in
  let newChart := init (width c) in
  newChart ← foldl
    (fun acc track => ch ← acc; slice_track from to type ch track)
    (Normal newChart) (tracks c);
  let newChart := set_laneSizes (laneSizes c) newChart in
  let newChart := set_drawStyle (drawStyle c) newChart in
  Normal (loadFeatures newChart sliced_features).

End Slice.

End Scribl.

(** ** Glyph: pixel geometry *)

Module GlyphPixels.

(** [getPixelLength]: [glyph.lane.chart.pixelsToNts(glyph.length) || 1];
    a length of zero pixels, or [NaN], gives 1. *)
Definition getPixelLength (chart : Scribl.t) (glyph : Glyph.t) : Q :=
  match Scribl.pixelsToNts chart (Some (Glyph.length glyph)) with
  | Some v => if Qeq_bool v 0 then 1 else v
  | None => 1
  end.

(** [getPixelPositionX]; [chart_offset] is [chart.offset], set by [draw],
    and [parent] is [glyph.parent], set on the parts of a composed glyph. *)
Definition getPixelPositionX (chart : Scribl.t) (chart_offset : option Q)
  (parent : option Glyph.t) (glyph : Glyph.t) : option Q :=
  let offset :=
    match chart_offset with
    | Some o => inject_Z (parseInt o)
    | None => 0
    end in
  mn ← Scribl.scale_min chart;
  let position :=
    match parent with
    | Some p => Glyph.position glyph + Glyph.position p - mn
    | None => Glyph.position glyph - mn
    end in
  p ← Scribl.pixelsToNts chart (Some position);
  Some (p + offset).

(** [isSubFeature]: [this.parent != undefined]. *)
Definition isSubFeature (parent : option Glyph.t) : bool :=
  match parent with
  | Some _ => true
  | None => false
  end.

End GlyphPixels.

(** ** Track: draw style *)

Module TrackStyle.

(** [getDrawStyle]: the style of the track when it is set (and not the
    empty string), the style of the chart otherwise. *)
Definition getDrawStyle (chart : Scribl.t) (track : Track.t) : string :=
  match Track.drawStyle track with
  | Some s => if String.eqb s "" then Scribl.drawStyle chart else s
  | None => Scribl.drawStyle chart
  end.

End TrackStyle.

(** ** The ticks of the scale *)

Module DrawScale.

(** [a % b] where the divisor may be zero: the result is then [NaN],
    [None] here. *)
Definition rem (a b : Q) : option Q :=
  if Qeq_bool b 0 then None else Some (Js.rem a b).

(** [x == 0] on a number that may be [NaN]. *)
Definition is_zero (x : option Q) : bool :=
  match x with
  | Some v => Qeq_bool v 0
  | None => false
  end.

(** What is stroked at a tick: a major tick with its label, a half tick or
    a minor tick. *)
Inductive Stroke : Type :=
| Major (tickText : Scribl.TickText)
| Half
| Minor.

Record Tick : Type := mkTick
  { value : Q;
    curr_pos : option Q;
    stroke : Stroke }.

(** [firstMinorTick]; [None] is [NaN]. *)
Definition firstMinorTick (c : Scribl.t) : option Q :=
  mn ← Scribl.scale_min c;
  r ← rem mn (Scribl.tick_minor_size c);
  if Qeq_bool r 0 then Some mn
  else Some (mn - r + Scribl.tick_minor_size c).

(** The body of the loop at [i]; [offset] is [this.offset]. *)
Definition tick_at (c : Scribl.t) (offset : Q) (i : Q) : Tick :=
  let curr_pos :=
    mn ← Scribl.scale_min c;
    p ← Scribl.pixelsToNts c (Some (i - mn));
    Some (p + offset) in
  if is_zero (rem i (Scribl.tick_major_size c)) then
    mkTick i curr_pos (Major (Scribl.getTickText c i))
  else if is_zero (rem i (Scribl.tick_major_size c / 2)) then
    mkTick i curr_pos Half
  else mkTick i curr_pos Minor.

(** [for (var i = firstMinorTick; i <= this.scale.max;
          i += this.tick.minor.size)]: the ticks drawn, in order; [None]
    when the loop is still running after [fuel] iterations. *)
Fixpoint ticks_from (fuel : nat) (c : Scribl.t) (offset : Q) (i : Q)
  : option (list Tick) :=
  match Scribl.scale_max c with
  | None => Some []
  | Some mx =>
    if leb i mx then
      match fuel with
      | O => None
      | S fuel =>
        rest ← ticks_from fuel c offset (i + Scribl.tick_minor_size c);
        Some (tick_at c offset i :: rest)
      end
    else Some []
  end.

(** [drawScale]: the ticks it draws. *)
Definition drawScale (fuel : nat) (c : Scribl.t) (offset : Q)
  : option (list Tick) :=
  match firstMinorTick c with
  | None => Some []
  | Some first => ticks_from fuel c offset first
  end.

End DrawScale.

(** ** Utils *)

Module Utils.

(** [String.prototype.slice(start, end)] on integer arguments: a negative
    index counts from the end, and both are clamped to the string. *)
Definition slice (s : string) (start end_ : Z) : string :=
  let len := Z.of_nat (String.length s) in
  let from :=
    if (start <? 0)%Z then Z.max (len + start) 0 else Z.min start len in
  let to :=
    if (end_ <? 0)%Z then Z.max (len + end_) 0 else Z.min end_ len in
  let span := Z.max (to - from) 0 in
  String.substring (Z.to_nat from) (Z.to_nat span) s.

(** [text.split(" ")]. *)
Fixpoint split_space (text : string) : list string :=
  match text with
  | EmptyString => [EmptyString]
  | String ch rest =>
    if String.eqb (String ch EmptyString) " " then
      EmptyString :: split_space rest
    else match split_space rest with
         | w :: ws => String ch w :: ws
         | [] => [String ch EmptyString]
         end
  end.

(** [words.splice(at, 0, word)]. *)
Definition splice_in (words : list string) (at_ : nat) (word : string)
  : list string :=
  take at_ words ++ word :: drop at_ words.

(** The loop of [ScriblWrapLines] from index [i] on; the result is
    [lines], [temp] and [linecount] at the exit, and [None] when the loop
    is still running after [fuel] iterations. *)
Fixpoint wrap_loop (fuel : nat) (max : Z) (i : nat) (words : list string)
  (temp : string) (lines : list string) (linecount : nat)
  : option (list string * string * nat) :=
  match words !! i with
  | None => Some (lines, temp, linecount)
  | Some w =>
    match fuel with
    | O => None
    | S fuel =>
      if (Z.of_nat (String.length w + String.length temp) <=? max)%Z then
        wrap_loop fuel max (S i) words (temp +:+ (" " +:+ w)) lines linecount
      else if String.eqb temp "" then
        (* word is bigger than line break *)
        let trunc1 := slice w 0 (max - 1) in
        let temp := temp +:+ ((" " +:+ trunc1) +:+ "-") in
        let trunc2 := slice w max (Z.of_nat (String.length w)) in
        let words := splice_in words (i + 1) trunc2 in
        wrap_loop fuel max (S i) words "" (lines ++ [temp]) (S linecount)
      else
        (* [i--], undone by the [i++] of the loop *)
        wrap_loop fuel max i words "" (lines ++ [temp]) (S linecount)
    end
  end.

(** [ScriblWrapLines(max, text)]: the lines and their count. *)
Definition ScriblWrapLines (fuel : nat) (max : Z) (text : string)
  : option (list string * nat) :=
  '(lines, temp, linecount) ← wrap_loop fuel max 0 (split_space text) "" [] 0;
  Some (lines ++ [temp], S linecount).

(** The value [_uniqueId] returns: the prefix followed by the counter, or
    the counter itself when the prefix is falsy. *)
Inductive Id : Type :=
| IdString (s : string)
| IdNumber (n : N).

(** [_uniqueId(prefix)] on the counter [idCounter]: the id, and the counter
    after the call.  A prefix left out is [None]. *)
Definition _uniqueId (prefix : option string) (idCounter : N) : Id * N :=
  let id := idCounter in
  let idCounter := (idCounter + 1)%N in
  match prefix with
  | Some p =>
    if String.eqb p "" then (IdNumber id, idCounter)
    else (IdString (p +:+ pretty id), idCounter)
  | None => (IdNumber id, idCounter)
  end.

End Utils.

(** ** Track: the lane scan in double precision

    [Track.addFeature] once more, each [+], [-] and [/] of the code giving
    a double.  The lanes, the tracks and [Lane.addFeature] are those of
    [Track]. *)

Module Track64.

(** [this.chart.pixelsToNts()], called without argument:
    [this.width / (this.scale.max - this.scale.min)]. *)
Definition pixelsToNts (chart : Scribl.t) : option Q :=
  mx ← Scribl.scale_max chart;
  mn ← Scribl.scale_min chart;
  Some (Double.div (Scribl.width chart) (Double.sub mx mn)).

(** The test of the lane scan:
    [prev_feature != undefined &&
     (feature.position - 3/this.chart.pixelsToNts())
       > (prev_feature.position + prev_feature.length)]. *)
Definition accepts (chart : Scribl.t) (lane : Lane.t) (feature : Glyph.t)
  : bool :=
  match last (Lane.features lane) with
  | None => false
  | Some prev_feature =>
      match pixelsToNts chart with
      | None => false
      | Some r =>
          gtb (Double.sub (Glyph.position feature) (Double.div 3 r))
              (Double.add (Glyph.position prev_feature)
                          (Glyph.length prev_feature))
      end
  end.

Fixpoint find_lane (chart : Scribl.t) (feature : Glyph.t)
  (ls : list Lane.t) (j : nat) : option nat :=
  match ls with
  | [] => None
  | lane :: rest =>
      if accepts chart lane feature then Some j
      else find_lane chart feature rest (S j)
  end.

Definition addFeature (chart : Scribl.t) (track : Track.t)
  (feature : Glyph.t) : Track.t * Glyph.t :=
  let '(track1, curr_lane) :=
    match find_lane chart feature (Track.lanes track) 0 with
    | Some j => (track, j)
    | None => Track.addLane track
    end in
  (Track.set_lanes
     (alter (fun lane => Lane.addFeature lane feature) curr_lane
            (Track.lanes track1))
     track1,
   feature).

End Track64.

(** * Vocabulary of the statements *)

(** ** ScaleModel *)

(** [ntsToPixels(pixelsToNts(x))], a [NaN] going through as it is. *)
Definition units_of_pixels_of (c : Scribl.t) (x : Q) : option Q :=
  p ← Scribl.pixelsToNts c (Some x); Scribl.ntsToPixels c (Some p).

(** A chart 760 pixels wide over the domain [0, 10000]. *)
Definition chart_10k : Scribl.t :=
  Scribl.set_scale_max (Some 10000)
    (Scribl.set_scale_min (Some 0) (Scribl.init 760)).

(** [y] is a whole multiple of [major]. *)
Definition is_multiple (major y : Q) : Prop :=
  exists k : Z, y == inject_Z k * major.

(** [y] is the multiple of [major] nearest to [x] among those at or below
    it. *)
Definition multiple_at_or_below (major x y : Q) : Prop :=
  is_multiple major y /\ y <= x /\ x < y + major.

(** [y] is the multiple of [major] nearest to [x] among those strictly
    above it. *)
Definition multiple_strictly_above (major x y : Q) : Prop :=
  is_multiple major y /\ x < y /\ y <= x + major.

(** The chart over [0, 10000] with major ticks every 1000. *)
Definition chart_10k_by_1000 : Scribl.t :=
  Scribl.set_tick_major_size 1000 chart_10k.

(** ** Layouts *)

(** [Track.addFeature] with the chart class the code has. *)
Definition track_addFeature (c : Scribl.t) (track : Track.t)
  (feature : Glyph.t) : Track.t :=
  fst (Track.addFeature Scribl.pixelsToNts c track feature).

(** The features of a track and of a chart, lane by lane. *)
Definition track_features (track : Track.t) : list Glyph.t :=
  concat (Lane.features <$> Track.lanes track).

Definition chart_features (c : Scribl.t) : list Glyph.t :=
  concat (from_option track_features [] <$> Scribl.tracks c).

(** A rectangle glyph of type gene on the forward strand. *)
Definition rect (uid : nat) (position length : Q) (name : string)
  : Glyph.t :=
  Glyph.mk uid "Rect" "gene" position length "+" name None.

(** The chart over [0, 10000] holding the given features, added in order. *)
Definition chart_with (features : list Glyph.t) : Scribl.t :=
  Scribl.loadFeatures chart_10k features.

(** ** RegionSlicer *)

(** The feature has some overlap with the closed interval [[from, to]]:
    its start is within the range, its end is within the range, or it spans
    the range. *)
Definition overlaps_range (from to : Q) (g : Glyph.t) : Prop :=
  (from <= Glyph.position g /\ Glyph.position g <= to)
  \/ (from <= Glyph.getEnd g /\ Glyph.getEnd g <= to)
  \/ (Glyph.position g <= from /\ to <= Glyph.getEnd g).

(** The four tests of the inclusive branch of [slice], in order. *)
Definition inclusive_test (from to : Q) (sf : Glyph.t) : bool :=
  let end_ := Glyph.position sf + Glyph.length sf in
  let start := Glyph.position sf in
  (geb start from && leb start to)
  || (gtb end_ from && ltb end_ to)
  || (ltb start from && gtb end_ to)
  || (gtb start from && ltb end_ to).

(** The test of the exclusive branch of [slice]. *)
Definition exclusive_test (from to : Q) (sf : Glyph.t) : bool :=
  let end_ := Glyph.position sf + Glyph.length sf in
  let start := Glyph.position sf in
  geb start from && leb start to && gtb end_ from && ltb end_ to.

(** A track with each lane cut down to the features passing [test]. *)
Definition filter_track (test : Glyph.t -> bool) (track : Track.t)
  : Track.t :=
  Track.mk
    ((fun lane => Lane.mk (List.filter test (Lane.features lane)))
       <$> Track.lanes track)
    (Track.drawStyle track).

(** The chart [slice] builds when every feature is either kept as it is or
    dropped: a fresh chart of the same width, lane size and draw style. *)
Definition filter_chart (test : Glyph.t -> bool) (c : Scribl.t)
  (ts : list Track.t) : Scribl.t :=
  Scribl.set_drawStyle (Scribl.drawStyle c)
    (Scribl.set_laneSizes (Scribl.laneSizes c)
       (Scribl.set_tracks (Some <$> (filter_track test <$> ts))
          (Scribl.init (Scribl.width c)))).


(** An evaluator that rejects every source text. *)
Definition no_eval (source : string) : Completion Glyph.t :=
  Throw SyntaxError.

(** What [slice] does with a range it never checks: the inclusive (default)
    and the exclusive modes both return a chart, whose features are those of
    the sliced chart that pass the test of the mode. *)
Definition slice_unchecked (global_f : option Glyph.t)
  (eval : string -> Completion Glyph.t) (c : Scribl.t) (from to : Q)
  : Prop :=
  (exists c',
      Scribl.slice global_f eval c from to None = Normal c'
      /\ forall g, In g (chart_features c')
                   <-> In g (chart_features c)
                       /\ inclusive_test from to g = true)
  /\ (exists c',
         Scribl.slice global_f eval c from to (Some "exclusive"%string)
         = Normal c'
         /\ forall g, In g (chart_features c')
                      <-> In g (chart_features c)
                          /\ exclusive_test from to g = true).

(** The tests of the two modes on a range reduced to one point. *)
Definition point_range_tests (from to : Q) : Prop :=
  from == to ->
  forall g,
    (0 <= Glyph.length g ->
     inclusive_test from to g = true
     <-> Glyph.position g == from
         \/ (Glyph.position g < from /\ from < Glyph.getEnd g))
    /\ exclusive_test from to g = false.


(** ** LaneAllocator *)

(** The gap of the lane scan taken exactly, [3 (max - min) / width]: three
    pixels in coordinate units. *)
Definition gapThreshold (c : Scribl.t) : option Q :=
  r ← Scribl.pixelsToNts c None; Some (3 / r).

(** The gap invariant of a lane: a feature placed before another ends more
    than [gap] before the other starts. *)
Definition lane_gap_ok (gap : Q) (features : list Glyph.t) : Prop :=
  forall (i j : nat) (f g : Glyph.t),
    (i < j)%nat -> features !! i = Some f -> features !! j = Some g ->
    Glyph.position f + Glyph.length f < Glyph.position g - gap.

(** The track obtained from a new track by adding the features in order. *)
Definition add_all (c : Scribl.t) (features : list Glyph.t) : Track.t :=
  foldl (track_addFeature c) Track.init features.


(** ** CollapseMerger *)

(** A merged visual run: the interval [[runStart, runEnd)] and its label. *)
Record Run : Type := mkRun
  { runStart : Q;
    runEnd : Q;
    label : string }.

(** The run of a single feature: its own interval, its label intact. *)
Definition run_of (f : Glyph.t) : Run :=
  mkRun (Glyph.position f) (Glyph.getEnd f) (Glyph.name f).

(** A feature merged into a run: [runEnd = max(runEnd, feature.end)], and
    the label blanked. *)
Definition extend_run (r : Run) (f : Glyph.t) : Run :=
  mkRun (runStart r) (Math_max (runEnd r) (Glyph.getEnd f)) "".

(** The scan in the words of the specification: a feature starting at or
    before [runEnd] extends the current run; a feature starting after
    [runEnd] closes the current run and starts a new one. *)
Fixpoint merge_runs (cur : Run) (rest : list Glyph.t) : list Run :=
  match rest with
  | [] => [cur]
  | f :: rest' =>
      if leb (Glyph.position f) (runEnd cur)
      then merge_runs (extend_run cur f) rest'
      else cur :: merge_runs (run_of f) rest'
  end.

Definition collapse_runs (features : list Glyph.t) : list Run :=
  match features with
  | [] => []
  | f :: rest => merge_runs (run_of f) rest
  end.

(** A glyph as drawn shows a run: same start, same end, same label. *)
Definition shows (g : Glyph.t) (r : Run) : Prop :=
  Glyph.position g == runStart r
  /\ Glyph.getEnd g == runEnd r
  /\ Glyph.name g = label r.

(** The array the collapse branch works on: the features of all lanes,
    sorted by position. *)
Definition collapse_input (track : Track.t) : list Glyph.t :=
  Track.sort_by_position
    (foldl (fun acc lane => acc ++ Lane.features lane) [] (Track.lanes track)).

(** What one round of the inner loop does to [features[j]]. *)
Definition merged_with (fj fm : Glyph.t) : Glyph.t :=
  Glyph.set_name ""
    (Glyph.set_length
       (Math_max (Glyph.getEnd fj) (Glyph.getEnd fm) - Glyph.position fj)
       fj).

(** The inner loop read on the list of the features after [features[j]]:
    the glyph it leaves in [features[j]] and the number of features merged
    into it. *)
Fixpoint absorb (cur : Glyph.t) (rest : list Glyph.t) : Glyph.t * nat :=
  match rest with
  | [] => (cur, 0%nat)
  | fm :: rest' =>
      if geb (Glyph.getEnd cur) (Glyph.position fm) then
        let '(g, k) := absorb (merged_with cur fm) rest' in (g, S k)
      else (cur, 0%nat)
  end.

(** One lane with the features [0,10), [5,15) and [20,25). *)
Definition three_features : list Glyph.t :=
  [rect 1 0 10 "a"; rect 2 5 10 "b"; rect 3 20 5 "c"].


(** ** TickPlanner *)

(** Powers of ten, indexed by the number of zeros. *)
Definition pow10 (n : nat) : Z := 10 ^ Z.of_nat n.

(** The steps of [determineMajorTick] as functions of [irregularTick]:
    [baseNum], then the value stored in [tick.major.size]. *)
Definition baseNum_of (x : Q) : Q :=
  Math_pow 10 (Z.of_nat (String.length (pretty (parseInt x))) - 1).

Definition major_of (x : Q) : Q :=
  Math_ceil (x / baseNum_of x) * baseNum_of x.

(** The two-point snap of [first_digit]. *)
Definition snap_digit (first_digit : Q) : Q :=
  if gtb first_digit (1 # 10) && leb first_digit (1 # 2) then 1 # 2
  else if gtb first_digit (1 # 2) then 1
  else first_digit.

(** The value [determineMajorTick] returns, from the value it stored. *)
Definition snap_of (major : Q) : Q :=
  let digits := String.length (toString major) in
  let places := Math_pow 10 (Z.of_nat digits) in
  snap_digit (major / places) * places.

(** [irregularTick]: the extent of the domain over the number of labels
    that fit. *)
Definition irregularTick_of (measureText : string -> Q) (c : Scribl.t)
  (mn mx : Q) : Q :=
  (mx - mn)
  / (Scribl.width c
     / (measureText (Scribl.text_of (Scribl.getTickTextDecimalPlaces c mx))
        + Scribl.scale_font_buffer c)).

(** A label-width estimator: five pixels a character. *)
Definition five_per_char (text : string) : Q :=
  5 * inject_Z (Z.of_nat (String.length text)).

(** A label-width estimator that answers the same width for every text. *)
Definition fixed_width (w : Q) (text : string) : Q := w.

(** ** LaneAllocator, continued *)


(** ** RegionSlicer, continued *)

(** The strict branch of [slice] calls [clone] on this feature. *)
Definition strict_clips (from to : Q) (sf : Glyph.t) : bool :=
  let end_ := Glyph.position sf + Glyph.length sf in
  let start := Glyph.position sf in
  if geb start from && leb start to then negb (gtb end_ from && ltb end_ to)
  else if gtb end_ from && ltb end_ to then true
  else ltb start from && gtb end_ to.

(** The modes [slice] knows; the empty string stands for the default. *)
Definition known_mode (s : string) : Prop :=
  s = ""%string \/ s = "inclusive"%string \/ s = "strict"%string
  \/ s = "exclusive"%string.

(** A test that no feature passes. *)
Definition keep_none (g : Glyph.t) : bool := false.

(** ** The ticks of the scale *)

(** The tick values are the multiples [k * minor] for the indices [ks]. *)
Definition ticks_at_multiples (minor : Q) (ticks : list DrawScale.Tick)
  (ks : list Z) : Prop :=
  Forall2 (fun t k => DrawScale.value t == inject_Z k * minor) ticks ks.

(** The chart over [0, 10], 760 pixels wide. *)
Definition chart_10 : Scribl.t :=
  Scribl.set_scale_max (Some 10)
    (Scribl.set_scale_min (Some 0) (Scribl.init 760)).

(** The chart over [-3, 10] with minor ticks every 2. *)
Definition chart_from_minus_3 : Scribl.t :=
  Scribl.set_tick_minor_size 2
    (Scribl.set_scale_max (Some 10)
       (Scribl.set_scale_min (Some (-3)) (Scribl.init 760))).

(** ** Wrapped text and ids *)

(** The lines put one after the other. *)
Definition glue (lines : list string) : string :=
  foldr String.append EmptyString lines.

(** A line of at most [max + 1] characters. *)
Definition line_fits (max : Z) (line : string) : Prop :=
  (Z.of_nat (String.length line) <= max + 1)%Z.

(** The size of the words still to place, that bounds the iterations of
    the loop of [ScriblWrapLines]. *)
Definition words_weight (words : list string) : nat :=
  foldr (fun w n => (S (String.length w) + n)%nat) 0%nat words.

(** The ids of successive calls of [_uniqueId], one for each prefix. *)
Fixpoint ids_from (prefixes : list (option string)) (idCounter : N)
  : list Utils.Id :=
  match prefixes with
  | [] => []
  | p :: rest =>
    let '(id, idCounter) := Utils._uniqueId p idCounter in
    id :: ids_from rest idCounter
  end.

(** ** CollapseRenderer, continued *)

(** Each glyph of the list ends before the next one starts. *)
Fixpoint apart (drawn : list Glyph.t) : Prop :=
  match drawn with
  | f :: (g :: _) as rest => Glyph.getEnd f < Glyph.position g /\ apart rest
  | _ => True
  end.

(** The feature [f] lies within the glyph [g]. *)
Definition within (f g : Glyph.t) : Prop :=
  Glyph.position g <= Glyph.position f
  /\ Glyph.getEnd f <= Glyph.getEnd g.

(** The same on runs. *)
Fixpoint runs_apart (runs : list Run) : Prop :=
  match runs with
  | r :: (r' :: _) as rest => runEnd r < runStart r' /\ runs_apart rest
  | _ => True
  end.

(** No feature of the list starts before one that comes earlier. *)
Fixpoint by_position (l : list Glyph.t) : Prop :=
  match l with
  | [] => True
  | f :: rest =>
    Forall (fun g => Glyph.position f <= Glyph.position g) rest
    /\ by_position rest
  end.

(** ** LaneAllocator in double precision *)

(** A double: a number that rounding leaves as it is, below [2^1024]. *)
Definition is_double (x : Q) : Prop :=
  Double.round x == x /\ Qabs x < 2 ^ 1024.

(** A feature as the data model has it, held in doubles: a position and a
    length that is not negative. *)
Definition double_feature (f : Glyph.t) : Prop :=
  is_double (Glyph.position f) /\ is_double (Glyph.length f)
  /\ 0 <= Glyph.length f.

(** [gapThreshold] as the code computes it: [3/this.chart.pixelsToNts()]. *)
Definition double_gapThreshold (c : Scribl.t) : option Q :=
  r ← Track64.pixelsToNts c; Some (Double.div 3 r).

(** The gap invariant of a lane as the code evaluates it: the end of a
    feature placed before another, [f.position + f.length], is less than
    [g.position - gap] of the other, both computed in doubles. *)
Definition double_lane_gap_ok (gap : Q) (features : list Glyph.t) : Prop :=
  forall (i j : nat) (f g : Glyph.t),
    (i < j)%nat -> features !! i = Some f -> features !! j = Some g ->
    Double.add (Glyph.position f) (Glyph.length f)
    < Double.sub (Glyph.position g) gap.

(** The last feature of the lane ends, in doubles, before
    [feature.position - gap], in doubles: the test of the lane scan. *)
Definition double_clears (gap : Q) (lane : Lane.t) (feature : Glyph.t)
  : Prop :=
  exists prev,
    last (Lane.features lane) = Some prev
    /\ Double.add (Glyph.position prev) (Glyph.length prev)
       < Double.sub (Glyph.position feature) gap.

Definition double_track_addFeature (c : Scribl.t) (track : Track.t)
  (feature : Glyph.t) : Track.t :=
  fst (Track64.addFeature c track feature).

(** The track obtained from a new track by adding the features in order. *)
Definition double_add_all (c : Scribl.t) (features : list Glyph.t)
  : Track.t :=
  foldl (double_track_addFeature c) Track.init features.

Definition double_lanes_ok (gap : Q) (track : Track.t) : Prop :=
  Forall (fun lane =>
            double_lane_gap_ok gap (Lane.features lane)
            /\ Forall double_feature (Lane.features lane))
         (Track.lanes track).

(** The chart over [0, 7500], 100 pixels wide. *)
Definition chart_7500 : Scribl.t :=
  Scribl.set_scale_max (Some 7500)
    (Scribl.set_scale_min (Some 0) (Scribl.init 100)).


(** ** Chart-level [addFeature] *)



(** The chart over [0, 10000] with [tick.auto] off. *)
Definition chart_10k_manual_ticks : Scribl.t :=
  Scribl.mk (Scribl.width chart_10k) (Scribl.laneSizes chart_10k)
    (Scribl.scale_pretty chart_10k) (Scribl.scale_max chart_10k)
    (Scribl.scale_min chart_10k) (Scribl.scale_auto chart_10k)
    (Scribl.scale_font_buffer chart_10k) false
    (Scribl.tick_major_size chart_10k) (Scribl.tick_minor_size chart_10k)
    (Scribl.drawStyle chart_10k) (Scribl.tracks chart_10k).

(** * Properties *)

(** ** Comparisons and rounding *)

#[local] Arguments Qfloor : simpl never.
#[local] Arguments Qceiling : simpl never.

Lemma ltb_lt (a b : Q) : ltb a b = true <-> a < b.
Proof.
  unfold ltb. rewrite negb_true_iff. split.
  - intros H. apply Qnot_le_lt. intros Hle.
    apply Qle_bool_iff in Hle. congruence.
  - intros H. destruct (Qle_bool b a) eqn:E; [|reflexivity].
    apply Qle_bool_iff in E. lra.
Qed.

Lemma leb_le (a b : Q) : leb a b = true <-> a <= b.
Proof. unfold leb. apply Qle_bool_iff. Qed.

Lemma gtb_gt (a b : Q) : gtb a b = true <-> b < a.
Proof. unfold gtb. apply ltb_lt. Qed.

Lemma geb_ge (a b : Q) : geb a b = true <-> b <= a.
Proof. unfold geb. apply leb_le. Qed.

Lemma ltb_nlt (a b : Q) : ltb a b = false <-> b <= a.
Proof.
  split; intros H.
  - destruct (Qlt_le_dec a b) as [Hl|Hl]; [|exact Hl].
    apply ltb_lt in Hl. congruence.
  - destruct (ltb a b) eqn:E; [|reflexivity]. apply ltb_lt in E. lra.
Qed.

Lemma leb_nle (a b : Q) : leb a b = false <-> b < a.
Proof.
  split; intros H.
  - destruct (Qlt_le_dec b a) as [Hl|Hl]; [exact Hl|].
    apply leb_le in Hl. congruence.
  - destruct (leb a b) eqn:E; [|reflexivity]. apply leb_le in E. lra.
Qed.

Lemma gtb_ngt (a b : Q) : gtb a b = false <-> a <= b.
Proof. unfold gtb. apply ltb_nlt. Qed.

Lemma geb_nge (a b : Q) : geb a b = false <-> a < b.
Proof. unfold geb. apply leb_nle. Qed.

(** Turns the boolean tests of the code into order facts. *)
Ltac js_cmp :=
  repeat match goal with
  | H : (_ && _) = true |- _ => apply andb_true_iff in H; destruct H
  | H : (_ && _) = false |- _ => apply andb_false_iff in H
  | H : ltb _ _ = true |- _ => apply ltb_lt in H
  | H : ltb _ _ = false |- _ => apply ltb_nlt in H
  | H : leb _ _ = true |- _ => apply leb_le in H
  | H : leb _ _ = false |- _ => apply leb_nle in H
  | H : gtb _ _ = true |- _ => apply gtb_gt in H
  | H : gtb _ _ = false |- _ => apply gtb_ngt in H
  | H : geb _ _ = true |- _ => apply geb_ge in H
  | H : geb _ _ = false |- _ => apply geb_nge in H
  end.

(** ** ScaleModel: pixels and coordinate units *)

(** With an argument, [ntsToPixels] divides by the width alone, so the
    composition divides [x] by the extent of the domain. *)
Lemma ntsToPixels_pixelsToNts (c : Scribl.t) (mn mx x : Q) :
  Scribl.scale_min c = Some mn -> Scribl.scale_max c = Some mx ->
  mn < mx -> 0 < Scribl.width c ->
  exists y, units_of_pixels_of c x = Some y /\ y == x / (mx - mn).
Proof.
  intros Hmn Hmx Hlt Hw. unfold units_of_pixels_of, Scribl.pixelsToNts.
  rewrite Hmn, Hmx. simpl. eexists. split; [reflexivity|].
  field. split; lra.
Qed.

(** Without an argument it returns the ratio that does invert
    [pixelsToNts]. *)
Lemma ntsToPixels_ratio_inverts (c : Scribl.t) (mn mx x : Q) :
  Scribl.scale_min c = Some mn -> Scribl.scale_max c = Some mx ->
  mn < mx -> 0 < Scribl.width c ->
  exists p r, Scribl.pixelsToNts c (Some x) = Some p
              /\ Scribl.ntsToPixels c None = Some r
              /\ p * r == x.
Proof.
  intros Hmn Hmx Hlt Hw. unfold Scribl.ntsToPixels, Scribl.pixelsToNts.
  rewrite Hmn, Hmx. simpl. do 2 eexists. repeat split.
  field. split; lra.
Qed.

(** C1: on the chart 760 pixels wide over [0, 10000], converting the
    coordinate 5000 to pixels with [pixelsToNts] and back with [ntsToPixels]
    gives 1/2, not 5000: the round trip the specification promises does not
    hold in the code. *)
Theorem units_of_pixels_of_5000 :
  exists y, units_of_pixels_of chart_10k 5000 = Some y
            /\ y == 1 # 2 /\ ~ y == 5000.
Proof.
  eexists. split; [reflexivity|]. split; [reflexivity|]. discriminate.
Qed.

(** ** ScaleModel: the ends of the scale *)

Lemma Qfloor_unique (x : Q) (k : Z) :
  inject_Z k <= x -> x < inject_Z (k + 1) -> Qfloor x = k.
Proof.
  intros Hlo Hhi.
  pose proof (Qfloor_le x) as Hf. pose proof (Qlt_floor x) as Hg.
  assert (H1 : inject_Z (Qfloor x) < inject_Z (k + 1)) by lra.
  assert (H2 : inject_Z k < inject_Z (Qfloor x + 1)) by lra.
  rewrite <- Zlt_Qlt in H1, H2. lia.
Qed.

Lemma trunc_nonneg (x : Q) : 0 <= x -> trunc x = Qfloor x.
Proof.
  intros H. unfold trunc. apply Qle_bool_iff in H. rewrite H. reflexivity.
Qed.

Lemma Qdiv_nonneg (a b : Q) : 0 <= a -> 0 < b -> 0 <= a / b.
Proof. intros Ha Hb. apply Qle_shift_div_l; lra. Qed.

(** [k <= a / b < k + 1] read as bounds on [a]. *)
Lemma Qfloor_div_bounds (a b : Q) :
  0 < b ->
  inject_Z (Qfloor (a / b)) * b <= a
  /\ a < inject_Z (Qfloor (a / b)) * b + b.
Proof.
  intros Hb.
  pose proof (Qfloor_le (a / b)) as Hf. pose proof (Qlt_floor (a / b)) as Hg.
  rewrite inject_Z_plus in Hg.
  assert (Ha : a == a / b * b) by (field; lra).
  split.
  - rewrite Ha at 2. apply Qmult_le_compat_r; lra.
  - assert (H : a / b * b < (inject_Z (Qfloor (a / b)) + inject_Z 1) * b).
    { apply Qmult_lt_compat_r; lra. }
    rewrite <- Ha in H. change (inject_Z 1) with 1 in H. lra.
Qed.

(** The new lower end is [major * floor(min / major)] for [min >= 0]. *)
Lemma rem_floor (a b : Q) :
  0 <= a -> 0 < b -> a - rem a b == inject_Z (Qfloor (a / b)) * b.
Proof.
  intros Ha Hb. unfold rem. rewrite trunc_nonneg by (apply Qdiv_nonneg; lra).
  ring.
Qed.

(** [Math.round(q + .4)] is [floor(q + 9/10)]. *)
Lemma Math_round_plus_4_tenths (q : Q) :
  Math_round (q + (4 # 10)) = inject_Z (Qfloor (q + (9 # 10))).
Proof.
  unfold Math_round. f_equal. apply Qfloor_comp. ring.
Qed.

(** C7, as the code has it: for a positive major tick size and a domain
    whose lower end is not negative, the block of [draw] that prettifies the
    domain lowers [min] to the nearest multiple of the major tick size at or
    below it; it leaves [max] as it is when [max] is already a multiple, and
    raises [max] to the nearest multiple strictly above it when [max] lies
    at least a tenth of a tick past a multiple. *)
Theorem draw_scale_ends_spec (c : Scribl.t) (mn mx : Q) :
  Scribl.scale_auto c = true ->
  Scribl.scale_min c = Some mn -> Scribl.scale_max c = Some mx ->
  0 < Scribl.tick_major_size c -> 0 <= mn ->
  exists c' mn' mx',
    Scribl.draw_scale_ends c = Some c'
    /\ Scribl.scale_min c' = Some mn' /\ Scribl.scale_max c' = Some mx'
    /\ Scribl.tick_major_size c' = Scribl.tick_major_size c
    /\ multiple_at_or_below (Scribl.tick_major_size c) mn mn'
    /\ (is_multiple (Scribl.tick_major_size c) mx -> mx' == mx)
    /\ (1 # 10 <= mx / Scribl.tick_major_size c
                  - inject_Z (Qfloor (mx / Scribl.tick_major_size c)) ->
        multiple_strictly_above (Scribl.tick_major_size c) mx mx').
Proof.
  intros Hauto Hmn Hmx Hmaj Hpos.
  unfold Scribl.draw_scale_ends. rewrite Hauto, Hmn. simpl. rewrite Hmx.
  simpl. set (major := Scribl.tick_major_size c) in *.
  do 3 eexists. split; [reflexivity|]. simpl.
  split; [reflexivity|]. split; [reflexivity|]. split; [reflexivity|].
  destruct (Qfloor_div_bounds mn major Hmaj) as [Hlo Hhi].
  destruct (Qfloor_div_bounds mx major Hmaj) as [Xlo Xhi].
  pose proof (Qfloor_le (mx / major)) as Hf.
  pose proof (Qlt_floor (mx / major)) as Hg.
  rewrite inject_Z_plus in Hg. change (inject_Z 1) with 1 in Hg.
  split; [|split].
  - pose proof (rem_floor mn major Hpos Hmaj) as Hr.
    split; [|split].
    + exists (Qfloor (mn / major)). exact Hr.
    + rewrite Hr. exact Hlo.
    + rewrite Hr. exact Hhi.
  - intros [k Hk]. rewrite Math_round_plus_4_tenths.
    assert (Hq : mx / major == inject_Z k).
    { rewrite Hk. field. lra. }
    rewrite (Qfloor_unique _ k).
    + rewrite Hk. reflexivity.
    + rewrite Hq. lra.
    + rewrite Hq, inject_Z_plus. change (inject_Z 1) with 1. lra.
  - intros Hfrac. rewrite Math_round_plus_4_tenths.
    set (q := mx / major) in *.
    rewrite (Qfloor_unique _ (Qfloor q + 1)).
    + rewrite inject_Z_plus. change (inject_Z 1) with 1.
      split; [|split].
      * exists (Qfloor q + 1)%Z.
        rewrite inject_Z_plus. reflexivity.
      * lra.
      * lra.
    + rewrite inject_Z_plus. change (inject_Z 1) with 1. lra.
    + rewrite !inject_Z_plus. change (inject_Z 1) with 1. lra.
Qed.

Lemma draw_scale_ends_spec_witness :
  exists c' mn' mx',
    Scribl.draw_scale_ends chart_10k_by_1000 = Some c'
    /\ Scribl.scale_min c' = Some mn' /\ Scribl.scale_max c' = Some mx'
    /\ Scribl.tick_major_size c' = Scribl.tick_major_size chart_10k_by_1000
    /\ multiple_at_or_below (Scribl.tick_major_size chart_10k_by_1000) 0 mn'
    /\ (is_multiple (Scribl.tick_major_size chart_10k_by_1000) 10000 ->
        mx' == 10000)
    /\ (1 # 10 <= 10000 / Scribl.tick_major_size chart_10k_by_1000
                  - inject_Z
                      (Qfloor
                         (10000 / Scribl.tick_major_size chart_10k_by_1000)) ->
        multiple_strictly_above
          (Scribl.tick_major_size chart_10k_by_1000) 10000 mx').
Proof.
  apply (draw_scale_ends_spec chart_10k_by_1000 0 10000);
    [reflexivity | reflexivity | reflexivity | reflexivity | discriminate].
Defined.

(** C7, as the specification words it, fails: with major ticks every 1000
    the upper end 10000 is already a multiple and stays 10000, which is not
    strictly above it. *)
Lemma draw_scale_ends_keeps_a_multiple :
  exists c' v,
    Scribl.draw_scale_ends chart_10k_by_1000 = Some c'
    /\ Scribl.scale_max c' = Some v
    /\ ~ multiple_strictly_above 1000 10000 v.
Proof.
  do 2 eexists. split; [reflexivity|]. split; [reflexivity|].
  intros (_ & Hlt & _). revert Hlt. vm_compute. intros H. discriminate H.
Qed.

(** An upper end less than a tenth of a tick past a multiple is not raised:
    with major ticks every 1000, the upper end 10050 becomes 10000. *)
Lemma draw_scale_ends_can_lower_max :
  exists c' v,
    Scribl.draw_scale_ends
      (Scribl.set_scale_max (Some 10050) chart_10k_by_1000) = Some c'
    /\ Scribl.scale_max c' = Some v /\ v == 10000.
Proof. do 2 eexists. repeat split; reflexivity. Qed.

(** ** Chart-level [addFeature] *)

Lemma alter_last {A : Type} (f : A -> A) (l : list A) (x : A) :
  alter f (List.length l) (l ++ [x]) = l ++ [f x].
Proof. induction l as [|a l IH]; simpl; [reflexivity|]. f_equal. exact IH. Qed.




(** ** RegionSlicer: the shape of a slice *)

Lemma insert_last {A : Type} (l : list A) (x y : A) :
  <[List.length l := y]> (l ++ [x]) = l ++ [y].
Proof. induction l as [|a l IH]; simpl; [reflexivity|]. f_equal. exact IH. Qed.

Section SliceShape.
(** A mode of [slice] in which each feature is kept as it is or dropped,
    as [test] says. *)
Variable global_f : option Glyph.t.
Variable eval : string -> Completion Glyph.t.
Variables from to : Q.
Variable type : string.
Variable test : Glyph.t -> bool.
Hypothesis slice_feature_test : forall (l : Lane.t) (sf : Glyph.t),
  Scribl.slice_feature global_f eval from to type l sf
  = Normal (if test sf then Lane.addFeature l sf else l).

Lemma slice_features_fold (fs : list Glyph.t) (l : Lane.t) :
  foldl (fun acc sf =>
           l0 ← acc; Scribl.slice_feature global_f eval from to type l0 sf)
        (Normal l) fs
  = Normal (Lane.mk (Lane.features l ++ List.filter test fs)).
Proof.
  revert l. induction fs as [|sf fs IH]; intros [l]; simpl.
  - rewrite app_nil_r. reflexivity.
  - change (Normal (Lane.mk l) ≫= _)
      with (Scribl.slice_feature global_f eval from to type (Lane.mk l) sf).
    rewrite slice_feature_test. destruct (test sf); rewrite IH; simpl.
    + rewrite <- app_assoc. reflexivity.
    + reflexivity.
Qed.

Lemma slice_lane_shape (newTrack : Track.t) (lane : Lane.t) :
  Scribl.slice_lane global_f eval from to type newTrack lane
  = Normal (Track.mk
              (Track.lanes newTrack
               ++ [Lane.mk (List.filter test (Lane.features lane))])
              (Track.drawStyle newTrack)).
Proof.
  unfold Scribl.slice_lane, Track.addLane. rewrite slice_features_fold.
  simpl. rewrite insert_last. reflexivity.
Qed.

Lemma slice_lanes_fold (ls : list Lane.t) (newTrack : Track.t) :
  foldl (fun acc lane =>
           tr ← acc; Scribl.slice_lane global_f eval from to type tr lane)
        (Normal newTrack) ls
  = Normal (Track.mk
              (Track.lanes newTrack
               ++ ((fun lane =>
                      Lane.mk (List.filter test (Lane.features lane)))
                     <$> ls))
              (Track.drawStyle newTrack)).
Proof.
  revert newTrack. induction ls as [|lane ls IH]; intros [l d]; simpl.
  - rewrite app_nil_r. reflexivity.
  - change (Normal (Track.mk l d) ≫= _)
      with (Scribl.slice_lane global_f eval from to type (Track.mk l d) lane).
    rewrite slice_lane_shape, IH. simpl. rewrite <- app_assoc. reflexivity.
Qed.

Lemma addTrack_defined (c : Scribl.t) (done : list Track.t) :
  Scribl.tracks c = Some <$> done ->
  Scribl.addTrack c
  = (Scribl.set_tracks (Scribl.tracks c ++ [Some Track.init]) c,
     List.length (Scribl.tracks c)).
Proof.
  intros H. unfold Scribl.addTrack. rewrite H.
  destruct done as [|a [|b done]]; reflexivity.
Qed.

Lemma slice_track_shape (newChart : Scribl.t) (done : list Track.t)
  (track : Track.t) :
  Scribl.tracks newChart = Some <$> done ->
  Scribl.slice_track global_f eval from to type newChart (Some track)
  = Normal (Scribl.set_tracks
              (Some <$> (done ++ [filter_track test track])) newChart).
Proof.
  intros H. unfold Scribl.slice_track. rewrite (addTrack_defined _ done H).
  rewrite slice_lanes_fold. simpl. rewrite insert_last, H, fmap_app.
  reflexivity.
Qed.

Lemma slice_tracks_fold (ts : list Track.t) (newChart : Scribl.t)
  (done : list Track.t) :
  Scribl.tracks newChart = Some <$> done ->
  foldl (fun acc track =>
           ch ← acc; Scribl.slice_track global_f eval from to type ch track)
        (Normal newChart) (Some <$> ts)
  = Normal (Scribl.set_tracks
              (Some <$> (done ++ (filter_track test <$> ts))) newChart).
Proof.
  revert newChart done. induction ts as [|track ts IH]; intros nc done H.
  - simpl. rewrite app_nil_r, <- H. destruct nc; reflexivity.
  - rewrite fmap_cons. cbn [foldl].
    change (Normal nc ≫= _)
      with (Scribl.slice_track global_f eval from to type nc (Some track)).
    rewrite (slice_track_shape nc done track H).
    rewrite (IH _ (done ++ [filter_track test track])) by reflexivity.
    rewrite <- app_assoc. reflexivity.
Qed.

(** The slice mirrors the grouping of the chart, lane by lane. *)
Lemma slice_shape (c : Scribl.t) (ts : list Track.t) (ty : option string) :
  Scribl.tracks c = Some <$> ts ->
  match ty with
  | Some s => if String.eqb s "" then "inclusive"%string else s
  | None => "inclusive"%string
  end = type ->
  Scribl.slice global_f eval c from to ty = Normal (filter_chart test c ts).
Proof.
  intros Hts Hty. unfold Scribl.slice. rewrite Hty, Hts.
  rewrite (slice_tracks_fold ts _ []) by reflexivity. reflexivity.
Qed.

End SliceShape.

Lemma chart_features_defined (c : Scribl.t) (ts : list Track.t) :
  Scribl.tracks c = Some <$> ts ->
  chart_features c = concat (track_features <$> ts).
Proof.
  intros H. unfold chart_features. rewrite H. f_equal. clear H.
  induction ts as [|a ts IH]; simpl; [reflexivity|]. f_equal. exact IH.
Qed.

Lemma track_features_filter (test : Glyph.t -> bool) (track : Track.t) :
  track_features (filter_track test track)
  = List.filter test (track_features track).
Proof.
  unfold track_features, filter_track. cbn [Track.lanes].
  induction (Track.lanes track) as [|lane ls IH]; [reflexivity|].
  rewrite !fmap_cons. cbn [concat Lane.features].
  rewrite List.filter_app, IH. reflexivity.
Qed.

(** The features of the slice are those of the chart that pass the test,
    in the same order. *)
Lemma chart_features_filter (test : Glyph.t -> bool) (c : Scribl.t)
  (ts : list Track.t) :
  Scribl.tracks c = Some <$> ts ->
  chart_features (filter_chart test c ts)
  = List.filter test (chart_features c).
Proof.
  intros H. rewrite (chart_features_defined c ts H).
  rewrite (chart_features_defined _ (filter_track test <$> ts))
    by reflexivity.
  clear H. induction ts as [|track ts IH]; [reflexivity|].
  rewrite !fmap_cons. cbn [concat].
  rewrite List.filter_app, IH, track_features_filter. reflexivity.
Qed.

Lemma slice_feature_inclusive (global_f : option Glyph.t)
  (eval : string -> Completion Glyph.t) (from to : Q)
  (l : Lane.t) (sf : Glyph.t) :
  Scribl.slice_feature global_f eval from to "inclusive" l sf
  = Normal (if inclusive_test from to sf then Lane.addFeature l sf else l).
Proof.
  unfold Scribl.slice_feature, inclusive_test.
  change (String.eqb "inclusive" "inclusive") with true. cbv iota zeta.
  repeat match goal with
         | |- context [if ?b && ?b' then _ else _] =>
             destruct (b && b'); simpl; try reflexivity
         end.
Qed.

Lemma slice_feature_exclusive (global_f : option Glyph.t)
  (eval : string -> Completion Glyph.t) (from to : Q)
  (l : Lane.t) (sf : Glyph.t) :
  Scribl.slice_feature global_f eval from to "exclusive" l sf
  = Normal (if exclusive_test from to sf then Lane.addFeature l sf else l).
Proof.
  unfold Scribl.slice_feature, exclusive_test.
  change (String.eqb "exclusive" "inclusive") with false.
  change (String.eqb "exclusive" "strict") with false.
  change (String.eqb "exclusive" "exclusive") with true.
  cbv iota zeta.
  match goal with |- (if ?b then _ else _) = _ => destruct b end;
    reflexivity.
Qed.

(** ** RegionSlicer: the inclusive mode *)

(** For a feature of non-negative length the four tests of the inclusive
    mode come to three: the start is in [[from, to]], the end is strictly
    inside, or the feature extends strictly beyond both ends. *)
Lemma inclusive_test_spec (from to : Q) (g : Glyph.t) :
  0 <= Glyph.length g ->
  inclusive_test from to g = true
  <-> (from <= Glyph.position g /\ Glyph.position g <= to)
      \/ (from < Glyph.getEnd g /\ Glyph.getEnd g < to)
      \/ (Glyph.position g < from /\ to < Glyph.getEnd g).
Proof.
  intros Hlen. unfold inclusive_test, Glyph.getEnd.
  rewrite !orb_true_iff, !andb_true_iff.
  rewrite !geb_ge, !leb_le, !gtb_gt, !ltb_lt.
  split.
  - intros [[[H|H]|H]|H]; [left | right; left | right; right | left];
      first [exact H | destruct H; split; lra].
  - intros [H|[H|H]]; [left; left; left | left; left; right | left; right];
      exact H.
Qed.

(** On a chart with no [undefined] slot the inclusive slice keeps exactly
    the features that pass the tests of the code. *)
Lemma slice_inclusive_spec (global_f : option Glyph.t)
  (eval : string -> Completion Glyph.t) (c : Scribl.t) (ts : list Track.t)
  (from to : Q) :
  Scribl.tracks c = Some <$> ts ->
  exists c',
    Scribl.slice global_f eval c from to (Some "inclusive"%string)
    = Normal c'
    /\ forall g, In g (chart_features c')
                 <-> In g (chart_features c)
                     /\ inclusive_test from to g = true.
Proof.
  intros Hts. eexists. split.
  - apply (slice_shape global_f eval from to "inclusive"
             (inclusive_test from to)
             (slice_feature_inclusive global_f eval from to) c ts);
      [exact Hts | reflexivity].
  - intros g. rewrite (chart_features_filter _ c ts Hts).
    apply List.filter_In.
Qed.

(** The two examples of the specification: slicing from 100 to 200 keeps
    the feature at 150 of length 100 and drops the one at 300 of
    length 10. *)
Lemma slice_inclusive_examples (global_f : option Glyph.t)
  (eval : string -> Completion Glyph.t) :
  exists c',
    Scribl.slice global_f eval
      (chart_with [rect 1 150 100 "a"; rect 2 300 10 "b"]) 100 200
      (Some "inclusive"%string) = Normal c'
    /\ chart_features c' = [rect 1 150 100 "a"].
Proof. eexists. split; reflexivity. Qed.

(** C3: slicing from 100 to 200 in the inclusive mode drops the feature at
    50 of length 150, which ends at 200 and covers the whole range: a
    feature that overlaps the range is left out of the slice. *)
Theorem slice_inclusive_drops_feature_ending_at_to
  (global_f : option Glyph.t) (eval : string -> Completion Glyph.t) :
  exists c',
    Scribl.slice global_f eval (chart_with [rect 1 50 150 "a"]) 100 200
      (Some "inclusive"%string) = Normal c'
    /\ chart_features c' = []
    /\ chart_features (chart_with [rect 1 50 150 "a"]) = [rect 1 50 150 "a"]
    /\ overlaps_range 100 200 (rect 1 50 150 "a").
Proof.
  eexists. split; [reflexivity|]. split; [reflexivity|].
  split; [reflexivity|]. right. right. split; discriminate.
Qed.

(** ** RegionSlicer: the strict mode *)

(** [clone] fails whenever no global [f] is bound. *)
Lemma clone_without_global (eval : string -> Completion Glyph.t)
  (this : Glyph.t) :
  Glyph.clone None eval this = Throw (ReferenceError "f").
Proof. reflexivity. Qed.

(** With a global [f] bound, the source handed to [eval] is built from that
    [f], not from the glyph being cloned, and has no closing parenthesis. *)
Lemma clone_eval_source (eval : string -> Completion Glyph.t)
  (this : Glyph.t) :
  Glyph.clone (Some (rect 7 50 200 "a")) eval this
  = eval "newRect(gene,50,200"%string.
Proof. reflexivity. Qed.

(** A feature that starts in [[from, to]] and ends strictly inside it is
    kept as it is: same glyph, same identity. *)
Lemma slice_feature_strict_inside (global_f : option Glyph.t)
  (eval : string -> Completion Glyph.t) (from to : Q)
  (l : Lane.t) (sf : Glyph.t) :
  from <= Glyph.position sf -> Glyph.position sf <= to ->
  from < Glyph.getEnd sf -> Glyph.getEnd sf < to ->
  Scribl.slice_feature global_f eval from to "strict" l sf
  = Normal (Lane.addFeature l sf).
Proof.
  unfold Glyph.getEnd. intros H1 H2 H3 H4. unfold Scribl.slice_feature.
  change (String.eqb "strict" "inclusive") with false.
  change (String.eqb "strict" "strict") with true. cbv iota zeta.
  apply geb_ge in H1. apply leb_le in H2. apply gtb_gt in H3.
  apply ltb_lt in H4. rewrite H1, H2, H3, H4. reflexivity.
Qed.

(** A feature with no part in the range is dropped. *)
Lemma slice_feature_strict_outside (global_f : option Glyph.t)
  (eval : string -> Completion Glyph.t) (from to : Q)
  (l : Lane.t) (sf : Glyph.t) :
  from < to -> 0 <= Glyph.length sf ->
  Glyph.getEnd sf < from \/ to < Glyph.position sf ->
  Scribl.slice_feature global_f eval from to "strict" l sf = Normal l.
Proof.
  unfold Glyph.getEnd. intros Hft Hlen Hout. unfold Scribl.slice_feature.
  change (String.eqb "strict" "inclusive") with false.
  change (String.eqb "strict" "strict") with true. cbv iota zeta.
  destruct (geb (Glyph.position sf) from && leb (Glyph.position sf) to)
    eqn:E1; [js_cmp; lra|].
  destruct (gtb (Glyph.position sf + Glyph.length sf) from
            && ltb (Glyph.position sf + Glyph.length sf) to)
    eqn:E2; [js_cmp; lra|].
  destruct (ltb (Glyph.position sf) from
            && gtb (Glyph.position sf + Glyph.length sf) to)
    eqn:E3; [js_cmp; lra|].
  reflexivity.
Qed.

(** C4: slicing from 100 to 150 in the strict mode over the feature at 50
    of length 200 does not yield a clone at 100 of length 50: the call to
    [clone] throws a ReferenceError, whatever [eval] does, and so does
    [slice]. *)
Theorem slice_strict_clone_throws (eval : string -> Completion Glyph.t) :
  Scribl.slice None eval (chart_with [rect 1 50 200 "a"]) 100 150
    (Some "strict"%string)
  = Throw (ReferenceError "f").
Proof. reflexivity. Qed.

(** ** RegionSlicer: the range is not checked *)

Lemma point_range_tests_hold (from to : Q) : point_range_tests from to.
Proof.
  intros Heq g. unfold inclusive_test, exclusive_test, Glyph.getEnd. split.
  - intros Hlen. rewrite !orb_true_iff, !andb_true_iff.
    rewrite !geb_ge, !leb_le, !gtb_gt, !ltb_lt. split.
    + intros [[[H|H]|H]|H]; destruct H as [H1 H2].
      * left. apply Qle_antisym; lra.
      * exfalso. lra.
      * right. split; lra.
      * exfalso. lra.
    + intros [H|[H1 H2]]; [left; left; left; rewrite H; split; lra|].
      left. right. split; lra.
  - apply andb_false_iff.
    destruct (ltb (Glyph.position g + Glyph.length g) to) eqn:E4;
      [|right; reflexivity].
    left. apply andb_false_iff.
    destruct (gtb (Glyph.position g + Glyph.length g) from) eqn:E3;
      [|right; reflexivity].
    js_cmp. exfalso. lra.
Qed.

(** C8, as the code has it: [slice] does not check its range.  On a chart
    with no [undefined] slot, for every [from] and [to], [from > to]
    included, the inclusive (default) and the exclusive modes return a
    chart and never fail; its features are those that pass the tests of the
    mode.  When [from == to] no feature passes the exclusive test, and the
    inclusive test keeps the features (of non-negative length) that start
    at [from] or extend on both sides of it. *)
Theorem slice_does_not_check_range (global_f : option Glyph.t)
  (eval : string -> Completion Glyph.t) (c : Scribl.t) (ts : list Track.t)
  (from to : Q) :
  Scribl.tracks c = Some <$> ts ->
  slice_unchecked global_f eval c from to /\ point_range_tests from to.
Proof.
  intros Hts. split; [split|apply point_range_tests_hold].
  - eexists. split.
    + apply (slice_shape global_f eval from to "inclusive"
               (inclusive_test from to)
               (slice_feature_inclusive global_f eval from to) c ts);
        [exact Hts | reflexivity].
    + intros g. rewrite (chart_features_filter _ c ts Hts).
      apply List.filter_In.
  - eexists. split.
    + apply (slice_shape global_f eval from to "exclusive"
               (exclusive_test from to)
               (slice_feature_exclusive global_f eval from to) c ts);
        [exact Hts | reflexivity].
    + intros g. rewrite (chart_features_filter _ c ts Hts).
      apply List.filter_In.
Qed.

Lemma slice_does_not_check_range_witness :
  Scribl.tracks (chart_with [rect 1 100 10 "a"])
  = Some <$> [Track.mk [Lane.mk [rect 1 100 10 "a"]] None]
  /\ slice_unchecked None no_eval (chart_with [rect 1 100 10 "a"]) 200 100
  /\ point_range_tests 200 100.
Proof.
  split; [reflexivity|].
  apply (slice_does_not_check_range None no_eval
           (chart_with [rect 1 100 10 "a"])
           [Track.mk [Lane.mk [rect 1 100 10 "a"]] None] 200 100).
  reflexivity.
Defined.

(** C8, as the specification words it, fails twice: a slice from 200 to
    100 returns a chart, here with the feature at 120 of length 60 in it,
    and a slice from 100 to 100 returns a chart that is not empty. *)
Lemma slice_accepts_reversed_and_point_ranges :
  (exists c',
      Scribl.slice None no_eval (chart_with [rect 1 120 60 "a"]) 200 100
        None = Normal c'
      /\ chart_features c' = [rect 1 120 60 "a"])
  /\ (exists c',
         Scribl.slice None no_eval (chart_with [rect 1 100 10 "a"]) 100 100
           None = Normal c'
         /\ chart_features c' = [rect 1 100 10 "a"]).
Proof. split; eexists; split; reflexivity. Qed.

(** ** TickPlanner: labels *)

Lemma string_app_nil_r (s : string) : (s +:+ "")%string = s.
Proof.
  induction s as [|a s IH]; [reflexivity|].
  unfold String.append; fold String.append. f_equal. exact IH.
Qed.

Lemma string_app_length (s1 s2 : string) :
  String.length (s1 +:+ s2) = (String.length s1 + String.length s2)%nat.
Proof.
  induction s1 as [|a s1 IH]; [reflexivity|].
  unfold String.append; fold String.append. simpl. f_equal. exact IH.
Qed.

(** A number with no fraction prints as the integer it is. *)
Lemma toString_inject_Z (z : Z) : toString (inject_Z z) = pretty z.
Proof.
  unfold toString.
  change (Qabs (inject_Z z)) with (inject_Z (Z.abs z)).
  rewrite Qfloor_Z.
  assert (Hf : Qeq_bool (Qred (inject_Z (Z.abs z) - inject_Z (Z.abs z))) 0
               = true).
  { apply Qeq_bool_iff. rewrite Qred_correct. ring. }
  rewrite Hf, string_app_nil_r.
  destruct z as [|p|p]; reflexivity.
Qed.

Lemma toString_proper (q q' : Q) : q == q' -> toString q = toString q'.
Proof.
  intros H. unfold toString.
  assert (Ha : Qabs q == Qabs q') by (rewrite H; reflexivity).
  rewrite (Qfloor_comp _ _ Ha).
  assert (Hr : Qred (Qabs q - inject_Z (Qfloor (Qabs q')))
               = Qred (Qabs q' - inject_Z (Qfloor (Qabs q')))).
  { apply Qred_complete. rewrite Ha. reflexivity. }
  rewrite Hr.
  assert (Hl : ltb q 0 = ltb q' 0).
  { unfold ltb. f_equal. apply Qleb_comp; [reflexivity | exact H]. }
  rewrite Hl. reflexivity.
Qed.

(** C9: for a tick value of 1000 or more (ticks planned automatically), the
    width-estimation formatter prints an integer followed by the suffix: the
    integer nearest to the value divided by 10, that is the value counted in
    hundredths of a thousand or in hundred-thousandths of a million, with no
    decimal point.  For some values, 1234 among them, its text is shorter
    than the text of the display formatter. *)
Theorem getTickTextDecimalPlaces_rounds (c : Scribl.t) (tickNumber : Q) :
  Scribl.tick_auto c = true -> 1000 <= tickNumber ->
  (exists z : Z,
      inject_Z z - (1 # 2) <= tickNumber / 10
      /\ tickNumber / 10 < inject_Z z + (1 # 2)
      /\ Scribl.getTickTextDecimalPlaces c tickNumber
         = Scribl.Str (pretty z
                       +:+ (if geb tickNumber 1000000 then "m" else "k")))
  /\ (exists t0 : Q,
         1000 <= t0
         /\ (String.length
               (Scribl.text_of (Scribl.getTickTextDecimalPlaces c t0))
             < String.length (Scribl.text_of (Scribl.getTickText c t0)))%nat).
Proof.
  intros Hauto Hk. split.
  - exists (Qfloor (tickNumber / 10 + (1 # 2))).
    pose proof (Qfloor_le (tickNumber / 10 + (1 # 2))) as Hf.
    pose proof (Qlt_floor (tickNumber / 10 + (1 # 2))) as Hg.
    rewrite inject_Z_plus in Hg. change (inject_Z 1) with 1 in Hg.
    split; [lra|]. split; [lra|].
    unfold Scribl.getTickTextDecimalPlaces, Math_round. rewrite Hauto.
    cbn [negb].
    assert (Hm : tickNumber / (1000000 / Math_pow 10 5) + (1 # 2)
                 == tickNumber / 10 + (1 # 2)).
    { change (Math_pow 10 5) with (100000 # 1). field. }
    assert (Hn : tickNumber / (1000 / Math_pow 10 2) + (1 # 2)
                 == tickNumber / 10 + (1 # 2)).
    { change (Math_pow 10 2) with (100 # 1). field. }
    destruct (geb tickNumber 1000000).
    + rewrite (Qfloor_comp _ _ Hm), toString_inject_Z. reflexivity.
    + apply geb_ge in Hk. rewrite Hk.
      rewrite (Qfloor_comp _ _ Hn), toString_inject_Z. reflexivity.
  - exists 1234. split; [discriminate|].
    unfold Scribl.getTickTextDecimalPlaces, Scribl.getTickText.
    rewrite Hauto. vm_compute. lia.
Qed.

Lemma getTickTextDecimalPlaces_rounds_witness :
  Scribl.tick_auto chart_10k = true /\ 1000 <= 1500
  /\ (exists z : Z,
         inject_Z z - (1 # 2) <= 1500 / 10
         /\ 1500 / 10 < inject_Z z + (1 # 2)
         /\ Scribl.getTickTextDecimalPlaces chart_10k 1500
            = Scribl.Str (pretty z
                          +:+ (if geb 1500 1000000 then "m" else "k")))
  /\ (exists t0 : Q,
         1000 <= t0
         /\ (String.length
               (Scribl.text_of (Scribl.getTickTextDecimalPlaces chart_10k t0))
             < String.length
                 (Scribl.text_of (Scribl.getTickText chart_10k t0)))%nat).
Proof.
  split; [reflexivity|]. split; [discriminate|].
  apply (getTickTextDecimalPlaces_rounds chart_10k 1500);
    [reflexivity | discriminate].
Defined.

(** The display formatter on the values of the specification. *)
Lemma getTickText_examples :
  Scribl.text_of (Scribl.getTickText chart_10k 999) = "999"%string
  /\ Scribl.text_of (Scribl.getTickText chart_10k 1500) = "1.5k"%string
  /\ Scribl.text_of (Scribl.getTickText chart_10k 2500000) = "2.5m"%string
  /\ Scribl.text_of (Scribl.getTickTextDecimalPlaces chart_10k 1500)
     = "150k"%string.
Proof. repeat split; reflexivity. Qed.

(** ** LaneAllocator: the lane scan *)

Lemma find_lane_Some {Chart : Type} (p : Chart -> option Q -> option Q)
  (c : Chart) (feature : Glyph.t) (ls : list Lane.t) (k j : nat) :
  Track.find_lane p c feature ls k = Some j ->
  exists (i : nat) (lane : Lane.t),
    j = (k + i)%nat /\ ls !! i = Some lane
    /\ Track.accepts p c lane feature = true.
Proof.
  revert k. induction ls as [|lane ls IH]; intros k H; simpl in H.
  - discriminate.
  - destruct (Track.accepts p c lane feature) eqn:E.
    + injection H as <-. exists 0%nat, lane. split; [lia|]. split; done.
    + destruct (IH _ H) as (i & lane' & -> & Hi & Ha).
      exists (S i), lane'. split; [lia|]. split; done.
Qed.


(** ** CollapseMerger: the runs drawn and the features left as they were *)

Lemma lookup_middle {A : Type} (pre : list A) (x : A) (post : list A) :
  (pre ++ x :: post) !! List.length pre = Some x.
Proof.
  rewrite lookup_app_r by lia. rewrite Nat.sub_diag. reflexivity.
Qed.

Lemma insert_middle {A : Type} (pre : list A) (x y : A) (post : list A) :
  <[List.length pre := y]> (pre ++ x :: post) = pre ++ y :: post.
Proof.
  rewrite insert_app_r_alt by lia. rewrite Nat.sub_diag. reflexivity.
Qed.

(** Sorting moves the features and changes none: the array of the pass
    holds the features of the lanes, each as often as the lanes do. *)
Lemma sort_insert_perm (g : Glyph.t) (l : list Glyph.t) :
  Track.sort_insert g l ≡ₚ g :: l.
Proof.
  induction l as [|h l IH]; simpl; [reflexivity|].
  destruct (ltb (Glyph.position g) (Glyph.position h)); [reflexivity|].
  rewrite IH. apply Permutation_swap.
Qed.

Lemma sort_by_position_perm (l : list Glyph.t) :
  Track.sort_by_position l ≡ₚ l.
Proof.
  unfold Track.sort_by_position.
  assert (H : forall acc,
             foldl (fun acc g => Track.sort_insert g acc) acc l ≡ₚ acc ++ l).
  { induction l as [|g l IH]; intros acc; simpl.
    - rewrite app_nil_r. reflexivity.
    - rewrite IH, sort_insert_perm. apply Permutation_middle. }
  apply (H []).
Qed.

(** The inner loop, index by index, is [absorb] on the rest of the array. *)
Lemma merge_loop_absorb (rest : list Glyph.t) :
  forall (pre : list Glyph.t) (cur : Glyph.t) (mid : list Glyph.t),
    Track.merge_loop (List.length rest) (List.length pre)
      (List.length pre + 1 + List.length mid) (pre ++ cur :: mid ++ rest)
    = (pre ++ (absorb cur rest).1 :: mid ++ rest,
       (List.length pre + 1 + List.length mid + (absorb cur rest).2)%nat).
Proof.
  induction rest as [|fm rest IH]; intros pre cur mid.
  - simpl. rewrite Nat.add_0_r. reflexivity.
  - cbn [List.length Track.merge_loop absorb].
    rewrite lookup_middle.
    assert (Hm : (pre ++ cur :: mid ++ fm :: rest)
                   !! (List.length pre + 1 + List.length mid)%nat = Some fm).
    { replace (pre ++ cur :: mid ++ fm :: rest)
        with ((pre ++ cur :: mid) ++ fm :: rest)
        by (rewrite <- app_assoc; reflexivity).
      replace (List.length pre + 1 + List.length mid)%nat
        with (List.length (pre ++ cur :: mid))
        by (rewrite length_app; simpl; lia).
      apply lookup_middle. }
    rewrite Hm.
    destruct (geb (Glyph.getEnd cur) (Glyph.position fm)) eqn:E.
    + rewrite insert_middle. fold (merged_with cur fm).
      specialize (IH pre (merged_with cur fm) (mid ++ [fm])).
      rewrite length_app in IH. simpl in IH.
      replace (List.length pre + 1 + (List.length mid + 1))%nat
        with (S (List.length pre + 1 + List.length mid)) in IH by lia.
      rewrite <- app_assoc in IH. simpl in IH. rewrite IH.
      destruct (absorb (merged_with cur fm) rest) as [g k]. simpl.
      f_equal. lia.
    + simpl. rewrite Nat.add_0_r. reflexivity.
Qed.

(** The inner loop changes the length and the name of [features[j]] and
    nothing else of it. *)
Lemma absorb_fields (rest : list Glyph.t) :
  forall cur : Glyph.t,
    exists (l : Q) (n : string),
      (absorb cur rest).1 = Glyph.set_name n (Glyph.set_length l cur).
Proof.
  induction rest as [|fm rest IH]; intros cur.
  - exists (Glyph.length cur), (Glyph.name cur). destruct cur; reflexivity.
  - simpl. destruct (geb (Glyph.getEnd cur) (Glyph.position fm)).
    + destruct (IH (merged_with cur fm)) as (l & n & H).
      destruct (absorb (merged_with cur fm) rest) as [g k]. simpl in *.
      exists l, n. rewrite H. destruct cur; reflexivity.
    + exists (Glyph.length cur), (Glyph.name cur). destruct cur; reflexivity.
Qed.

(** Putting the length and the name back restores the glyph. *)
Lemma restore_absorb (cur : Glyph.t) (rest : list Glyph.t) :
  Glyph.set_name (Glyph.name cur)
    (Glyph.set_length (Glyph.length cur) (absorb cur rest).1) = cur.
Proof.
  destruct (absorb_fields rest cur) as (l & n & ->).
  destruct cur; reflexivity.
Qed.

Lemma Math_max_proper (a a' b : Q) :
  a == a' -> Math_max a b == Math_max a' b.
Proof.
  intros H. unfold Math_max.
  rewrite (Qleb_comp a a' H b b (Qeq_refl b)).
  destruct (Qle_bool a' b); [reflexivity | exact H].
Qed.

(** The glyph the inner loop leaves is the run the scan of the
    specification closes, and the scan goes on from where the loop
    stopped. *)
Lemma absorb_runs (rest : list Glyph.t) :
  forall (cur : Glyph.t) (r : Run),
    shows cur r ->
    ((absorb cur rest).2 <= List.length rest)%nat
    /\ exists r',
         shows (absorb cur rest).1 r'
         /\ merge_runs r rest
            = r' :: collapse_runs (drop (absorb cur rest).2 rest).
Proof.
  induction rest as [|fm rest IH]; intros cur r Hs.
  - simpl. split; [lia|]. exists r. split; [exact Hs | reflexivity].
  - destruct Hs as (Hp & He & Hn). cbn [absorb merge_runs].
    assert (Ht : geb (Glyph.getEnd cur) (Glyph.position fm)
                 = leb (Glyph.position fm) (runEnd r)).
    { unfold geb, leb. apply Qleb_comp; [reflexivity | exact He]. }
    rewrite Ht. destruct (leb (Glyph.position fm) (runEnd r)).
    + assert (Hs' : shows (merged_with cur fm) (extend_run r fm)).
      { unfold shows, merged_with, extend_run, Glyph.getEnd in *. simpl.
        split; [exact Hp|]. split; [|reflexivity].
        rewrite <- (Math_max_proper _ _ _ He). ring. }
      destruct (IH _ _ Hs') as (Hk & r' & Hr' & Hm).
      destruct (absorb (merged_with cur fm) rest) as [g k]. simpl in *.
      split; [lia|]. exists r'. split; [exact Hr' | exact Hm].
    + simpl. split; [lia|]. exists r. split; [|reflexivity].
      split; [exact Hp|]. split; [exact He | exact Hn].
Qed.

(** The outer loop, started at the end of [pre] with enough fuel, draws the
    runs of the rest of the array and leaves the array as it found it. *)
Lemma collapse_loop_runs (fuel : nat) :
  forall (rest pre drawn : list Glyph.t),
    (List.length rest <= fuel)%nat ->
    exists out,
      Track.collapse_loop fuel (List.length pre) (pre ++ rest) drawn
      = Some (pre ++ rest, drawn ++ out)
      /\ Forall2 shows out (collapse_runs rest).
Proof.
  induction fuel as [|fuel IH]; intros rest pre drawn Hfuel.
  - destruct rest as [|fj rest]; [|simpl in Hfuel; lia].
    exists []. rewrite !app_nil_r. simpl.
    rewrite lookup_ge_None_2 by lia. split; [reflexivity | constructor].
  - destruct rest as [|fj rest].
    + exists []. rewrite !app_nil_r. simpl.
      rewrite lookup_ge_None_2 by lia. split; [reflexivity | constructor].
    + cbn [Track.collapse_loop]. rewrite lookup_middle.
      replace (List.length (pre ++ fj :: rest) - S (List.length pre))%nat
        with (List.length rest) by (rewrite length_app; simpl; lia).
      pose proof (merge_loop_absorb rest pre fj []) as Hml.
      simpl in Hml. rewrite Nat.add_0_r in Hml.
      replace (List.length pre + 1)%nat with (S (List.length pre)) in Hml
        by lia.
      rewrite Hml. clear Hml.
      rewrite lookup_middle. cbn [default from_option]. unfold id.
      rewrite insert_middle, restore_absorb.
      assert (Hsh : shows fj (run_of fj)).
      { split; [reflexivity|]. split; reflexivity. }
      destruct (absorb_runs rest fj (run_of fj) Hsh) as (Hk & r' & Hr' & Hm).
      set (g := (absorb fj rest).1) in *.
      set (k := (absorb fj rest).2) in *.
      specialize (IH (drop k rest) (pre ++ fj :: take k rest)
                     (drawn ++ [g])).
      assert (Hlen : List.length (pre ++ fj :: take k rest)
                     = (S (List.length pre) + k)%nat).
      { rewrite length_app. simpl. rewrite length_take. lia. }
      rewrite Hlen in IH.
      replace ((pre ++ fj :: take k rest) ++ drop k rest)
        with (pre ++ fj :: rest) in IH
        by (rewrite <- app_assoc; simpl; rewrite take_drop; reflexivity).
      destruct IH as (out & Hrun & Hout).
      { rewrite length_drop. simpl in Hfuel. lia. }
      exists (g :: out). split.
      * rewrite Hrun. rewrite <- app_assoc. reflexivity.
      * cbn [collapse_runs]. rewrite Hm. constructor; [exact Hr' | exact Hout].
Qed.

(** C6: the collapse pass over the features of a track, sorted by
    position, always completes; it draws exactly the runs of the scan the
    specification describes (a feature starting at or before the end of the
    current run is merged into it, the end of the run becoming the larger of
    the two ends and its label blank; a feature starting after it starts a
    new run); and it leaves every feature as it was, position, length and
    name included.  On the features [0,10), [5,15) and [20,25) it draws two
    runs: [0,15) with a blank label, and [20,25) with its label. *)
Theorem draw_collapse_runs :
  (forall track : Track.t,
      exists drawn,
        Track.draw_collapse track = Some (collapse_input track, drawn)
        /\ Forall2 shows drawn (collapse_runs (collapse_input track)))
  /\ Track.draw_collapse (Track.mk [Lane.mk three_features] None)
     = Some (three_features, [rect 1 0 15 ""; rect 3 20 5 "c"])
  /\ collapse_runs three_features = [mkRun 0 15 ""; mkRun 20 25 "c"].
Proof.
  split; [|split; reflexivity].
  intros track. unfold Track.draw_collapse. fold (collapse_input track).
  destruct (collapse_loop_runs (List.length (collapse_input track))
              (collapse_input track) [] [] (Nat.le_refl _))
    as (out & Hrun & Hout).
  exists out. split; [exact Hrun | exact Hout].
Qed.


(** ** TickPlanner: the major tick interval *)

Lemma pow10_S (n : nat) : pow10 (S n) = (10 * pow10 n)%Z.
Proof.
  unfold pow10. rewrite Nat2Z.inj_succ, Z.pow_succ_r by lia. reflexivity.
Qed.

Lemma pow10_pos (n : nat) : (0 < pow10 n)%Z.
Proof. unfold pow10. apply Z.pow_pos_nonneg; lia. Qed.

Lemma pow10_le (a b : nat) : (a <= b)%nat -> (pow10 a <= pow10 b)%Z.
Proof. intros H. unfold pow10. apply Z.pow_le_mono_r; lia. Qed.

(** The decimal notation of a positive number has [n + 1] digits exactly
    when the number lies between [10^n] and [10^(n+1)]. *)
Lemma pretty_N_go_digits (x : N) :
  forall s, (0 < x)%N ->
  exists n : nat,
    String.length (pretty_N_go x s) = (S n + String.length s)%nat
    /\ (pow10 n <= Z.of_N x < pow10 (S n))%Z.
Proof.
  induction (N.lt_wf_0 x) as [x _ IH]. intros s Hx.
  rewrite pretty_N_go_step by exact Hx.
  pose proof (Z.div_mod (Z.of_N x) 10 ltac:(lia)) as Hdm.
  pose proof (Z.mod_pos_bound (Z.of_N x) 10 ltac:(lia)) as Hmb.
  destruct (decide (x < 10)%N) as [Hlt|Hge].
  - rewrite N.div_small by exact Hlt. rewrite pretty_N_go_0.
    exists 0%nat. split; [reflexivity|]. change (pow10 0) with 1%Z.
    change (pow10 1) with 10%Z. lia.
  - destruct (IH (x `div` 10)%N)
      with (s := String (pretty_N_char (x `mod` 10)) s)
      as (n & Hlen & Hb).
    + apply N.div_lt; lia.
    + apply N.div_str_pos. lia.
    + exists (S n). rewrite Hlen. split; [simpl; lia|].
      rewrite N2Z.inj_div in Hb. change (Z.of_N 10) with 10%Z in Hb.
      rewrite !pow10_S in *. lia.
Qed.

Lemma pretty_Z_digits (z : Z) :
  (1 <= z)%Z ->
  exists n : nat,
    String.length (pretty z) = S n /\ (pow10 n <= z < pow10 (S n))%Z.
Proof.
  intros Hz. destruct z as [|p|p]; try lia.
  destruct (pretty_N_go_digits (N.pos p) "" ltac:(lia)) as (n & Hlen & Hb).
  exists n. split; [|exact Hb].
  simpl in Hlen. rewrite Nat.add_0_r in Hlen. exact Hlen.
Qed.

Lemma pow10_unique (a b : nat) (z : Z) :
  (pow10 a <= z < pow10 (S a))%Z -> (pow10 b <= z < pow10 (S b))%Z -> a = b.
Proof.
  intros Ha Hb.
  destruct (Nat.lt_trichotomy a b) as [H|[H|H]]; [|exact H|].
  - pose proof (pow10_le (S a) b ltac:(lia)). lia.
  - pose proof (pow10_le (S b) a ltac:(lia)). lia.
Qed.

Lemma Math_pow_10 (n : nat) : Math_pow 10 (Z.of_nat n) == inject_Z (pow10 n).
Proof.
  unfold Math_pow, pow10. rewrite Zpower_Qpower by lia. reflexivity.
Qed.

(** [determineMajorTick] on a chart whose scale is set. *)
Lemma determineMajorTick_unfold (m : string -> Q) (c : Scribl.t)
  (mn mx : Q) :
  Scribl.scale_min c = Some mn -> Scribl.scale_max c = Some mx ->
  Scribl.determineMajorTick m c
  = Some (Scribl.set_tick_major_size
            (major_of (irregularTick_of m c mn mx)) c,
          snap_of (major_of (irregularTick_of m c mn mx))).
Proof.
  intros Hmn Hmx. unfold Scribl.determineMajorTick. rewrite Hmn, Hmx.
  reflexivity.
Qed.

Lemma Qceiling_unique (x : Q) (k : Z) :
  inject_Z (k - 1) < x -> x <= inject_Z k -> Qceiling x = k.
Proof.
  intros Hlo Hhi.
  pose proof (Qle_ceiling x) as Hc. pose proof (Qceiling_lt x) as Hd.
  assert (H1 : inject_Z (Qceiling x - 1) < inject_Z k) by lra.
  assert (H2 : inject_Z (k - 1) < inject_Z (Qceiling x)) by lra.
  rewrite <- Zlt_Qlt in H1, H2. lia.
Qed.

(** The value stored in [tick.major.size] is [k * 10^n] with [k] between 1
    and 10, where [10^n <= irregularTick < 10^(n+1)], or [n = 0] below 1. *)
Lemma major_of_cases (x : Q) :
  0 < x ->
  exists (n : nat) (k : Z),
    major_of x == inject_Z (k * pow10 n)
    /\ (1 <= k <= 10)%Z
    /\ k = Qceiling (x / inject_Z (pow10 n))
    /\ ((x < 1 /\ n = 0%nat)
        \/ (inject_Z (pow10 n) <= x /\ x < inject_Z (pow10 (S n)))).
Proof.
  intros Hx.
  pose proof (Qfloor_le x) as Hf. pose proof (Qlt_floor x) as Hg.
  assert (Ht : (0 <= Qfloor x)%Z).
  { assert (H : inject_Z (-1) < inject_Z (Qfloor x)).
    { rewrite inject_Z_plus in Hg. change (inject_Z 1) with 1 in Hg.
      change (inject_Z (-1)) with (-1 # 1). lra. }
    rewrite <- Zlt_Qlt in H. lia. }
  unfold major_of, baseNum_of, parseInt.
  rewrite trunc_nonneg by lra.
  destruct (Z.eq_dec (Qfloor x) 0%Z) as [H0|H0].
  - rewrite H0 in *. exists 0%nat, 1%Z.
    change (String.length (pretty 0%Z)) with 1%nat.
    change (Math_pow 10 (Z.of_nat 1 - 1)) with 1.
    change (inject_Z (pow10 0)) with 1.
    change (inject_Z (0 + 1)) with 1 in Hg. change (inject_Z 0) with 0 in Hf.
    assert (Hc : Qceiling (x / 1) = 1%Z).
    { apply Qceiling_unique.
      - change (inject_Z (1 - 1)) with 0. apply Qlt_shift_div_l; lra.
      - change (inject_Z 1) with 1. apply Qle_shift_div_r; lra. }
    unfold Math_ceil. rewrite Hc. split; [reflexivity|]. split; [lia|].
    split; [reflexivity|]. left. split; [lra | reflexivity].
  - destruct (pretty_Z_digits (Qfloor x) ltac:(lia)) as (n & Hlen & Hb).
    rewrite Hlen.
    replace (Z.of_nat (S n) - 1)%Z with (Z.of_nat n) by lia.
    pose proof (pow10_pos n) as Hp.
    assert (HP : 0 < inject_Z (pow10 n)).
    { change 0 with (inject_Z 0). rewrite <- Zlt_Qlt. exact Hp. }
    assert (Hlo : inject_Z (pow10 n) <= x).
    { apply Qle_trans with (inject_Z (Qfloor x)); [|exact Hf].
      rewrite <- Zle_Qle. lia. }
    assert (Hhi : x < inject_Z (pow10 (S n))).
    { apply Qlt_le_trans with (inject_Z (Qfloor x + 1)); [exact Hg|].
      rewrite <- Zle_Qle. lia. }
    assert (Hq : x / Math_pow 10 (Z.of_nat n) == x / inject_Z (pow10 n)).
    { rewrite Math_pow_10. reflexivity. }
    set (k := Qceiling (x / inject_Z (pow10 n))).
    exists n, k. split; [|split; [|split]].
    + unfold Math_ceil. rewrite (Qceiling_comp _ _ Hq). fold k.
      rewrite Math_pow_10, inject_Z_mult. reflexivity.
    + pose proof (Qle_ceiling (x / inject_Z (pow10 n))) as Hc.
      pose proof (Qceiling_lt (x / inject_Z (pow10 n))) as Hd.
      fold k in Hc, Hd.
      assert (H1 : 1 <= x / inject_Z (pow10 n)).
      { apply Qle_shift_div_l; lra. }
      assert (H2 : x / inject_Z (pow10 n) < 10).
      { apply Qlt_shift_div_r; [exact HP|].
        rewrite pow10_S, inject_Z_mult in Hhi. exact Hhi. }
      assert (H3 : inject_Z 0 < inject_Z k)
        by (change (inject_Z 0) with 0; lra).
      assert (H4 : inject_Z (k - 1) < inject_Z 10)
        by (change (inject_Z 10) with 10; lra).
      rewrite <- Zlt_Qlt in H3, H4. lia.
    + reflexivity.
    + right. split; assumption.
Qed.

Lemma snap_digit_proper (a b : Q) : a == b -> snap_digit a == snap_digit b.
Proof.
  intros H. unfold snap_digit, gtb, leb, ltb.
  rewrite (Qleb_comp a b H (1 # 10) (1 # 10) (Qeq_refl _)).
  rewrite (Qleb_comp a b H (1 # 2) (1 # 2) (Qeq_refl _)).
  destruct (negb (Qle_bool b (1 # 10)) && Qle_bool b (1 # 2));
    [reflexivity|].
  destruct (negb (Qle_bool b (1 # 2))); [reflexivity | exact H].
Qed.

Lemma snap_digit_tenths (k : Z) :
  (1 <= k <= 9)%Z ->
  snap_digit (inject_Z k / 10)
  == (if (k =? 1)%Z then 1 # 10 else if (k <=? 5)%Z then 1 # 2 else 1).
Proof.
  intros Hk.
  assert (H : (k = 1 \/ k = 2 \/ k = 3 \/ k = 4 \/ k = 5 \/ k = 6 \/ k = 7
               \/ k = 8 \/ k = 9)%Z) by lia.
  repeat (destruct H as [->|H]; [reflexivity|]). subst k. reflexivity.
Qed.

Lemma pretty_length_pow10 (z : Z) (n : nat) :
  (pow10 n <= z < pow10 (S n))%Z -> String.length (pretty z) = S n.
Proof.
  intros Hz. pose proof (pow10_pos n).
  destruct (pretty_Z_digits z ltac:(lia)) as (n' & Hlen & Hb).
  rewrite Hlen. f_equal. exact (pow10_unique n' n z Hb Hz).
Qed.

(** The snap of [k * 10^n]: [10^n] for [k = 1], [5 * 10^n] up to [k = 5],
    and [10^(n+1)] above. *)
Lemma snap_of_cases (M : Q) (n : nat) (k : Z) :
  (1 <= k <= 10)%Z -> M == inject_Z (k * pow10 n) ->
  snap_of M
  == inject_Z (if (k =? 1)%Z then pow10 n
               else if (k <=? 5)%Z then 5 * pow10 n else pow10 (S n)).
Proof.
  intros Hk HM. pose proof (pow10_pos n) as Hp.
  assert (HP : 0 < inject_Z (pow10 n)).
  { change 0 with (inject_Z 0). rewrite <- Zlt_Qlt. exact Hp. }
  unfold snap_of. rewrite (toString_proper _ _ HM), toString_inject_Z.
  destruct (Z.eq_dec k 10%Z) as [->|Hk10].
  - rewrite (pretty_length_pow10 _ (S n)) by (rewrite !pow10_S; lia).
    assert (Hpl : Math_pow 10 (Z.of_nat (S (S n)))
                  == 100 * inject_Z (pow10 n)).
    { rewrite Math_pow_10, !pow10_S, !inject_Z_mult. ring. }
    assert (Hfd : M / Math_pow 10 (Z.of_nat (S (S n))) == inject_Z 1 / 10).
    { rewrite Hpl, HM, inject_Z_mult. field. lra. }
    rewrite (snap_digit_proper _ _ Hfd), Hpl.
    rewrite (snap_digit_tenths 1) by lia.
    change (10 =? 1)%Z with false. change (10 <=? 5)%Z with false.
    change (1 =? 1)%Z with true. cbv iota.
    rewrite pow10_S, inject_Z_mult. ring.
  - rewrite (pretty_length_pow10 _ n) by (rewrite !pow10_S; nia).
    assert (Hpl : Math_pow 10 (Z.of_nat (S n)) == 10 * inject_Z (pow10 n)).
    { rewrite Math_pow_10, !pow10_S, !inject_Z_mult. ring. }
    assert (Hfd : M / Math_pow 10 (Z.of_nat (S n)) == inject_Z k / 10).
    { rewrite Hpl, HM, inject_Z_mult. field. lra. }
    rewrite (snap_digit_proper _ _ Hfd), Hpl.
    rewrite (snap_digit_tenths k) by lia.
    destruct (k =? 1)%Z; [ring|].
    destruct (k <=? 5)%Z.
    + rewrite inject_Z_mult. ring.
    + rewrite pow10_S, inject_Z_mult. ring.
Qed.

Lemma irregularTick_pos (m : string -> Q) (c : Scribl.t) (mn mx : Q) :
  mn < mx -> 0 < Scribl.width c ->
  0 < m (Scribl.text_of (Scribl.getTickTextDecimalPlaces c mx))
      + Scribl.scale_font_buffer c ->
  0 < irregularTick_of m c mn mx.
Proof.
  intros Hd Hw Hl. unfold irregularTick_of.
  apply Qlt_shift_div_l; [apply Qlt_shift_div_l; lra | lra].
Qed.

(** C5, as the code has it: on a chart whose scale is set, with
    [max > min], a positive width and a positive label width plus buffer,
    [determineMajorTick] returns a value of one of two forms, a full decade
    [10^n] or a half decade [5 * 10^n]; being a function of the chart and of
    the estimator, it returns the same value for the same inputs.  For the
    domain [0, 10000], the width 760 and the buffer 10, the value is 1000,
    5000 or 10000 when the estimated width of the label is above 28 pixels
    and at most 750. *)
Theorem determineMajorTick_canonical (measureText : string -> Q)
  (c : Scribl.t) (mn mx : Q) :
  Scribl.scale_min c = Some mn -> Scribl.scale_max c = Some mx ->
  mn < mx -> 0 < Scribl.width c ->
  0 < measureText (Scribl.text_of (Scribl.getTickTextDecimalPlaces c mx))
      + Scribl.scale_font_buffer c ->
  exists c1 v,
    Scribl.determineMajorTick measureText c = Some (c1, v)
    /\ (exists n : nat,
           v == inject_Z (10 ^ Z.of_nat n)
           \/ v == 5 * inject_Z (10 ^ Z.of_nat n))
    /\ (mn == 0 -> mx == 10000 -> Scribl.width c == 760 ->
        Scribl.scale_font_buffer c == 10 ->
        28 < measureText
               (Scribl.text_of (Scribl.getTickTextDecimalPlaces c mx)) ->
        measureText (Scribl.text_of (Scribl.getTickTextDecimalPlaces c mx))
        <= 750 ->
        v == 1000 \/ v == 5000 \/ v == 10000).
Proof.
  intros Hmn Hmx Hd Hw Hl.
  rewrite (determineMajorTick_unfold measureText c mn mx Hmn Hmx).
  pose proof (irregularTick_pos measureText c mn mx Hd Hw Hl) as Hx.
  destruct (major_of_cases _ Hx) as (n & k & HM & Hk & Hkc & Hcase).
  pose proof (snap_of_cases _ n k Hk HM) as Hsnap.
  do 2 eexists. split; [reflexivity|]. split.
  - destruct (k =? 1)%Z; [exists n; left; exact Hsnap|].
    destruct (k <=? 5)%Z.
    + exists n. right. rewrite Hsnap, inject_Z_mult. reflexivity.
    + exists (S n). left. exact Hsnap.
  - intros Hmn0 Hmx0 HW Hbuf Hlo Hhi.
    set (lw := measureText
                 (Scribl.text_of (Scribl.getTickTextDecimalPlaces c mx)))
      in *.
    set (x := irregularTick_of measureText c mn mx) in *.
    assert (Hxv : x == (lw + 10) * (10000 # 760)).
    { unfold x, irregularTick_of. fold lw. rewrite Hmn0, Hmx0, HW, Hbuf.
      field. lra. }
    destruct Hcase as [[Hx1 _]|[Hxlo Hxhi]]; [lra|].
    destruct n as [|[|[|[|[|n]]]]].
    + change (inject_Z (pow10 1)) with 10 in Hxhi. lra.
    + change (inject_Z (pow10 2)) with 100 in Hxhi. lra.
    + change (inject_Z (pow10 2)) with 100 in *.
      change (pow10 3) with 1000%Z in *. change (pow10 2) with 100%Z in *.
      assert (H5 : (5 < k)%Z).
      { pose proof (Qle_ceiling (x / 100)) as Hc. rewrite <- Hkc in Hc.
        assert (H : 5 < x / 100) by (apply Qlt_shift_div_l; lra).
        assert (H' : inject_Z 5 < inject_Z k)
          by (change (inject_Z 5) with 5; lra).
        rewrite <- Zlt_Qlt in H'. exact H'. }
      left. rewrite Hsnap.
      destruct (k =? 1)%Z eqn:E1; [lia|].
      destruct (k <=? 5)%Z eqn:E5; [lia|]. reflexivity.
    + change (pow10 3) with 1000%Z in *. change (pow10 4) with 10000%Z in *.
      rewrite Hsnap. destruct (k =? 1)%Z; [left; reflexivity|].
      destruct (k <=? 5)%Z; [right; left; reflexivity|].
      right; right; reflexivity.
    + change (pow10 4) with 10000%Z in *.
      change (pow10 5) with 100000%Z in *.
      change (inject_Z 10000) with 10000 in *.
      assert (Hk1 : k = 1%Z).
      { rewrite Hkc. apply Qceiling_unique.
        - change (inject_Z (1 - 1)) with 0. apply Qlt_shift_div_l; lra.
        - change (inject_Z 1) with 1. apply Qle_shift_div_r; lra. }
      right. right. rewrite Hsnap, Hk1. reflexivity.
    + pose proof (pow10_le 5 (S (S (S (S (S n))))) ltac:(lia)) as H5.
      change (pow10 5) with 100000%Z in H5.
      assert (H : inject_Z 100000 <= inject_Z (pow10 (S (S (S (S (S n)))))))
        by (rewrite <- Zle_Qle; exact H5).
      change (inject_Z 100000) with 100000 in H. lra.
Qed.

Lemma determineMajorTick_canonical_witness :
  Scribl.scale_min chart_10k = Some 0
  /\ Scribl.scale_max chart_10k = Some 10000
  /\ 0 < 10000 /\ 0 < Scribl.width chart_10k
  /\ 0 < fixed_width 41
            (Scribl.text_of
               (Scribl.getTickTextDecimalPlaces chart_10k 10000))
          + Scribl.scale_font_buffer chart_10k
  /\ exists c1 v,
       Scribl.determineMajorTick (fixed_width 41) chart_10k = Some (c1, v)
       /\ (exists n : nat,
              v == inject_Z (10 ^ Z.of_nat n)
              \/ v == 5 * inject_Z (10 ^ Z.of_nat n))
       /\ (0 == 0 -> 10000 == 10000 -> Scribl.width chart_10k == 760 ->
           Scribl.scale_font_buffer chart_10k == 10 ->
           28 < fixed_width 41
                  (Scribl.text_of
                     (Scribl.getTickTextDecimalPlaces chart_10k 10000)) ->
           fixed_width 41
             (Scribl.text_of
                (Scribl.getTickTextDecimalPlaces chart_10k 10000))
           <= 750 ->
           v == 1000 \/ v == 5000 \/ v == 10000).
Proof.
  split; [reflexivity|]. split; [reflexivity|]. split; [reflexivity|].
  split; [reflexivity|]. split; [reflexivity|].
  apply (determineMajorTick_canonical (fixed_width 41) chart_10k 0 10000);
    reflexivity.
Defined.

(** C5, as the specification words it, fails: with the estimator that
    counts five pixels a character, the label of 10000 is 25 pixels wide
    and the major tick interval for the domain [0, 10000], the width 760
    and the buffer 10 is 500, which is none of 1000, 5000 and 10000. *)
Lemma determineMajorTick_five_per_char :
  exists c1 v,
    Scribl.determineMajorTick five_per_char chart_10k = Some (c1, v)
    /\ v == 500
    /\ ~ (v == 1000 \/ v == 5000 \/ v == 10000).
Proof.
  do 2 eexists. split; [reflexivity|]. split; [reflexivity|].
  intros [H|[H|H]]; vm_compute in H; discriminate H.
Qed.

(** ** LaneAllocator: first fit, and what a call leaves in place *)

Lemma track_addFeature_lanes (c : Scribl.t) (track : Track.t)
  (feature : Glyph.t) :
  Track.lanes (track_addFeature c track feature)
  = match Track.find_lane Scribl.pixelsToNts c feature
            (Track.lanes track) 0 with
    | Some j =>
        alter (fun lane => Lane.addFeature lane feature) j
              (Track.lanes track)
    | None => Track.lanes track ++ [Lane.mk [feature]]
    end.
Proof.
  unfold track_addFeature, Track.addFeature.
  destruct (Track.find_lane Scribl.pixelsToNts c feature
              (Track.lanes track) 0); [reflexivity|].
  unfold Track.addLane. cbn [fst Track.lanes Track.set_lanes].
  rewrite alter_last. reflexivity.
Qed.

Lemma concat_alter_addFeature (feature : Glyph.t) (ls : list Lane.t)
  (j : nat) :
  (j < List.length ls)%nat ->
  concat (Lane.features
            <$> alter (fun lane => Lane.addFeature lane feature) j ls)
  ≡ₚ concat (Lane.features <$> ls) ++ [feature].
Proof.
  revert j. induction ls as [|lane ls IH]; intros j Hj; simpl in Hj.
  - lia.
  - destruct j as [|j].
    + cbn [alter list_alter]. rewrite !fmap_cons. cbn [concat].
      cbn [Lane.addFeature Lane.features].
      rewrite <- !app_assoc. apply Permutation_app_head.
      apply Permutation_app_comm.
    + cbn [alter list_alter]. rewrite !fmap_cons. cbn [concat].
      change (list_alter ?f j ls) with (alter f j ls).
      rewrite IH by lia. rewrite app_assoc. reflexivity.
Qed.

(** The features of a track after [addFeature] are those it had and the new
    one. *)
Lemma track_features_addFeature (c : Scribl.t) (track : Track.t)
  (feature : Glyph.t) :
  track_features (track_addFeature c track feature)
  ≡ₚ track_features track ++ [feature].
Proof.
  unfold track_features. rewrite track_addFeature_lanes.
  destruct (Track.find_lane Scribl.pixelsToNts c feature
              (Track.lanes track) 0) as [j|] eqn:E.
  - apply find_lane_Some in E as (i & lane & -> & Hi & _).
    apply concat_alter_addFeature. apply lookup_lt_Some in Hi. exact Hi.
  - rewrite fmap_app, concat_app. reflexivity.
Qed.

Lemma add_all_snoc (c : Scribl.t) (fs : list Glyph.t) (g : Glyph.t) :
  add_all c (fs ++ [g]) = track_addFeature c (add_all c fs) g.
Proof. unfold add_all. rewrite foldl_app. reflexivity. Qed.

Lemma track_features_add_all (c : Scribl.t) (fs : list Glyph.t) :
  track_features (add_all c fs) ≡ₚ fs.
Proof.
  induction fs as [|g fs IH] using rev_ind; [reflexivity|].
  rewrite add_all_snoc, track_features_addFeature, IH. reflexivity.
Qed.

(** X2: [Track.addFeature] only appends.  No lane is removed or reordered
    and at most one is added; every lane keeps its features, in order, as a
    prefix of what it holds afterwards; the draw style is untouched; and the
    features of the track afterwards are the ones it had, and the new one
    once. *)
Theorem addFeature_only_appends (c : Scribl.t) (track : Track.t)
  (feature : Glyph.t) :
  (List.length (Track.lanes track)
   <= List.length (Track.lanes (track_addFeature c track feature))
   <= S (List.length (Track.lanes track)))%nat
  /\ (forall (i : nat) (lane : Lane.t),
         Track.lanes track !! i = Some lane ->
         exists lane',
           Track.lanes (track_addFeature c track feature) !! i = Some lane'
           /\ Lane.features lane `prefix_of` Lane.features lane')
  /\ Track.drawStyle (track_addFeature c track feature)
     = Track.drawStyle track
  /\ track_features (track_addFeature c track feature)
     ≡ₚ track_features track ++ [feature].
Proof.
  split; [|split; [|split]].
  - rewrite track_addFeature_lanes.
    destruct (Track.find_lane Scribl.pixelsToNts c feature
                (Track.lanes track) 0).
    + rewrite length_alter. lia.
    + rewrite length_app. simpl. lia.
  - intros i lane Hi. rewrite track_addFeature_lanes.
    destruct (Track.find_lane Scribl.pixelsToNts c feature
                (Track.lanes track) 0) as [j|].
    + destruct (decide (i = j)) as [->|Hne].
      * exists (Lane.addFeature lane feature).
        rewrite list_lookup_alter_eq, Hi. split; [reflexivity|].
        simpl. apply prefix_app_r. reflexivity.
      * exists lane. rewrite list_lookup_alter_ne by congruence.
        split; [exact Hi | reflexivity].
    + exists lane.
      rewrite lookup_app_l by (apply lookup_lt_Some in Hi; exact Hi).
      split; [exact Hi | reflexivity].
  - unfold track_addFeature, Track.addFeature.
    destruct (Track.find_lane Scribl.pixelsToNts c feature
                (Track.lanes track) 0); reflexivity.
  - apply track_features_addFeature.
Qed.

(** X3: on a chart whose scale is not set, the lane test is a comparison
    with [NaN] and never holds: every feature added opens a lane of its
    own. *)
Theorem add_all_without_scale (c : Scribl.t) (fs : list Glyph.t) :
  Scribl.scale_max c = None \/ Scribl.scale_min c = None ->
  Track.lanes (add_all c fs) = (fun f => Lane.mk [f]) <$> fs.
Proof.
  intros Hnan.
  assert (Hr : Scribl.pixelsToNts c None = None).
  { unfold Scribl.pixelsToNts. destruct Hnan as [-> | ->];
      [reflexivity|]. destruct (Scribl.scale_max c); reflexivity. }
  assert (Hfind : forall feature ls k,
             Track.find_lane Scribl.pixelsToNts c feature ls k = None).
  { intros feature ls. induction ls as [|lane ls IH]; intros k;
      [reflexivity|]. simpl. unfold Track.accepts. rewrite Hr.
    destruct (last (Lane.features lane)); apply IH. }
  induction fs as [|g fs IH] using rev_ind; [reflexivity|].
  rewrite add_all_snoc, track_addFeature_lanes, Hfind, IH, fmap_app.
  reflexivity.
Qed.

Lemma add_all_without_scale_witness :
  (Scribl.scale_max (Scribl.init 760) = None
   \/ Scribl.scale_min (Scribl.init 760) = None)
  /\ Track.lanes
       (add_all (Scribl.init 760) [rect 1 0 10 "a"; rect 2 5000 10 "b"])
     = (fun f => Lane.mk [f]) <$> [rect 1 0 10 "a"; rect 2 5000 10 "b"].
Proof.
  split; [left; reflexivity|].
  apply (add_all_without_scale (Scribl.init 760)). left. reflexivity.
Defined.

(** ** LaneAllocator: spacing, in coordinates and on screen *)




(** X5: [getPixelPositionX] lays the domain out on the width of the chart:
    with [max > min] and a positive width, a top-level glyph at [min] is at
    the offset, one at [max] is at the offset plus the width, and glyphs
    keep their order. *)
Theorem getPixelPositionX_layout (c : Scribl.t) (mn mx : Q)
  (chart_offset : option Q) :
  Scribl.scale_min c = Some mn -> Scribl.scale_max c = Some mx ->
  mn < mx -> 0 < Scribl.width c ->
  exists offset : Q,
    (forall g, exists x,
        GlyphPixels.getPixelPositionX c chart_offset None g = Some x
        /\ x == Scribl.width c * (Glyph.position g - mn) / (mx - mn)
                + offset)
    /\ (forall g x, Glyph.position g == mn ->
          GlyphPixels.getPixelPositionX c chart_offset None g = Some x ->
          x == offset)
    /\ (forall g x, Glyph.position g == mx ->
          GlyphPixels.getPixelPositionX c chart_offset None g = Some x ->
          x == offset + Scribl.width c)
    /\ (forall f g xf xg,
          Glyph.position f <= Glyph.position g ->
          GlyphPixels.getPixelPositionX c chart_offset None f = Some xf ->
          GlyphPixels.getPixelPositionX c chart_offset None g = Some xg ->
          xf <= xg).
Proof.
  intros Hmn Hmx Hd Hw.
  set (offset := match chart_offset with
                 | Some o => inject_Z (parseInt o)
                 | None => 0
                 end).
  assert (Hx : forall g,
             GlyphPixels.getPixelPositionX c chart_offset None g
             = Some (Scribl.width c / (mx - mn) * (Glyph.position g - mn)
                     + offset)).
  { intros g. unfold GlyphPixels.getPixelPositionX, Scribl.pixelsToNts.
    rewrite Hmn, Hmx. reflexivity. }
  assert (Hr : 0 < Scribl.width c / (mx - mn))
    by (apply Qlt_shift_div_l; lra).
  exists offset. split; [|split; [|split]].
  - intros g. eexists. split; [apply Hx|]. field. lra.
  - intros g x Hp. rewrite Hx. intros [= <-]. rewrite Hp. ring.
  - intros g x Hp. rewrite Hx. intros [= <-]. rewrite Hp. field. lra.
  - intros f g xf xg Hle. rewrite !Hx. intros [= <-] [= <-].
    apply Qplus_le_l. apply Qmult_le_l; [exact Hr | lra].
Qed.

Lemma getPixelPositionX_layout_witness :
  Scribl.scale_min chart_10k = Some 0
  /\ Scribl.scale_max chart_10k = Some 10000
  /\ 0 < 10000 /\ 0 < Scribl.width chart_10k
  /\ exists offset : Q,
       (forall g, exists x,
           GlyphPixels.getPixelPositionX chart_10k (Some 17) None g = Some x
           /\ x == Scribl.width chart_10k * (Glyph.position g - 0)
                   / (10000 - 0) + offset)
       /\ (forall g x, Glyph.position g == 0 ->
             GlyphPixels.getPixelPositionX chart_10k (Some 17) None g
             = Some x ->
             x == offset)
       /\ (forall g x, Glyph.position g == 10000 ->
             GlyphPixels.getPixelPositionX chart_10k (Some 17) None g
             = Some x ->
             x == offset + Scribl.width chart_10k)
       /\ (forall f g xf xg,
             Glyph.position f <= Glyph.position g ->
             GlyphPixels.getPixelPositionX chart_10k (Some 17) None f
             = Some xf ->
             GlyphPixels.getPixelPositionX chart_10k (Some 17) None g
             = Some xg ->
             xf <= xg).
Proof.
  split; [reflexivity|]. split; [reflexivity|]. split; [reflexivity|].
  split; [reflexivity|].
  apply (getPixelPositionX_layout chart_10k 0 10000 (Some 17));
    reflexivity.
Defined.

(** X6: [getPixelLength] is never zero.  On a chart whose scale is not
    set every feature is one pixel long.  On a chart whose scale is set,
    with [max > min] and a positive width, a feature of length zero is one
    pixel long, and any other has its length times the pixels per
    coordinate unit. *)
Theorem getPixelLength_never_zero (c : Scribl.t) (g : Glyph.t) :
  (Scribl.scale_min c = None \/ Scribl.scale_max c = None ->
   GlyphPixels.getPixelLength c g = 1)
  /\ forall mn mx,
       Scribl.scale_min c = Some mn -> Scribl.scale_max c = Some mx ->
       mn < mx -> 0 < Scribl.width c ->
       ~ GlyphPixels.getPixelLength c g == 0
       /\ (Glyph.length g == 0 -> GlyphPixels.getPixelLength c g = 1)
       /\ (~ Glyph.length g == 0 ->
           GlyphPixels.getPixelLength c g
           == Scribl.width c / (mx - mn) * Glyph.length g).
Proof.
  unfold GlyphPixels.getPixelLength, Scribl.pixelsToNts. split.
  - intros [H | H]; rewrite H.
    + destruct (Scribl.scale_max c); reflexivity.
    + reflexivity.
  - intros mn mx Hmn Hmx Hd Hw. rewrite Hmn, Hmx. cbn [mbind option_bind].
    assert (Hr : 0 < Scribl.width c / (mx - mn)).
    { apply Qlt_shift_div_l; lra. }
    set (r := Scribl.width c / (mx - mn)) in *. clearbody r.
    destruct (Qeq_bool (r * Glyph.length g) 0) eqn:E.
    + apply Qeq_bool_iff in E.
      assert (Hl : Glyph.length g == 0).
      { apply Qmult_integral in E. destruct E as [E | E]; [lra | exact E]. }
      split; [discriminate|]. split; [reflexivity|].
      intros H. contradiction.
    + apply Qeq_bool_neq in E. split; [exact E|]. split.
      * intros Hl. exfalso. apply E. rewrite Hl. ring.
      * intros _. reflexivity.
Qed.

(** ** RegionSlicer: what a slice keeps of the chart *)

Lemma filter_chart_tracks (test : Glyph.t -> bool) (c : Scribl.t)
  (ts : list Track.t) :
  Scribl.tracks (filter_chart test c ts)
  = Some <$> (filter_track test <$> ts).
Proof. reflexivity. Qed.

Lemma filter_sublist (test : Glyph.t -> bool) (l : list Glyph.t) :
  List.filter test l `sublist_of` l.
Proof.
  induction l as [|a l IH]; simpl; [constructor|].
  destruct (test a); [apply sublist_skip | apply sublist_cons]; exact IH.
Qed.

(** X8: in the inclusive (default) and exclusive modes a slice mirrors the
    chart.  On a chart with no [undefined] slot it has the width, the lane
    size and the draw style of the chart, one track for each track and one
    lane for each lane, at the same indices, a lane that loses all its
    features staying in place empty; each lane holds a selection of the
    features it held, in their order; and each track draws in the style it
    had. *)
Theorem slice_mirrors_chart (global_f : option Glyph.t)
  (eval : string -> Completion Glyph.t) (c : Scribl.t) (ts : list Track.t)
  (from to : Q) (ty : option string) :
  Scribl.tracks c = Some <$> ts ->
  ty = None \/ ty = Some "inclusive"%string \/ ty = Some "exclusive"%string ->
  exists (c' : Scribl.t) (ts' : list Track.t),
    Scribl.slice global_f eval c from to ty = Normal c'
    /\ Scribl.tracks c' = Some <$> ts'
    /\ Scribl.width c' = Scribl.width c
    /\ Scribl.laneSizes c' = Scribl.laneSizes c
    /\ Scribl.drawStyle c' = Scribl.drawStyle c
    /\ List.length ts' = List.length ts
    /\ forall (k : nat) (track : Track.t),
         ts !! k = Some track ->
         exists track',
           ts' !! k = Some track'
           /\ TrackStyle.getDrawStyle c' track'
              = TrackStyle.getDrawStyle c track
           /\ List.length (Track.lanes track')
              = List.length (Track.lanes track)
           /\ forall (i : nat) (lane : Lane.t),
                Track.lanes track !! i = Some lane ->
                exists lane',
                  Track.lanes track' !! i = Some lane'
                  /\ Lane.features lane' `sublist_of` Lane.features lane.
Proof.
  intros Hts Hty.
  assert (Hshape : exists test,
             Scribl.slice global_f eval c from to ty
             = Normal (filter_chart test c ts)).
  { destruct Hty as [-> | [-> | ->]].
    - exists (inclusive_test from to).
      apply (slice_shape global_f eval from to "inclusive" _
               (slice_feature_inclusive global_f eval from to) c ts);
        [exact Hts | reflexivity].
    - exists (inclusive_test from to).
      apply (slice_shape global_f eval from to "inclusive" _
               (slice_feature_inclusive global_f eval from to) c ts);
        [exact Hts | reflexivity].
    - exists (exclusive_test from to).
      apply (slice_shape global_f eval from to "exclusive" _
               (slice_feature_exclusive global_f eval from to) c ts);
        [exact Hts | reflexivity]. }
  destruct Hshape as (test & Hslice).
  exists (filter_chart test c ts), (filter_track test <$> ts).
  split; [exact Hslice|]. split; [reflexivity|].
  split; [reflexivity|]. split; [reflexivity|]. split; [reflexivity|].
  split; [apply length_fmap|].
  intros k track Hk. exists (filter_track test track).
  split; [rewrite list_lookup_fmap, Hk; reflexivity|].
  split; [reflexivity|]. split; [apply length_fmap|].
  intros i lane Hi. eexists. split.
  - cbn [filter_track Track.lanes]. rewrite list_lookup_fmap, Hi.
    reflexivity.
  - apply filter_sublist.
Qed.

Lemma slice_mirrors_chart_witness :
  Scribl.tracks (chart_with [rect 1 150 100 "a"; rect 2 300 10 "b"])
  = Some <$> [Track.mk [Lane.mk [rect 1 150 100 "a"; rect 2 300 10 "b"]]
                None]
  /\ (@None string = None \/ @None string = Some "inclusive"%string
      \/ @None string = Some "exclusive"%string)
  /\ exists (c' : Scribl.t) (ts' : list Track.t),
       Scribl.slice None no_eval
         (chart_with [rect 1 150 100 "a"; rect 2 300 10 "b"]) 100 200 None
       = Normal c'
       /\ Scribl.tracks c' = Some <$> ts'
       /\ Scribl.width c'
          = Scribl.width (chart_with [rect 1 150 100 "a"; rect 2 300 10 "b"])
       /\ Scribl.laneSizes c'
          = Scribl.laneSizes
              (chart_with [rect 1 150 100 "a"; rect 2 300 10 "b"])
       /\ Scribl.drawStyle c'
          = Scribl.drawStyle
              (chart_with [rect 1 150 100 "a"; rect 2 300 10 "b"])
       /\ List.length ts'
          = List.length
              [Track.mk [Lane.mk [rect 1 150 100 "a"; rect 2 300 10 "b"]]
                 None]
       /\ forall (k : nat) (track : Track.t),
            [Track.mk [Lane.mk [rect 1 150 100 "a"; rect 2 300 10 "b"]]
               None] !! k = Some track ->
            exists track',
              ts' !! k = Some track'
              /\ TrackStyle.getDrawStyle c' track'
                 = TrackStyle.getDrawStyle
                     (chart_with [rect 1 150 100 "a"; rect 2 300 10 "b"])
                     track
              /\ List.length (Track.lanes track')
                 = List.length (Track.lanes track)
              /\ forall (i : nat) (lane : Lane.t),
                   Track.lanes track !! i = Some lane ->
                   exists lane',
                     Track.lanes track' !! i = Some lane'
                     /\ Lane.features lane' `sublist_of` Lane.features lane.
Proof.
  split; [reflexivity|]. split; [left; reflexivity|].
  apply (slice_mirrors_chart None no_eval
           (chart_with [rect 1 150 100 "a"; rect 2 300 10 "b"])
           [Track.mk [Lane.mk [rect 1 150 100 "a"; rect 2 300 10 "b"]] None]
           100 200 None); [reflexivity | left; reflexivity].
Defined.

Lemma exclusive_test_inclusive (from to : Q) (g : Glyph.t) :
  exclusive_test from to g = true -> inclusive_test from to g = true.
Proof.
  unfold exclusive_test, inclusive_test. intros H.
  apply andb_true_iff in H as [H _]. apply andb_true_iff in H as [H _].
  rewrite H. reflexivity.
Qed.

(** X9: whatever the exclusive mode keeps, the inclusive mode keeps: for
    the same chart and range, every feature of the exclusive slice is a
    feature of the inclusive slice. *)
Theorem slice_exclusive_within_inclusive (global_f : option Glyph.t)
  (eval : string -> Completion Glyph.t) (c : Scribl.t) (ts : list Track.t)
  (from to : Q) :
  Scribl.tracks c = Some <$> ts ->
  exists c_in c_ex,
    Scribl.slice global_f eval c from to (Some "inclusive"%string)
    = Normal c_in
    /\ Scribl.slice global_f eval c from to (Some "exclusive"%string)
       = Normal c_ex
    /\ forall g, In g (chart_features c_ex) -> In g (chart_features c_in).
Proof.
  intros Hts. do 2 eexists. split; [|split].
  - apply (slice_shape global_f eval from to "inclusive" _
             (slice_feature_inclusive global_f eval from to) c ts);
      [exact Hts | reflexivity].
  - apply (slice_shape global_f eval from to "exclusive" _
             (slice_feature_exclusive global_f eval from to) c ts);
      [exact Hts | reflexivity].
  - intros g. rewrite !(chart_features_filter _ c ts Hts).
    rewrite !List.filter_In. intros [Hin Hex]. split; [exact Hin|].
    apply exclusive_test_inclusive. exact Hex.
Qed.

Lemma slice_exclusive_within_inclusive_witness :
  Scribl.tracks (chart_with [rect 1 150 100 "a"])
  = Some <$> [Track.mk [Lane.mk [rect 1 150 100 "a"]] None]
  /\ exists c_in c_ex,
       Scribl.slice None no_eval (chart_with [rect 1 150 100 "a"]) 100 200
         (Some "inclusive"%string) = Normal c_in
       /\ Scribl.slice None no_eval (chart_with [rect 1 150 100 "a"]) 100 200
            (Some "exclusive"%string) = Normal c_ex
       /\ forall g, In g (chart_features c_ex) -> In g (chart_features c_in).
Proof.
  split; [reflexivity|].
  apply (slice_exclusive_within_inclusive None no_eval
           (chart_with [rect 1 150 100 "a"])
           [Track.mk [Lane.mk [rect 1 150 100 "a"]] None] 100 200).
  reflexivity.
Defined.

Lemma filter_filter (test : Glyph.t -> bool) (l : list Glyph.t) :
  List.filter test (List.filter test l) = List.filter test l.
Proof.
  induction l as [|a l IH]; simpl; [reflexivity|].
  destruct (test a) eqn:E; simpl; [rewrite E, IH|]; auto.
Qed.

Lemma filter_track_twice (test : Glyph.t -> bool) (track : Track.t) :
  filter_track test (filter_track test track) = filter_track test track.
Proof.
  unfold filter_track. cbn [Track.lanes Track.drawStyle]. f_equal.
  rewrite <- list_fmap_compose. apply list_fmap_ext. intros i lane _.
  simpl. rewrite filter_filter. reflexivity.
Qed.

Lemma filter_chart_twice (test : Glyph.t -> bool) (c : Scribl.t)
  (ts : list Track.t) :
  filter_chart test (filter_chart test c ts) (filter_track test <$> ts)
  = filter_chart test c ts.
Proof.
  assert (E : filter_track test <$> (filter_track test <$> ts)
              = filter_track test <$> ts).
  { rewrite <- list_fmap_compose. apply list_fmap_ext. intros i track _.
    simpl. apply filter_track_twice. }
  unfold filter_chart at 1. rewrite E. reflexivity.
Qed.

(** X10: slicing is idempotent in the inclusive and exclusive modes: a slice
    sliced again over the same range, in the same mode, is the same
    chart. *)
Theorem slice_idempotent (global_f : option Glyph.t)
  (eval : string -> Completion Glyph.t) (c : Scribl.t) (ts : list Track.t)
  (from to : Q) (ty : option string) :
  Scribl.tracks c = Some <$> ts ->
  ty = None \/ ty = Some "inclusive"%string \/ ty = Some "exclusive"%string ->
  exists c',
    Scribl.slice global_f eval c from to ty = Normal c'
    /\ Scribl.slice global_f eval c' from to ty = Normal c'.
Proof.
  intros Hts Hty.
  assert (Hshape : exists (type : string) (test : Glyph.t -> bool),
             match ty with
             | Some s => if String.eqb s "" then "inclusive"%string else s
             | None => "inclusive"%string
             end = type
             /\ forall l sf,
                 Scribl.slice_feature global_f eval from to type l sf
                 = Normal (if test sf then Lane.addFeature l sf else l)).
  { destruct Hty as [-> | [-> | ->]].
    - exists "inclusive"%string, (inclusive_test from to).
      split; [reflexivity|]. apply slice_feature_inclusive.
    - exists "inclusive"%string, (inclusive_test from to).
      split; [reflexivity|]. apply slice_feature_inclusive.
    - exists "exclusive"%string, (exclusive_test from to).
      split; [reflexivity|]. apply slice_feature_exclusive. }
  destruct Hshape as (type & test & Htype & Hsf).
  exists (filter_chart test c ts). split.
  - apply (slice_shape global_f eval from to type test Hsf c ts ty Hts
             Htype).
  - rewrite (slice_shape global_f eval from to type test Hsf
               (filter_chart test c ts) (filter_track test <$> ts) ty
               (filter_chart_tracks test c ts) Htype).
    rewrite filter_chart_twice. reflexivity.
Qed.

Lemma slice_idempotent_witness :
  Scribl.tracks (chart_with [rect 1 150 100 "a"; rect 2 300 10 "b"])
  = Some <$> [Track.mk [Lane.mk [rect 1 150 100 "a"; rect 2 300 10 "b"]]
                None]
  /\ (@None string = None \/ @None string = Some "inclusive"%string
      \/ @None string = Some "exclusive"%string)
  /\ exists c',
       Scribl.slice None no_eval
         (chart_with [rect 1 150 100 "a"; rect 2 300 10 "b"]) 100 200 None
       = Normal c'
       /\ Scribl.slice None no_eval c' 100 200 None = Normal c'.
Proof.
  split; [reflexivity|]. split; [left; reflexivity|].
  apply (slice_idempotent None no_eval
           (chart_with [rect 1 150 100 "a"; rect 2 300 10 "b"])
           [Track.mk [Lane.mk [rect 1 150 100 "a"; rect 2 300 10 "b"]] None]
           100 200 None); [reflexivity | left; reflexivity].
Defined.

(** ** RegionSlicer: the gap invariant, the strict mode, unknown modes *)

Lemma lane_gap_ok_cons (gap : Q) (x : Glyph.t) (l : list Glyph.t) :
  lane_gap_ok gap (x :: l)
  <-> Forall (fun g => Glyph.position x + Glyph.length x
                       < Glyph.position g - gap) l
      /\ lane_gap_ok gap l.
Proof.
  split.
  - intros H. split.
    + apply Forall_lookup. intros k g Hk.
      apply (H 0%nat (S k) x g); [lia | reflexivity | exact Hk].
    + intros i j f g Hij Hf Hg.
      apply (H (S i) (S j) f g); [lia | exact Hf | exact Hg].
  - intros [Hx Hl] i j f g Hij Hf Hg.
    destruct j as [|j]; [lia|]. simpl in Hg.
    destruct i as [|i].
    + simpl in Hf. injection Hf as <-.
      rewrite Forall_lookup in Hx. exact (Hx j g Hg).
    + simpl in Hf. apply (Hl i j f g); [lia | exact Hf | exact Hg].
Qed.

Lemma lane_gap_ok_sublist (gap : Q) (l1 l2 : list Glyph.t) :
  l1 `sublist_of` l2 -> lane_gap_ok gap l2 -> lane_gap_ok gap l1.
Proof.
  intros Hsub. induction Hsub as [|x l1 l2 Hsub IH|x l1 l2 Hsub IH];
    intros H.
  - exact H.
  - apply lane_gap_ok_cons in H as [Hx Hl]. apply lane_gap_ok_cons.
    split; [|exact (IH Hl)].
    rewrite Forall_forall in Hx |- *. intros g Hg. apply Hx.
    exact (elem_of_sublist _ _ _ Hg Hsub).
  - apply lane_gap_ok_cons in H as [_ Hl]. exact (IH Hl).
Qed.

(** X11: slicing keeps the gap invariant: when every lane of the chart
    satisfies it, so does every lane of an inclusive or exclusive slice. *)
Theorem slice_keeps_gap (global_f : option Glyph.t)
  (eval : string -> Completion Glyph.t) (c : Scribl.t) (ts : list Track.t)
  (from to gap : Q) (ty : option string) :
  Scribl.tracks c = Some <$> ts ->
  ty = None \/ ty = Some "inclusive"%string \/ ty = Some "exclusive"%string ->
  (forall track lane,
      In track ts -> In lane (Track.lanes track) ->
      lane_gap_ok gap (Lane.features lane)) ->
  exists (c' : Scribl.t) (ts' : list Track.t),
    Scribl.slice global_f eval c from to ty = Normal c'
    /\ Scribl.tracks c' = Some <$> ts'
    /\ forall track' lane',
         In track' ts' -> In lane' (Track.lanes track') ->
         lane_gap_ok gap (Lane.features lane').
Proof.
  intros Hts Hty Hok.
  assert (Hshape : exists test,
             Scribl.slice global_f eval c from to ty
             = Normal (filter_chart test c ts)).
  { destruct Hty as [-> | [-> | ->]].
    - exists (inclusive_test from to).
      apply (slice_shape global_f eval from to "inclusive" _
               (slice_feature_inclusive global_f eval from to) c ts);
        [exact Hts | reflexivity].
    - exists (inclusive_test from to).
      apply (slice_shape global_f eval from to "inclusive" _
               (slice_feature_inclusive global_f eval from to) c ts);
        [exact Hts | reflexivity].
    - exists (exclusive_test from to).
      apply (slice_shape global_f eval from to "exclusive" _
               (slice_feature_exclusive global_f eval from to) c ts);
        [exact Hts | reflexivity]. }
  destruct Hshape as (test & Hslice).
  exists (filter_chart test c ts), (filter_track test <$> ts).
  split; [exact Hslice|]. split; [reflexivity|].
  intros track' lane' Ht Hl.
  apply list_elem_of_In, list_elem_of_fmap in Ht as (track & -> & Ht).
  cbn [filter_track Track.lanes] in Hl.
  apply list_elem_of_In, list_elem_of_fmap in Hl as (lane & -> & Hl).
  cbn [Lane.features].
  apply (lane_gap_ok_sublist gap _ (Lane.features lane)).
  - apply filter_sublist.
  - apply (Hok track lane); apply list_elem_of_In; assumption.
Qed.

Lemma slice_keeps_gap_witness :
  Scribl.tracks (chart_with [rect 1 150 100 "a"; rect 2 300 10 "b"])
  = Some <$> [Track.mk [Lane.mk [rect 1 150 100 "a"; rect 2 300 10 "b"]]
                None]
  /\ (@None string = None \/ @None string = Some "inclusive"%string
      \/ @None string = Some "exclusive"%string)
  /\ (forall track lane,
         In track
            [Track.mk [Lane.mk [rect 1 150 100 "a"; rect 2 300 10 "b"]]
               None] ->
         In lane (Track.lanes track) ->
         lane_gap_ok 39 (Lane.features lane))
  /\ exists (c' : Scribl.t) (ts' : list Track.t),
       Scribl.slice None no_eval
         (chart_with [rect 1 150 100 "a"; rect 2 300 10 "b"]) 100 200 None
       = Normal c'
       /\ Scribl.tracks c' = Some <$> ts'
       /\ forall track' lane',
            In track' ts' -> In lane' (Track.lanes track') ->
            lane_gap_ok 39 (Lane.features lane').
Proof.
  assert (H : forall track lane,
             In track
                [Track.mk [Lane.mk [rect 1 150 100 "a"; rect 2 300 10 "b"]]
                   None] ->
             In lane (Track.lanes track) ->
             lane_gap_ok 39 (Lane.features lane)).
  { intros track lane [<-|[]] [<-|[]] i j f g Hij Hf Hg.
    destruct i as [|[|i]], j as [|[|j]]; simpl in Hf, Hg;
      try lia; try discriminate.
    injection Hf as <-. injection Hg as <-. reflexivity. }
  split; [reflexivity|]. split; [left; reflexivity|]. split; [exact H|].
  apply (slice_keeps_gap None no_eval
           (chart_with [rect 1 150 100 "a"; rect 2 300 10 "b"])
           [Track.mk [Lane.mk [rect 1 150 100 "a"; rect 2 300 10 "b"]] None]
           100 200 39 None); [reflexivity | left; reflexivity | exact H].
Defined.

Lemma slice_feature_strict_unbound (eval : string -> Completion Glyph.t)
  (from to : Q) (l : Lane.t) (sf : Glyph.t) :
  Scribl.slice_feature None eval from to "strict" l sf
  = if strict_clips from to sf then Throw (ReferenceError "f")
    else Normal (if exclusive_test from to sf
                 then Lane.addFeature l sf else l).
Proof.
  unfold Scribl.slice_feature, strict_clips, exclusive_test.
  change (String.eqb "strict" "inclusive") with false.
  change (String.eqb "strict" "strict") with true. cbv iota zeta.
  destruct (geb (Glyph.position sf) from), (leb (Glyph.position sf) to),
    (gtb (Glyph.position sf + Glyph.length sf) from),
    (ltb (Glyph.position sf + Glyph.length sf) to),
    (ltb (Glyph.position sf) from),
    (gtb (Glyph.position sf + Glyph.length sf) to); reflexivity.
Qed.

Section StrictUnbound.
(** The strict mode when no global [f] is bound. *)
Variable eval : string -> Completion Glyph.t.
Variables from to : Q.

#[local] Abbreviation clips := (strict_clips from to).
#[local] Abbreviation keeps := (exclusive_test from to).
#[local] Abbreviation unbound := (@Throw Lane.t (ReferenceError "f")).

Lemma strict_features_thrown (fs : list Glyph.t) (e : Error) :
  foldl (fun acc sf =>
           l0 ← acc; Scribl.slice_feature None eval from to "strict" l0 sf)
        (Throw e) fs
  = Throw e.
Proof. induction fs as [|sf fs IH]; simpl; [reflexivity | exact IH]. Qed.

Lemma strict_features_fold (fs : list Glyph.t) (l : Lane.t) :
  foldl (fun acc sf =>
           l0 ← acc; Scribl.slice_feature None eval from to "strict" l0 sf)
        (Normal l) fs
  = if existsb clips fs then unbound
    else Normal (Lane.mk (Lane.features l ++ List.filter keeps fs)).
Proof.
  revert l. induction fs as [|sf fs IH]; intros [l]; simpl.
  - rewrite app_nil_r. reflexivity.
  - change (Normal (Lane.mk l) ≫= _)
      with (Scribl.slice_feature None eval from to "strict" (Lane.mk l) sf).
    rewrite slice_feature_strict_unbound.
    destruct (strict_clips from to sf); simpl.
    + apply strict_features_thrown.
    + destruct (exclusive_test from to sf); rewrite IH; simpl;
        [rewrite <- app_assoc|]; reflexivity.
Qed.

Lemma strict_lanes_thrown (ls : list Lane.t) (e : Error) :
  foldl (fun acc lane =>
           tr ← acc; Scribl.slice_lane None eval from to "strict" tr lane)
        (Throw e) ls
  = Throw e.
Proof. induction ls as [|lane ls IH]; simpl; [reflexivity | exact IH]. Qed.

Lemma strict_lane_shape (newTrack : Track.t) (lane : Lane.t) :
  Scribl.slice_lane None eval from to "strict" newTrack lane
  = if existsb clips (Lane.features lane) then Throw (ReferenceError "f")
    else Normal (Track.mk
                   (Track.lanes newTrack
                    ++ [Lane.mk (List.filter keeps (Lane.features lane))])
                   (Track.drawStyle newTrack)).
Proof.
  unfold Scribl.slice_lane, Track.addLane. rewrite strict_features_fold.
  destruct (existsb clips (Lane.features lane)); [reflexivity|].
  simpl. rewrite insert_last. reflexivity.
Qed.

Lemma strict_lanes_fold (ls : list Lane.t) (newTrack : Track.t) :
  foldl (fun acc lane =>
           tr ← acc; Scribl.slice_lane None eval from to "strict" tr lane)
        (Normal newTrack) ls
  = if existsb (fun lane => existsb clips (Lane.features lane)) ls
    then Throw (ReferenceError "f")
    else Normal (Track.mk
                   (Track.lanes newTrack
                    ++ ((fun lane =>
                           Lane.mk (List.filter keeps (Lane.features lane)))
                          <$> ls))
                   (Track.drawStyle newTrack)).
Proof.
  revert newTrack. induction ls as [|lane ls IH]; intros [l d]; simpl.
  - rewrite app_nil_r. reflexivity.
  - change (Normal (Track.mk l d) ≫= _)
      with (Scribl.slice_lane None eval from to "strict" (Track.mk l d)
              lane).
    rewrite strict_lane_shape.
    destruct (existsb clips (Lane.features lane)); simpl.
    + apply strict_lanes_thrown.
    + rewrite IH. simpl. rewrite <- app_assoc. reflexivity.
Qed.

Lemma strict_tracks_thrown (ts : list (option Track.t)) (e : Error) :
  foldl (fun acc track =>
           ch ← acc; Scribl.slice_track None eval from to "strict" ch track)
        (Throw e) ts
  = Throw e.
Proof. induction ts as [|track ts IH]; simpl; [reflexivity | exact IH]. Qed.

Lemma strict_track_shape (newChart : Scribl.t) (done : list Track.t)
  (track : Track.t) :
  Scribl.tracks newChart = Some <$> done ->
  Scribl.slice_track None eval from to "strict" newChart (Some track)
  = if existsb clips (track_features track) then Throw (ReferenceError "f")
    else Normal (Scribl.set_tracks
                   (Some <$> (done ++ [filter_track keeps track]))
                   newChart).
Proof.
  intros H. unfold Scribl.slice_track.
  rewrite (addTrack_defined _ done H), strict_lanes_fold.
  cbn [Track.lanes Track.set_drawStyle Track.init Track.drawStyle].
  unfold track_features.
  assert (E : existsb clips (concat (Lane.features <$> Track.lanes track))
              = existsb (fun lane => existsb clips (Lane.features lane))
                        (Track.lanes track)).
  { induction (Track.lanes track) as [|lane ls IH]; [reflexivity|].
    rewrite fmap_cons. cbn [concat existsb].
    rewrite existsb_app, IH. reflexivity. }
  rewrite E.
  destruct (existsb (fun lane => existsb clips (Lane.features lane))
                    (Track.lanes track)); [reflexivity|].
  simpl. rewrite insert_last, H, fmap_app. reflexivity.
Qed.

Lemma strict_tracks_fold (ts : list Track.t) (newChart : Scribl.t)
  (done : list Track.t) :
  Scribl.tracks newChart = Some <$> done ->
  foldl (fun acc track =>
           ch ← acc; Scribl.slice_track None eval from to "strict" ch track)
        (Normal newChart) (Some <$> ts)
  = if existsb clips (concat (track_features <$> ts))
    then Throw (ReferenceError "f")
    else Normal (Scribl.set_tracks
                   (Some <$> (done ++ (filter_track keeps <$> ts)))
                   newChart).
Proof.
  revert newChart done. induction ts as [|track ts IH]; intros nc done H.
  - simpl. rewrite app_nil_r, <- H. destruct nc; reflexivity.
  - rewrite !fmap_cons. cbn [foldl concat].
    change (Normal nc ≫= _)
      with (Scribl.slice_track None eval from to "strict" nc (Some track)).
    rewrite (strict_track_shape nc done track H), existsb_app.
    destruct (existsb clips (track_features track)); simpl.
    + apply strict_tracks_thrown.
    + rewrite (IH _ (done ++ [filter_track keeps track])) by reflexivity.
      rewrite <- app_assoc. reflexivity.
Qed.

End StrictUnbound.

(** X12: the strict mode when no global [f] is bound, on a chart with no
    [undefined] slot.  If some feature of the chart has to be clipped (it
    starts in the range without ending strictly inside it, or ends strictly
    inside it without starting in the range, or extends beyond both ends),
    [slice] throws the ReferenceError of [clone] and returns no chart.
    Otherwise it returns the chart the exclusive mode returns. *)
Theorem slice_strict_unbound (eval : string -> Completion Glyph.t)
  (c : Scribl.t) (ts : list Track.t) (from to : Q) :
  Scribl.tracks c = Some <$> ts ->
  Scribl.slice None eval c from to (Some "strict"%string)
  = (if existsb (strict_clips from to) (chart_features c)
     then Throw (ReferenceError "f")
     else Scribl.slice None eval c from to (Some "exclusive"%string))
  /\ exists c',
       Scribl.slice None eval c from to (Some "exclusive"%string)
       = Normal c'.
Proof.
  intros Hts.
  assert (Hex : Scribl.slice None eval c from to (Some "exclusive"%string)
                = Normal (filter_chart (exclusive_test from to) c ts)).
  { apply (slice_shape None eval from to "exclusive" _
             (slice_feature_exclusive None eval from to) c ts);
      [exact Hts | reflexivity]. }
  split; [|eexists; exact Hex].
  rewrite Hex, (chart_features_defined c ts Hts).
  unfold Scribl.slice. change (String.eqb "strict" "") with false.
  cbv iota. rewrite Hts.
  rewrite (strict_tracks_fold eval from to ts _ []) by reflexivity.
  destruct (existsb (strict_clips from to) (concat (track_features <$> ts)));
    reflexivity.
Qed.

Lemma slice_strict_unbound_witness :
  Scribl.tracks (chart_with [rect 1 120 30 "a"; rect 2 300 10 "b"])
  = Some <$> [Track.mk [Lane.mk [rect 1 120 30 "a"; rect 2 300 10 "b"]]
                None]
  /\ Scribl.slice None no_eval
       (chart_with [rect 1 120 30 "a"; rect 2 300 10 "b"]) 100 200
       (Some "strict"%string)
     = (if existsb (strict_clips 100 200)
             (chart_features
                (chart_with [rect 1 120 30 "a"; rect 2 300 10 "b"]))
        then Throw (ReferenceError "f")
        else Scribl.slice None no_eval
               (chart_with [rect 1 120 30 "a"; rect 2 300 10 "b"]) 100 200
               (Some "exclusive"%string))
  /\ exists c',
       Scribl.slice None no_eval
         (chart_with [rect 1 120 30 "a"; rect 2 300 10 "b"]) 100 200
         (Some "exclusive"%string)
       = Normal c'.
Proof.
  split; [reflexivity|].
  apply (slice_strict_unbound no_eval
           (chart_with [rect 1 120 30 "a"; rect 2 300 10 "b"])
           [Track.mk [Lane.mk [rect 1 120 30 "a"; rect 2 300 10 "b"]] None]
           100 200).
  reflexivity.
Defined.

Lemma filter_keep_none (l : list Glyph.t) : List.filter keep_none l = [].
Proof. induction l as [|a l IH]; simpl; [reflexivity | exact IH]. Qed.

(** X13: the mode is not checked: for a mode that is none of the three the
    code knows, [slice] fails with nothing and returns the mirror of the
    chart with every lane empty. *)
Theorem slice_unknown_mode (global_f : option Glyph.t)
  (eval : string -> Completion Glyph.t) (c : Scribl.t) (ts : list Track.t)
  (from to : Q) (mode : string) :
  Scribl.tracks c = Some <$> ts -> ~ known_mode mode ->
  exists c',
    Scribl.slice global_f eval c from to (Some mode) = Normal c'
    /\ chart_features c' = []
    /\ List.length (Scribl.tracks c') = List.length (Scribl.tracks c).
Proof.
  intros Hts Hmode. unfold known_mode in Hmode.
  assert (H0 : String.eqb mode "" = false) by (apply String.eqb_neq; tauto).
  assert (H1 : String.eqb mode "inclusive" = false)
    by (apply String.eqb_neq; tauto).
  assert (H2 : String.eqb mode "strict" = false)
    by (apply String.eqb_neq; tauto).
  assert (H3 : String.eqb mode "exclusive" = false)
    by (apply String.eqb_neq; tauto).
  assert (Hsf : forall l sf,
             Scribl.slice_feature global_f eval from to mode l sf
             = Normal (if keep_none sf then Lane.addFeature l sf else l)).
  { intros l sf. unfold Scribl.slice_feature. rewrite H1, H2, H3.
    reflexivity. }
  exists (filter_chart keep_none c ts). split; [|split].
  - apply (slice_shape global_f eval from to mode keep_none Hsf c ts
             (Some mode) Hts). rewrite H0. reflexivity.
  - rewrite (chart_features_filter _ c ts Hts). apply filter_keep_none.
  - rewrite filter_chart_tracks, Hts, !length_fmap. reflexivity.
Qed.

Lemma slice_unknown_mode_witness :
  Scribl.tracks (chart_with [rect 1 150 100 "a"])
  = Some <$> [Track.mk [Lane.mk [rect 1 150 100 "a"]] None]
  /\ ~ known_mode "Inclusive"
  /\ exists c',
       Scribl.slice None no_eval (chart_with [rect 1 150 100 "a"]) 100 200
         (Some "Inclusive"%string) = Normal c'
       /\ chart_features c' = []
       /\ List.length (Scribl.tracks c')
          = List.length (Scribl.tracks (chart_with [rect 1 150 100 "a"])).
Proof.
  assert (H : ~ known_mode "Inclusive")
    by (intros [H|[H|[H|H]]]; discriminate H).
  split; [reflexivity|]. split; [exact H|].
  apply (slice_unknown_mode None no_eval (chart_with [rect 1 150 100 "a"])
           [Track.mk [Lane.mk [rect 1 150 100 "a"]] None] 100 200
           "Inclusive"); [reflexivity | exact H].
Defined.

(** ** ScaleModel: the ends of the scale, continued *)

Lemma trunc_proper (x y : Q) : x == y -> trunc x = trunc y.
Proof.
  intros H. unfold trunc.
  rewrite (Qleb_comp 0 0 (Qeq_refl 0) x y H).
  rewrite (Qfloor_comp x y H), (Qceiling_comp x y H). reflexivity.
Qed.

Lemma trunc_inject_Z (z : Z) : trunc (inject_Z z) = z.
Proof.
  unfold trunc. rewrite Qfloor_Z, Qceiling_Z.
  destruct (Qle_bool 0 (inject_Z z)); reflexivity.
Qed.

Lemma trunc_nonpos (x : Q) : x <= 0 -> trunc x = Qceiling x.
Proof.
  intros H. unfold trunc. destruct (Qle_bool 0 x) eqn:E; [|reflexivity].
  apply Qle_bool_iff in E.
  assert (H0 : x == 0) by (apply Qle_antisym; assumption).
  rewrite (Qfloor_comp _ _ H0), (Qceiling_comp _ _ H0). reflexivity.
Qed.

(** The new lower end is [major * trunc(min / major)]. *)
Lemma rem_trunc (a b : Q) :
  a - rem a b == inject_Z (trunc (a / b)) * b.
Proof. unfold rem. ring. Qed.

(** The remainder of a whole multiple is zero. *)
Lemma rem_multiple (k : Z) (b : Q) : ~ b == 0 -> rem (inject_Z k * b) b == 0.
Proof.
  intros Hb. unfold rem.
  assert (H : inject_Z k * b / b == inject_Z k) by (field; exact Hb).
  rewrite (trunc_proper _ _ H), trunc_inject_Z. ring.
Qed.

Lemma rem_proper (a a' b : Q) : a == a' -> rem a b == rem a' b.
Proof.
  intros H. unfold rem.
  assert (E : a / b == a' / b) by (rewrite H; reflexivity).
  rewrite (trunc_proper _ _ E), H. reflexivity.
Qed.

Lemma Math_round_proper (x y : Q) : x == y -> Math_round x = Math_round y.
Proof.
  intros H. unfold Math_round. f_equal. apply Qfloor_comp.
  rewrite H. reflexivity.
Qed.

(** X14: the block of [draw] that prettifies the domain is idempotent for a
    positive major tick size: run on its own result, it leaves both ends of
    the scale where they are. *)
Theorem draw_scale_ends_idempotent (c : Scribl.t) (mn mx : Q) :
  Scribl.scale_auto c = true ->
  Scribl.scale_min c = Some mn -> Scribl.scale_max c = Some mx ->
  0 < Scribl.tick_major_size c ->
  exists c1 c2 mn1 mx1 mn2 mx2,
    Scribl.draw_scale_ends c = Some c1
    /\ Scribl.draw_scale_ends c1 = Some c2
    /\ Scribl.scale_min c1 = Some mn1 /\ Scribl.scale_max c1 = Some mx1
    /\ Scribl.scale_min c2 = Some mn2 /\ Scribl.scale_max c2 = Some mx2
    /\ mn2 == mn1 /\ mx2 == mx1.
Proof.
  intros Hauto Hmn Hmx Hmaj.
  unfold Scribl.draw_scale_ends. rewrite Hauto, Hmn. simpl. rewrite Hmx.
  simpl. eexists. eexists. eexists. eexists. eexists. eexists.
  split; [reflexivity|].
  cbn [Scribl.scale_auto Scribl.scale_min Scribl.scale_max
       Scribl.tick_major_size Scribl.set_scale_max Scribl.set_scale_min
       mbind option_bind].
  rewrite Hauto.
  set (major := Scribl.tick_major_size c) in *.
  repeat (split; [reflexivity|]). fold major.
  assert (Hnz : ~ major == 0) by lra.
  split.
  - rewrite (rem_proper _ _ major (rem_trunc mn major)).
    rewrite rem_multiple by exact Hnz. ring.
  - rewrite !Math_round_plus_4_tenths.
    set (k := Qfloor (mx / major + (9 # 10))).
    assert (E : inject_Z k * major / major + (9 # 10)
                == inject_Z k + (9 # 10)) by (field; exact Hnz).
    rewrite (Qfloor_comp _ _ E).
    rewrite (Qfloor_unique _ k).
    + reflexivity.
    + lra.
    + rewrite inject_Z_plus. change (inject_Z 1) with 1. lra.
Qed.

Lemma draw_scale_ends_idempotent_witness :
  Scribl.scale_auto (Scribl.set_scale_max (Some 10450) chart_10k_by_1000)
  = true
  /\ Scribl.scale_min (Scribl.set_scale_max (Some 10450) chart_10k_by_1000)
     = Some 0
  /\ Scribl.scale_max (Scribl.set_scale_max (Some 10450) chart_10k_by_1000)
     = Some 10450
  /\ 0 < Scribl.tick_major_size
           (Scribl.set_scale_max (Some 10450) chart_10k_by_1000)
  /\ exists c1 c2 mn1 mx1 mn2 mx2,
       Scribl.draw_scale_ends
         (Scribl.set_scale_max (Some 10450) chart_10k_by_1000) = Some c1
       /\ Scribl.draw_scale_ends c1 = Some c2
       /\ Scribl.scale_min c1 = Some mn1 /\ Scribl.scale_max c1 = Some mx1
       /\ Scribl.scale_min c2 = Some mn2 /\ Scribl.scale_max c2 = Some mx2
       /\ mn2 == mn1 /\ mx2 == mx1.
Proof.
  split; [reflexivity|]. split; [reflexivity|]. split; [reflexivity|].
  split; [reflexivity|].
  apply (draw_scale_ends_idempotent
           (Scribl.set_scale_max (Some 10450) chart_10k_by_1000) 0 10450);
    reflexivity.
Defined.

(** X15: how far the ends of the scale move, for a positive major tick size.
    Both new ends are whole multiples of the major tick size.  The upper end
    moves to a multiple less than a tenth of a tick below the old one at the
    lowest, and nine tenths of a tick above it at the highest: the scale can
    end short of the last features.  The lower end moves toward zero by
    less than a tick: down for a positive [min], up for a negative one. *)
Theorem draw_scale_ends_bounds (c : Scribl.t) (mn mx : Q) :
  Scribl.scale_auto c = true ->
  Scribl.scale_min c = Some mn -> Scribl.scale_max c = Some mx ->
  0 < Scribl.tick_major_size c ->
  exists c' mn' mx',
    Scribl.draw_scale_ends c = Some c'
    /\ Scribl.scale_min c' = Some mn' /\ Scribl.scale_max c' = Some mx'
    /\ is_multiple (Scribl.tick_major_size c) mn'
    /\ is_multiple (Scribl.tick_major_size c) mx'
    /\ mx - Scribl.tick_major_size c / 10 < mx'
    /\ mx' <= mx + (9 # 10) * Scribl.tick_major_size c
    /\ (0 <= mn -> 0 <= mn' /\ mn' <= mn
                   /\ mn < mn' + Scribl.tick_major_size c)
    /\ (mn <= 0 -> mn <= mn' /\ mn' <= 0
                   /\ mn' < mn + Scribl.tick_major_size c).
Proof.
  intros Hauto Hmn Hmx Hmaj.
  unfold Scribl.draw_scale_ends. rewrite Hauto, Hmn. simpl. rewrite Hmx.
  simpl. set (major := Scribl.tick_major_size c) in *.
  do 3 eexists. repeat (split; [reflexivity|]).
  pose proof (rem_trunc mn major) as Hr.
  split; [exists (trunc (mn / major)); exact Hr|].
  rewrite Math_round_plus_4_tenths.
  split; [eexists; reflexivity|].
  set (q := mx / major) in *.
  assert (Hq : mx == q * major) by (unfold q; field; lra).
  pose proof (Qfloor_le (q + (9 # 10))) as Hf.
  pose proof (Qlt_floor (q + (9 # 10))) as Hg.
  rewrite inject_Z_plus in Hg. change (inject_Z 1) with 1 in Hg.
  set (k := inject_Z (Qfloor (q + (9 # 10)))) in *.
  clearbody k q.
  split; [|split; [|split]].
  - assert (H : (q - (1 # 10)) * major < k * major)
      by (apply Qmult_lt_compat_r; lra).
    assert (E : (q - (1 # 10)) * major == q * major - major / 10)
      by field.
    rewrite E in H. rewrite Hq. exact H.
  - assert (H : k * major <= (q + (9 # 10)) * major)
      by (apply Qmult_le_compat_r; lra).
    assert (E : (q + (9 # 10)) * major == q * major + (9 # 10) * major)
      by ring.
    rewrite E in H. rewrite Hq. exact H.
  - intros Hpos. rewrite Hr.
    rewrite trunc_nonneg by (apply Qdiv_nonneg; lra).
    destruct (Qfloor_div_bounds mn major Hmaj) as [Hlo Hhi].
    split; [|split; [exact Hlo | exact Hhi]].
    apply Qmult_le_0_compat; [|lra].
    change 0 with (inject_Z 0). rewrite <- Zle_Qle.
    change 0%Z with (Qfloor 0). apply Qfloor_resp_le.
    apply Qdiv_nonneg; lra.
  - intros Hneg. rewrite Hr.
    assert (Hd : mn / major <= 0).
    { apply Qle_shift_div_r; lra. }
    rewrite trunc_nonpos by exact Hd.
    set (p := mn / major) in *.
    assert (Hp : mn == p * major) by (unfold p; field; lra).
    pose proof (Qle_ceiling p) as Hc. pose proof (Qceiling_lt p) as Hl.
    unfold Zminus in Hl. rewrite inject_Z_plus in Hl.
    change (inject_Z (- (1))) with (-1 # 1) in Hl.
    assert (Hz : inject_Z (Qceiling p) <= 0).
    { change 0 with (inject_Z 0). rewrite <- Zle_Qle.
      change 0%Z with (Qceiling 0). apply Qceiling_resp_le. exact Hd. }
    set (z := inject_Z (Qceiling p)) in *.
    clearbody z p.
    assert (H1 : p * major <= z * major)
      by (apply Qmult_le_compat_r; lra).
    assert (H2 : (z - 1) * major < p * major)
      by (apply Qmult_lt_compat_r; lra).
    assert (E2 : (z - 1) * major == z * major - major) by ring.
    rewrite E2 in H2.
    assert (H3 : z * major <= 0 * major)
      by (apply Qmult_le_compat_r; lra).
    assert (E3 : 0 * major == 0) by ring.
    rewrite E3 in H3.
    rewrite Hp. split; [exact H1|]. split; [exact H3 | lra].
Qed.

Lemma draw_scale_ends_bounds_witness :
  Scribl.scale_auto chart_10k_by_1000 = true
  /\ Scribl.scale_min chart_10k_by_1000 = Some 0
  /\ Scribl.scale_max chart_10k_by_1000 = Some 10000
  /\ 0 < Scribl.tick_major_size chart_10k_by_1000
  /\ exists c' mn' mx',
       Scribl.draw_scale_ends chart_10k_by_1000 = Some c'
       /\ Scribl.scale_min c' = Some mn' /\ Scribl.scale_max c' = Some mx'
       /\ is_multiple (Scribl.tick_major_size chart_10k_by_1000) mn'
       /\ is_multiple (Scribl.tick_major_size chart_10k_by_1000) mx'
       /\ 10000 - Scribl.tick_major_size chart_10k_by_1000 / 10 < mx'
       /\ mx' <= 10000 + (9 # 10) * Scribl.tick_major_size chart_10k_by_1000
       /\ (0 <= 0 -> 0 <= mn' /\ mn' <= 0
                     /\ 0 < mn' + Scribl.tick_major_size chart_10k_by_1000)
       /\ (0 <= 0 -> 0 <= mn' /\ mn' <= 0
                     /\ mn' < 0 + Scribl.tick_major_size chart_10k_by_1000).
Proof.
  split; [reflexivity|]. split; [reflexivity|]. split; [reflexivity|].
  split; [reflexivity|].
  apply (draw_scale_ends_bounds chart_10k_by_1000 0 10000); reflexivity.
Defined.


(** ** TickPlanner: the interval against the room there is *)

Lemma pow10_inject_pos (n : nat) : 0 < inject_Z (pow10 n).
Proof.
  change 0 with (inject_Z 0). rewrite <- Zlt_Qlt. apply pow10_pos.
Qed.

(** The value returned, with the multiple [k * 10^n] it was snapped from. *)
Lemma snap_major_cases (x : Q) :
  0 < x ->
  exists (n : nat) (k : Z),
    (1 <= k <= 10)%Z
    /\ x <= inject_Z k * inject_Z (pow10 n)
    /\ (1 <= x -> (inject_Z k - 1) * inject_Z (pow10 n) < x
                  /\ inject_Z (pow10 n) <= x)
    /\ snap_of (major_of x)
       == inject_Z (if (k =? 1)%Z then pow10 n
                    else if (k <=? 5)%Z then 5 * pow10 n else pow10 (S n)).
Proof.
  intros Hx.
  destruct (major_of_cases x Hx) as (n & k & HM & Hk & Hkc & Hcase).
  pose proof (snap_of_cases _ n k Hk HM) as Hsnap.
  pose proof (pow10_inject_pos n) as HP.
  exists n, k. split; [exact Hk|].
  set (P := inject_Z (pow10 n)) in *.
  pose proof (Qle_ceiling (x / P)) as Hc.
  pose proof (Qceiling_lt (x / P)) as Hl.
  rewrite <- Hkc in Hc, Hl.
  unfold Z.sub in Hl. rewrite inject_Z_plus in Hl.
  change (inject_Z (- (1))) with (-1 # 1) in Hl.
  assert (Hxp : x == x / P * P) by (field; lra).
  split; [|split; [|exact Hsnap]].
  - rewrite Hxp. apply Qmult_le_compat_r; lra.
  - intros H1. split.
    + rewrite Hxp. apply Qmult_lt_compat_r; lra.
    + destruct Hcase as [[Hlt _]|[Hlo _]]; [lra | exact Hlo].
Qed.

(** X16: the major tick interval leaves room for the labels.  On a chart
    whose scale is set, with [max > min], a positive width and a positive
    label width plus buffer, the interval returned is at least the raw
    interval [irregularTick], so the labels of the major ticks of the
    domain, at their estimated width plus the buffer, fit in the width of
    the chart; and it is less than five times the raw interval when that is
    at least 1. *)
Theorem determineMajorTick_fits (measureText : string -> Q)
  (c : Scribl.t) (mn mx : Q) :
  Scribl.scale_min c = Some mn -> Scribl.scale_max c = Some mx ->
  mn < mx -> 0 < Scribl.width c ->
  0 < measureText (Scribl.text_of (Scribl.getTickTextDecimalPlaces c mx))
      + Scribl.scale_font_buffer c ->
  exists c1 v,
    Scribl.determineMajorTick measureText c = Some (c1, v)
    /\ irregularTick_of measureText c mn mx <= v
    /\ (mx - mn) / v
       * (measureText (Scribl.text_of (Scribl.getTickTextDecimalPlaces c mx))
          + Scribl.scale_font_buffer c)
       <= Scribl.width c
    /\ (1 <= irregularTick_of measureText c mn mx ->
        v < 5 * irregularTick_of measureText c mn mx).
Proof.
  intros Hmn Hmx Hd Hw Hl.
  rewrite (determineMajorTick_unfold measureText c mn mx Hmn Hmx).
  pose proof (irregularTick_pos measureText c mn mx Hd Hw Hl) as Hx.
  destruct (snap_major_cases _ Hx) as (n & k & Hk & Hle & Hge & Hsnap).
  pose proof (pow10_inject_pos n) as HP.
  do 2 eexists. split; [reflexivity|].
  set (x := irregularTick_of measureText c mn mx) in *.
  set (v := snap_of (major_of x)) in *.
  set (L := measureText
              (Scribl.text_of (Scribl.getTickTextDecimalPlaces c mx))
            + Scribl.scale_font_buffer c) in *.
  assert (Hxv : x == (mx - mn) * L / Scribl.width c).
  { unfold x, irregularTick_of. fold L. field. split; lra. }
  set (P := inject_Z (pow10 n)) in *.
  assert (Hv : inject_Z k * P <= v
               /\ (1 <= x -> v < 5 * x)).
  { rewrite Hsnap. clear Hsnap.
    assert (Hk' : (k = 1 \/ 2 <= k <= 5 \/ 6 <= k <= 10)%Z) by lia.
    destruct Hk' as [-> | [Hk' | Hk']].
    - change (1 =? 1)%Z with true. cbv iota. fold P. clearbody P x.
      change (inject_Z 1) with 1 in *. split; [lra|].
      intros H1. destruct (Hge H1) as [_ Hlo]. lra.
    - destruct (k =? 1)%Z eqn:E1; [lia|].
      destruct (k <=? 5)%Z eqn:E5; [|lia].
      rewrite inject_Z_mult. fold P. clearbody P x.
      change (inject_Z 5) with 5.
      split.
      + apply Qmult_le_compat_r; [|lra].
        change 5 with (inject_Z 5). rewrite <- Zle_Qle. lia.
      + intros H1. destruct (Hge H1) as [Hlt _].
        assert (H5 : 1 * P <= (inject_Z k - 1) * P).
        { apply Qmult_le_compat_r; [|lra].
          assert (H : inject_Z 2 <= inject_Z k) by (rewrite <- Zle_Qle; lia).
          change (inject_Z 2) with 2 in H. lra. }
        lra.
    - destruct (k =? 1)%Z eqn:E1; [lia|].
      destruct (k <=? 5)%Z eqn:E5; [lia|].
      rewrite pow10_S, inject_Z_mult. fold P. clearbody P x.
      change (inject_Z 10) with 10.
      split.
      + apply Qmult_le_compat_r; [|lra].
        change 10 with (inject_Z 10). rewrite <- Zle_Qle. lia.
      + intros H1. destruct (Hge H1) as [Hlt _].
        assert (H5 : 5 * P <= (inject_Z k - 1) * P).
        { apply Qmult_le_compat_r; [|lra].
          assert (H : inject_Z 6 <= inject_Z k) by (rewrite <- Zle_Qle; lia).
          change (inject_Z 6) with 6 in H. lra. }
        lra. }
  destruct Hv as [Hkv Hup].
  assert (Hxle : x <= v) by lra.
  split; [exact Hxle|]. split; [|exact Hup].
  assert (Hvpos : 0 < v) by lra.
  assert (E : (mx - mn) / v * L == (mx - mn) * L / v) by (field; lra).
  rewrite E. apply Qle_shift_div_r; [exact Hvpos|].
  assert (Hxw : x * Scribl.width c == (mx - mn) * L).
  { rewrite Hxv. field. lra. }
  rewrite <- Hxw. rewrite (Qmult_comm (Scribl.width c) v).
  apply Qmult_le_compat_r; lra.
Qed.

Lemma determineMajorTick_fits_witness :
  Scribl.scale_min chart_10k = Some 0
  /\ Scribl.scale_max chart_10k = Some 10000
  /\ 0 < 10000 /\ 0 < Scribl.width chart_10k
  /\ 0 < five_per_char
           (Scribl.text_of (Scribl.getTickTextDecimalPlaces chart_10k 10000))
         + Scribl.scale_font_buffer chart_10k
  /\ exists c1 v,
       Scribl.determineMajorTick five_per_char chart_10k = Some (c1, v)
       /\ irregularTick_of five_per_char chart_10k 0 10000 <= v
       /\ (10000 - 0) / v
          * (five_per_char
               (Scribl.text_of
                  (Scribl.getTickTextDecimalPlaces chart_10k 10000))
             + Scribl.scale_font_buffer chart_10k)
          <= Scribl.width chart_10k
       /\ (1 <= irregularTick_of five_per_char chart_10k 0 10000 ->
           v < 5 * irregularTick_of five_per_char chart_10k 0 10000).
Proof.
  split; [reflexivity|]. split; [reflexivity|]. split; [reflexivity|].
  split; [reflexivity|]. split; [reflexivity|].
  apply (determineMajorTick_fits five_per_char chart_10k 0 10000);
    reflexivity.
Defined.

(** ** The minor tick interval *)

Lemma Math_round_inject_Z (z : Z) : Math_round (inject_Z z) = inject_Z z.
Proof.
  unfold Math_round. f_equal. apply Qfloor_unique.
  - lra.
  - rewrite inject_Z_plus. change (inject_Z 1) with 1. lra.
Qed.

(** A canonical interval is 1, 5, or ten times a whole number. *)
Lemma snap_major_tenth (x : Q) :
  0 < x ->
  snap_of (major_of x) == 1 \/ snap_of (major_of x) == 5
  \/ exists z : Z, (1 <= z)%Z /\ snap_of (major_of x) == inject_Z (10 * z).
Proof.
  intros Hx.
  destruct (snap_major_cases x Hx) as (n & k & Hk & _ & _ & Hsnap).
  pose proof (pow10_pos n) as Hp.
  set (v := snap_of (major_of x)) in *. clearbody v.
  destruct (k =? 1)%Z.
  - destruct n as [|n].
    + left. exact Hsnap.
    + right. right. exists (pow10 n). pose proof (pow10_pos n).
      split; [lia|]. rewrite pow10_S in Hsnap. exact Hsnap.
  - destruct (k <=? 5)%Z.
    + destruct n as [|n].
      * right. left. exact Hsnap.
      * right. right. exists (5 * pow10 n)%Z. pose proof (pow10_pos n).
        split; [lia|]. rewrite pow10_S in Hsnap.
        replace (10 * (5 * pow10 n))%Z with (5 * (10 * pow10 n))%Z by lia.
        exact Hsnap.
    + right. right. exists (pow10 n). split; [lia|].
      rewrite pow10_S in Hsnap. exact Hsnap.
Qed.

(** [draw] before the rendering, with [scale.pretty] and [tick.auto] on:
    the tick intervals are stored, then the ends of the scale are moved. *)
Lemma draw_scale_sizes (measureText : string -> Q)
  (c : Scribl.t) (mn mx : Q) :
  Scribl.scale_pretty c = true -> Scribl.tick_auto c = true ->
  Scribl.scale_min c = Some mn -> Scribl.scale_max c = Some mx ->
  exists c2,
    Scribl.draw_scale measureText c = Scribl.draw_scale_ends c2
    /\ Scribl.tick_major_size c2
       = snap_of (major_of (irregularTick_of measureText c mn mx))
    /\ Scribl.tick_minor_size c2
       = Math_round
           (snap_of (major_of (irregularTick_of measureText c mn mx)) / 10)
    /\ Scribl.scale_min c2 = Some mn /\ Scribl.scale_max c2 = Some mx
    /\ Scribl.scale_auto c2 = Scribl.scale_auto c
    /\ Scribl.tick_auto c2 = true.
Proof.
  intros Hp Ha Hmn Hmx.
  unfold Scribl.draw_scale. rewrite Hp, Ha.
  rewrite (determineMajorTick_unfold measureText c mn mx Hmn Hmx).
  cbn [mbind option_bind].
  eexists. split; [reflexivity|].
  split; [reflexivity|]. split; [reflexivity|].
  split; [exact Hmn|]. split; [exact Hmx|]. split; [reflexivity | exact Ha].
Qed.

(** Moving the ends of the scale touches nothing but the ends. *)
Lemma draw_scale_ends_fields (c : Scribl.t) (mn mx : Q) :
  Scribl.scale_min c = Some mn -> Scribl.scale_max c = Some mx ->
  exists c',
    Scribl.draw_scale_ends c = Some c'
    /\ Scribl.tick_major_size c' = Scribl.tick_major_size c
    /\ Scribl.tick_minor_size c' = Scribl.tick_minor_size c
    /\ Scribl.tick_auto c' = Scribl.tick_auto c
    /\ (Scribl.scale_auto c = true ->
        Scribl.scale_min c'
        = Some (mn - Js.rem mn (Scribl.tick_major_size c))
        /\ Scribl.scale_max c'
           = Some (Math_round (mx / Scribl.tick_major_size c + (4 # 10))
                   * Scribl.tick_major_size c)).
Proof.
  intros Hmn Hmx. unfold Scribl.draw_scale_ends.
  destruct (Scribl.scale_auto c).
  - rewrite Hmn. cbn [mbind option_bind].
    change (Scribl.scale_max (Scribl.set_scale_min _ c))
      with (Scribl.scale_max c).
    rewrite Hmx. cbn [mbind option_bind].
    eexists. split; [reflexivity|].
    split; [reflexivity|]. split; [reflexivity|]. split; [reflexivity|].
    intros _. split; reflexivity.
  - exists c. split; [reflexivity|].
    split; [reflexivity|]. split; [reflexivity|]. split; [reflexivity|].
    intros H. discriminate H.
Qed.

(** X17: the minor tick interval chosen by [draw].  With [scale.pretty] and
    [tick.auto] on, on a chart whose scale is set with [max > min], a
    positive width and a positive label width plus buffer, the part of
    [draw] before the rendering stores the value of [determineMajorTick] as
    the major interval, and as the minor interval exactly a tenth of it
    when it is 10 or more, 1 when it is 5, and 0 when it is 1. *)
Theorem draw_scale_minor_tick (measureText : string -> Q)
  (c : Scribl.t) (mn mx : Q) :
  Scribl.scale_pretty c = true -> Scribl.tick_auto c = true ->
  Scribl.scale_min c = Some mn -> Scribl.scale_max c = Some mx ->
  mn < mx -> 0 < Scribl.width c ->
  0 < measureText (Scribl.text_of (Scribl.getTickTextDecimalPlaces c mx))
      + Scribl.scale_font_buffer c ->
  exists c' c1 v,
    Scribl.draw_scale measureText c = Some c'
    /\ Scribl.determineMajorTick measureText c = Some (c1, v)
    /\ Scribl.tick_major_size c' = v
    /\ ((v == 1 /\ Scribl.tick_minor_size c' == 0)
        \/ (v == 5 /\ Scribl.tick_minor_size c' == 1)
        \/ (10 <= v /\ Scribl.tick_minor_size c' * 10 == v)).
Proof.
  intros Hp Ha Hmn Hmx Hd Hw Hl.
  pose proof (irregularTick_pos measureText c mn mx Hd Hw Hl) as Hx.
  pose proof (snap_major_tenth _ Hx) as Hv.
  destruct (draw_scale_sizes measureText c mn mx Hp Ha Hmn Hmx)
    as (c2 & Hdraw & Hmaj & Hmin & Hmn2 & Hmx2 & _ & _).
  destruct (draw_scale_ends_fields c2 mn mx Hmn2 Hmx2)
    as (c' & Hc' & Hmaj' & Hmin' & _ & _).
  rewrite (determineMajorTick_unfold measureText c mn mx Hmn Hmx).
  set (v := snap_of (major_of (irregularTick_of measureText c mn mx))) in *.
  exists c', (Scribl.set_tick_major_size
                (major_of (irregularTick_of measureText c mn mx)) c), v.
  split; [rewrite Hdraw; exact Hc'|]. split; [reflexivity|].
  split; [rewrite Hmaj'; exact Hmaj|].
  rewrite Hmin', Hmin. clearbody v. clear - Hv.
  destruct Hv as [H1 | [H5 | (z & Hz & H10)]].
  - left. split; [exact H1|].
    assert (E : v / 10 == 1 # 10) by (rewrite H1; reflexivity).
    rewrite (Math_round_proper _ _ E). reflexivity.
  - right. left. split; [exact H5|].
    assert (E : v / 10 == 1 # 2) by (rewrite H5; reflexivity).
    rewrite (Math_round_proper _ _ E). reflexivity.
  - right. right.
    assert (Hz' : 1 <= inject_Z z).
    { change 1 with (inject_Z 1). rewrite <- Zle_Qle. exact Hz. }
    rewrite inject_Z_mult in H10. change (inject_Z 10) with 10 in H10.
    assert (E : v / 10 == inject_Z z) by (rewrite H10; field).
    rewrite (Math_round_proper _ _ E), Math_round_inject_Z.
    split; [lra|]. rewrite H10. ring.
Qed.

Lemma draw_scale_minor_tick_witness :
  Scribl.scale_pretty chart_10k = true /\ Scribl.tick_auto chart_10k = true
  /\ Scribl.scale_min chart_10k = Some 0
  /\ Scribl.scale_max chart_10k = Some 10000
  /\ 0 < 10000 /\ 0 < Scribl.width chart_10k
  /\ 0 < five_per_char
           (Scribl.text_of (Scribl.getTickTextDecimalPlaces chart_10k 10000))
         + Scribl.scale_font_buffer chart_10k
  /\ exists c' c1 v,
       Scribl.draw_scale five_per_char chart_10k = Some c'
       /\ Scribl.determineMajorTick five_per_char chart_10k = Some (c1, v)
       /\ Scribl.tick_major_size c' = v
       /\ ((v == 1 /\ Scribl.tick_minor_size c' == 0)
           \/ (v == 5 /\ Scribl.tick_minor_size c' == 1)
           \/ (10 <= v /\ Scribl.tick_minor_size c' * 10 == v)).
Proof.
  split; [reflexivity|]. split; [reflexivity|]. split; [reflexivity|].
  split; [reflexivity|]. split; [reflexivity|]. split; [reflexivity|].
  split; [reflexivity|].
  apply (draw_scale_minor_tick five_per_char chart_10k 0 10000);
    reflexivity.
Defined.

(** ** The labels of the ticks *)

Lemma Math_round_near (y : Q) :
  Math_round y - y <= 1 # 2 /\ y - Math_round y < 1 # 2.
Proof.
  unfold Math_round.
  pose proof (Qfloor_le (y + (1 # 2))) as Hf.
  pose proof (Qlt_floor (y + (1 # 2))) as Hg.
  rewrite inject_Z_plus in Hg. change (inject_Z 1) with 1 in Hg.
  split; lra.
Qed.

(** X18: the labels of whole thousands and millions.  With [tick.auto] on,
    [getTickText] prints a tick at [z] thousand, [1 <= z < 1000], as the
    decimal numeral of [z] followed by "k", and a tick at [z] million,
    [1 <= z], as the numeral of [z] followed by "m". *)
Theorem getTickText_whole_units (c : Scribl.t) (z : Z) :
  Scribl.tick_auto c = true -> (1 <= z)%Z ->
  Scribl.getTickText c (inject_Z (1000000 * z))
  = Scribl.Str (pretty z +:+ "m")
  /\ ((z < 1000)%Z ->
      Scribl.getTickText c (inject_Z (1000 * z))
      = Scribl.Str (pretty z +:+ "k")).
Proof.
  intros Ha Hz. unfold Scribl.getTickText. rewrite Ha. cbn [negb].
  assert (Hq : 1 <= inject_Z z).
  { change 1 with (inject_Z 1). rewrite <- Zle_Qle. exact Hz. }
  split.
  - assert (Hge : geb (inject_Z (1000000 * z)) 1000000 = true).
    { apply geb_ge. rewrite inject_Z_mult.
      change (inject_Z 1000000) with 1000000. lra. }
    rewrite Hge. cbv zeta.
    assert (E1 : inject_Z (1000000 * z) / 1000000 * Math_pow 10 5
                 == inject_Z (100000 * z)).
    { rewrite !inject_Z_mult. unfold Math_pow.
      change (inject_Z 1000000) with 1000000.
      change (inject_Z 100000) with 100000.
      change (Qpower 10 5) with 100000. field. }
    rewrite (Math_round_proper _ _ E1), Math_round_inject_Z.
    assert (E2 : inject_Z (100000 * z) / Math_pow 10 5 == inject_Z z).
    { rewrite inject_Z_mult. unfold Math_pow.
      change (inject_Z 100000) with 100000.
      change (Qpower 10 5) with 100000. field. }
    rewrite (toString_proper _ _ E2), toString_inject_Z. reflexivity.
  - intros Hlt.
    assert (Hq' : inject_Z z < 1000).
    { change 1000 with (inject_Z 1000). rewrite <- Zlt_Qlt. exact Hlt. }
    assert (Hnm : geb (inject_Z (1000 * z)) 1000000 = false).
    { apply geb_nge. rewrite inject_Z_mult.
      change (inject_Z 1000) with 1000. lra. }
    assert (Hge : geb (inject_Z (1000 * z)) 1000 = true).
    { apply geb_ge. rewrite inject_Z_mult.
      change (inject_Z 1000) with 1000. lra. }
    rewrite Hnm, Hge. cbv zeta.
    assert (E1 : inject_Z (1000 * z) / 1000 * Math_pow 10 2
                 == inject_Z (100 * z)).
    { rewrite !inject_Z_mult. unfold Math_pow.
      change (inject_Z 1000) with 1000. change (inject_Z 100) with 100.
      change (Qpower 10 2) with 100. field. }
    rewrite (Math_round_proper _ _ E1), Math_round_inject_Z.
    assert (E2 : inject_Z (100 * z) / Math_pow 10 2 == inject_Z z).
    { rewrite inject_Z_mult. unfold Math_pow.
      change (inject_Z 100) with 100.
      change (Qpower 10 2) with 100. field. }
    rewrite (toString_proper _ _ E2), toString_inject_Z. reflexivity.
Qed.

Lemma getTickText_whole_units_witness :
  Scribl.tick_auto chart_10k = true /\ (1 <= 5)%Z
  /\ Scribl.getTickText chart_10k (inject_Z (1000000 * 5))
     = Scribl.Str (pretty 5%Z +:+ "m")
  /\ ((5 < 1000)%Z ->
      Scribl.getTickText chart_10k (inject_Z (1000 * 5))
      = Scribl.Str (pretty 5%Z +:+ "k")).
Proof.
  split; [reflexivity|]. split; [lia|].
  apply (getTickText_whole_units chart_10k 5); [reflexivity | lia].
Defined.

(** X19: the labels are accurate to the printed digits.  With [tick.auto] on,
    the number [getTickText] prints before "k" for a tick from 1000 up to a
    million is a whole number of hundredths and lies within 1/200 of
    tick/1000; the number it prints before "m" for a tick of a million or
    more is a whole number of hundred-thousandths and lies within 1/200000
    of tick/1000000. *)
Theorem getTickText_accuracy (c : Scribl.t) (tick : Q) :
  Scribl.tick_auto c = true -> 1000 <= tick ->
  exists (n : Z),
    (tick < 1000000 ->
     Scribl.getTickText c tick
     = Scribl.Str (toString (inject_Z n / Math_pow 10 2) +:+ "k")
     /\ Qabs (inject_Z n / 100 - tick / 1000) <= 1 # 200)
    /\ (1000000 <= tick ->
        Scribl.getTickText c tick
        = Scribl.Str (toString (inject_Z n / Math_pow 10 5) +:+ "m")
        /\ Qabs (inject_Z n / 100000 - tick / 1000000) <= 1 # 200000).
Proof.
  intros Ha Ht. unfold Scribl.getTickText. rewrite Ha. cbn [negb].
  destruct (geb tick 1000000) eqn:Hm.
  - apply geb_ge in Hm. cbv zeta.
    exists (Qfloor (tick / 1000000 * Math_pow 10 5 + (1 # 2))).
    split; [intros H; lra|]. intros _. split; [reflexivity|].
    pose proof (Math_round_near (tick / 1000000 * Math_pow 10 5)) as [H1 H2].
    unfold Math_round in H1, H2. unfold Math_pow in *.
    change (Qpower 10 5) with 100000 in *.
    set (r := inject_Z _) in *. clearbody r.
    assert (E1 : tick / 1000000 == tick * (1 # 1000000)) by field.
    assert (E2 : r / 100000 == r * (1 # 100000)) by field.
    rewrite E1 in H1, H2. rewrite E1, E2.
    apply Qabs_Qle_condition. split; lra.
  - apply geb_nge in Hm.
    assert (Hk : geb tick 1000 = true) by (apply geb_ge; exact Ht).
    rewrite Hk. cbv zeta.
    exists (Qfloor (tick / 1000 * Math_pow 10 2 + (1 # 2))).
    split; [|intros H; lra]. intros _. split; [reflexivity|].
    pose proof (Math_round_near (tick / 1000 * Math_pow 10 2)) as [H1 H2].
    unfold Math_round in H1, H2. unfold Math_pow in *.
    change (Qpower 10 2) with 100 in *.
    set (r := inject_Z _) in *. clearbody r.
    assert (E1 : tick / 1000 == tick * (1 # 1000)) by field.
    assert (E2 : r / 100 == r * (1 # 100)) by field.
    rewrite E1 in H1, H2. rewrite E1, E2.
    apply Qabs_Qle_condition. split; lra.
Qed.

Lemma getTickText_accuracy_witness :
  Scribl.tick_auto chart_10k = true /\ 1000 <= 1234
  /\ exists (n : Z),
       (1234 < 1000000 ->
        Scribl.getTickText chart_10k 1234
        = Scribl.Str (toString (inject_Z n / Math_pow 10 2) +:+ "k")
        /\ Qabs (inject_Z n / 100 - 1234 / 1000) <= 1 # 200)
       /\ (1000000 <= 1234 ->
           Scribl.getTickText chart_10k 1234
           = Scribl.Str (toString (inject_Z n / Math_pow 10 5) +:+ "m")
           /\ Qabs (inject_Z n / 100000 - 1234 / 1000000) <= 1 # 200000).
Proof.
  split; [reflexivity|]. split; [vm_compute; discriminate|].
  apply (getTickText_accuracy chart_10k 1234);
    [reflexivity | vm_compute; discriminate].
Defined.

(** ** DrawScale: where the ticks are *)

Lemma rem_not_multiple (a b : Q) :
  ~ b == 0 -> Qeq_bool (Js.rem a b) 0 = false -> ~ is_multiple b a.
Proof.
  intros Hb Hr [k Hk].
  assert (H : Js.rem a b == 0).
  { rewrite (rem_proper _ _ b Hk). apply rem_multiple. exact Hb. }
  apply Qeq_bool_iff in H. congruence.
Qed.

Lemma Qceiling_above_floor (x : Q) :
  ~ x == inject_Z (Qfloor x) -> Qceiling x = (Qfloor x + 1)%Z.
Proof.
  intros Hx. pose proof (Qfloor_le x) as Hf. pose proof (Qlt_floor x) as Hg.
  apply Qceiling_unique.
  - replace (Qfloor x + 1 - 1)%Z with (Qfloor x) by lia.
    apply Qle_lteq in Hf. destruct Hf as [Hf|Hf]; [exact Hf|].
    exfalso. apply Hx. symmetry. exact Hf.
  - apply Qlt_le_weak. exact Hg.
Qed.

(** The first tick, as a multiple of the minor interval. *)
Lemma firstMinorTick_cases (c : Scribl.t) (mn : Q) :
  Scribl.scale_min c = Some mn -> 0 < Scribl.tick_minor_size c ->
  exists first,
    DrawScale.firstMinorTick c = Some first
    /\ ((is_multiple (Scribl.tick_minor_size c) mn
         /\ first
            == inject_Z (Qceiling (mn / Scribl.tick_minor_size c))
               * Scribl.tick_minor_size c)
        \/ (~ is_multiple (Scribl.tick_minor_size c) mn /\ 0 <= mn
            /\ first
               == inject_Z (Qceiling (mn / Scribl.tick_minor_size c))
                  * Scribl.tick_minor_size c)
        \/ (~ is_multiple (Scribl.tick_minor_size c) mn /\ mn < 0
            /\ first
               == inject_Z (Qceiling (mn / Scribl.tick_minor_size c) + 1)
                  * Scribl.tick_minor_size c)).
Proof.
  intros Hmn Hpos. unfold DrawScale.firstMinorTick, DrawScale.rem.
  rewrite Hmn. cbn [mbind option_bind].
  set (minor := Scribl.tick_minor_size c) in *. clearbody minor.
  assert (Hne : ~ minor == 0) by lra.
  destruct (Qeq_bool minor 0) eqn:E0.
  { apply Qeq_bool_iff in E0. contradiction. }
  cbn [mbind option_bind].
  destruct (Qeq_bool (Js.rem mn minor) 0) eqn:Er.
  - exists mn. split; [reflexivity|]. left.
    apply Qeq_bool_iff in Er. unfold Js.rem in Er.
    assert (Hm : mn == inject_Z (trunc (mn / minor)) * minor) by lra.
    split; [exists (trunc (mn / minor)); exact Hm|].
    assert (Hq : mn / minor == inject_Z (trunc (mn / minor))).
    { rewrite Hm at 1. field. exact Hne. }
    rewrite (Qceiling_comp _ _ Hq), Qceiling_Z. exact Hm.
  - eexists. split; [reflexivity|].
    pose proof (rem_not_multiple mn minor Hne Er) as Hnm.
    right. destruct (Qlt_le_dec mn 0) as [Hneg|Hnn].
    + right. split; [exact Hnm|]. split; [exact Hneg|].
      unfold Js.rem. rewrite trunc_nonpos.
      * rewrite inject_Z_plus. change (inject_Z 1) with 1. ring.
      * assert (E : mn / minor == - ((- mn) / minor)) by (field; exact Hne).
        rewrite E. pose proof (Qdiv_nonneg (- mn) minor) as H.
        assert (0 <= - mn / minor) by (apply H; lra). lra.
    + left. split; [exact Hnm|]. split; [exact Hnn|].
      unfold Js.rem. rewrite trunc_nonneg by (apply Qdiv_nonneg; lra).
      rewrite Qceiling_above_floor.
      * rewrite inject_Z_plus. change (inject_Z 1) with 1. ring.
      * intros Hq. apply Hnm. exists (Qfloor (mn / minor)).
        rewrite <- Hq. field. exact Hne.
Qed.

(** The loop from a multiple [k * minor]: it ends, and draws the multiples
    up to [Qfloor (mx / minor)]. *)
Lemma ticks_from_multiples (c : Scribl.t) (offset mx : Q) :
  Scribl.scale_max c = Some mx -> 0 < Scribl.tick_minor_size c ->
  forall (n fuel : nat) (k : Z) (i : Q),
    (n <= fuel)%nat ->
    i == inject_Z k * Scribl.tick_minor_size c ->
    n = Z.to_nat (Qfloor (mx / Scribl.tick_minor_size c) + 1 - k) ->
    exists ticks,
      DrawScale.ticks_from fuel c offset i = Some ticks
      /\ ticks_at_multiples (Scribl.tick_minor_size c) ticks
           (seqZ k (Qfloor (mx / Scribl.tick_minor_size c) + 1 - k))
      /\ Forall (fun t => t = DrawScale.tick_at c offset (DrawScale.value t))
           ticks.
Proof.
  intros Hmx Hpos.
  pose proof (Qfloor_div_bounds mx _ Hpos) as [Hlo Hhi].
  set (minor := Scribl.tick_minor_size c) in *.
  set (F := Qfloor (mx / minor)) in *. clearbody F.
  induction n as [|n IH]; intros fuel k i Hfuel Hi Hn.
  - assert (Hk : (F + 1 <= k)%Z) by lia.
    assert (Hgt : mx < i).
    { rewrite Hi. rewrite Zle_Qle in Hk. rewrite inject_Z_plus in Hk.
      change (inject_Z 1) with 1 in Hk.
      assert (H : (inject_Z F + 1) * minor <= inject_Z k * minor)
        by (apply Qmult_le_compat_r; lra).
      lra. }
    exists []. split.
    + destruct fuel; cbn [DrawScale.ticks_from]; rewrite Hmx;
        apply leb_nle in Hgt; rewrite Hgt; reflexivity.
    + rewrite seqZ_nil by lia. split; constructor.
  - assert (Hk : (k <= F)%Z) by lia.
    assert (Hle : i <= mx).
    { rewrite Hi. rewrite Zle_Qle in Hk.
      assert (H : inject_Z k * minor <= inject_Z F * minor)
        by (apply Qmult_le_compat_r; lra).
      lra. }
    destruct fuel as [|fuel]; [lia|].
    destruct (IH fuel (k + 1)%Z (i + minor)) as (rest & Hrest & Hat & Hst).
    + lia.
    + rewrite Hi, inject_Z_plus. change (inject_Z 1) with 1. ring.
    + lia.
    + exists (DrawScale.tick_at c offset i :: rest). split.
      * cbn [DrawScale.ticks_from]. rewrite Hmx.
        apply leb_le in Hle. rewrite Hle. fold minor. rewrite Hrest.
        reflexivity.
      * assert (Hv : DrawScale.value (DrawScale.tick_at c offset i) = i).
        { unfold DrawScale.tick_at.
          destruct (DrawScale.is_zero _); [reflexivity|].
          destruct (DrawScale.is_zero _); reflexivity. }
        split.
        -- rewrite seqZ_cons by lia. constructor.
           ++ rewrite Hv. exact Hi.
           ++ replace (Z.succ k) with (k + 1)%Z by lia.
              replace (Z.pred (F + 1 - k)) with (F + 1 - (k + 1))%Z by lia.
              exact Hat.
        -- constructor; [rewrite Hv; reflexivity | exact Hst].
Qed.

(** [drawScale] with a positive minor interval: the loop ends, and the
    ticks are the multiples of the interval from the index of the first
    tick on. *)
Lemma drawScale_ticks_from_first (c : Scribl.t) (offset mn mx : Q) :
  Scribl.scale_min c = Some mn -> Scribl.scale_max c = Some mx ->
  0 < Scribl.tick_minor_size c ->
  exists k fuel ticks,
    DrawScale.drawScale fuel c offset = Some ticks
    /\ ticks_at_multiples (Scribl.tick_minor_size c) ticks
         (seqZ k (Qfloor (mx / Scribl.tick_minor_size c) + 1 - k))
    /\ Forall (fun t => t = DrawScale.tick_at c offset (DrawScale.value t))
         ticks
    /\ (((0 <= mn \/ is_multiple (Scribl.tick_minor_size c) mn)
         /\ k = Qceiling (mn / Scribl.tick_minor_size c))
        \/ (mn < 0 /\ ~ is_multiple (Scribl.tick_minor_size c) mn
            /\ k = (Qceiling (mn / Scribl.tick_minor_size c) + 1)%Z)).
Proof.
  intros Hmn Hmx Hpos.
  destruct (firstMinorTick_cases c mn Hmn Hpos) as (first & Hf & Hfirst).
  assert (Hk : exists k,
             first == inject_Z k * Scribl.tick_minor_size c
             /\ (((0 <= mn \/ is_multiple (Scribl.tick_minor_size c) mn)
                  /\ k = Qceiling (mn / Scribl.tick_minor_size c))
                 \/ (mn < 0 /\ ~ is_multiple (Scribl.tick_minor_size c) mn
                     /\ k = (Qceiling (mn / Scribl.tick_minor_size c)
                             + 1)%Z))).
  { destruct Hfirst as [[Hm H] | [[Hnm [Hnn H]] | [Hnm [Hneg H]]]].
    - eexists. split; [exact H|]. left. split; [right; exact Hm|reflexivity].
    - eexists. split; [exact H|]. left. split; [left; exact Hnn|reflexivity].
    - eexists. split; [exact H|]. right.
      split; [exact Hneg|]. split; [exact Hnm | reflexivity]. }
  destruct Hk as (k & Hi & Hcase).
  set (n := Z.to_nat (Qfloor (mx / Scribl.tick_minor_size c) + 1 - k)).
  destruct (ticks_from_multiples c offset mx Hmx Hpos n n k first
              (le_n n) Hi eq_refl) as (ticks & Ht & Hat & Hst).
  exists k, n, ticks. unfold DrawScale.drawScale. rewrite Hf.
  split; [exact Ht|]. split; [exact Hat|]. split; [exact Hst | exact Hcase].
Qed.

(** X20: the ticks of the scale are the multiples of the minor interval.  On
    a chart whose scale is set, with a positive minor interval and a [min]
    that is non-negative or a multiple of the minor interval, the loop of
    [drawScale] ends, and the ticks it draws are, in increasing order,
    exactly at the multiples [k * minor] for [k] from the ceiling of
    [min / minor] to the floor of [max / minor], that is at every multiple
    within [min, max]. *)
Theorem drawScale_ticks_at_multiples (c : Scribl.t) (offset mn mx : Q) :
  Scribl.scale_min c = Some mn -> Scribl.scale_max c = Some mx ->
  0 < Scribl.tick_minor_size c ->
  0 <= mn \/ is_multiple (Scribl.tick_minor_size c) mn ->
  exists fuel ticks,
    DrawScale.drawScale fuel c offset = Some ticks
    /\ ticks_at_multiples (Scribl.tick_minor_size c) ticks
         (seqZ (Qceiling (mn / Scribl.tick_minor_size c))
            (Qfloor (mx / Scribl.tick_minor_size c) + 1
             - Qceiling (mn / Scribl.tick_minor_size c))).
Proof.
  intros Hmn Hmx Hpos Hcase.
  destruct (drawScale_ticks_from_first c offset mn mx Hmn Hmx Hpos)
    as (k & fuel & ticks & Ht & Hat & _ & Hk).
  exists fuel, ticks. split; [exact Ht|].
  destruct Hk as [[_ ->] | [Hneg [Hnm _]]].
  - exact Hat.
  - destruct Hcase as [Hnn | Hm]; [lra | contradiction].
Qed.

Lemma drawScale_ticks_at_multiples_witness :
  Scribl.scale_min chart_10k = Some 0
  /\ Scribl.scale_max chart_10k = Some 10000
  /\ 0 < Scribl.tick_minor_size chart_10k
  /\ (0 <= 0 \/ is_multiple (Scribl.tick_minor_size chart_10k) 0)
  /\ exists fuel ticks,
       DrawScale.drawScale fuel chart_10k 15 = Some ticks
       /\ ticks_at_multiples (Scribl.tick_minor_size chart_10k) ticks
            (seqZ (Qceiling (0 / Scribl.tick_minor_size chart_10k))
               (Qfloor (10000 / Scribl.tick_minor_size chart_10k) + 1
                - Qceiling (0 / Scribl.tick_minor_size chart_10k))).
Proof.
  split; [reflexivity|]. split; [reflexivity|]. split; [reflexivity|].
  split; [left; vm_compute; discriminate|].
  apply (drawScale_ticks_at_multiples chart_10k 15 0 10000);
    [reflexivity | reflexivity | reflexivity |
     left; vm_compute; discriminate].
Defined.

(** X21: a negative [min] that is no multiple of the minor interval loses its
    first tick.  The remainder of a negative [min] is negative, so the loop
    of [drawScale] starts one interval late: the ticks are at the multiples
    [k * minor] from the ceiling of [min / minor] plus one, and the
    multiple at that ceiling, which lies above [min], gets no tick. *)
Theorem drawScale_negative_min_skips (c : Scribl.t) (offset mn mx : Q) :
  Scribl.scale_min c = Some mn -> Scribl.scale_max c = Some mx ->
  0 < Scribl.tick_minor_size c ->
  mn < 0 -> ~ is_multiple (Scribl.tick_minor_size c) mn ->
  exists fuel ticks,
    DrawScale.drawScale fuel c offset = Some ticks
    /\ ticks_at_multiples (Scribl.tick_minor_size c) ticks
         (seqZ (Qceiling (mn / Scribl.tick_minor_size c) + 1)
            (Qfloor (mx / Scribl.tick_minor_size c)
             - Qceiling (mn / Scribl.tick_minor_size c)))
    /\ mn < inject_Z (Qceiling (mn / Scribl.tick_minor_size c))
            * Scribl.tick_minor_size c.
Proof.
  intros Hmn Hmx Hpos Hneg Hnm.
  destruct (drawScale_ticks_from_first c offset mn mx Hmn Hmx Hpos)
    as (k & fuel & ticks & Ht & Hat & _ & Hk).
  exists fuel, ticks. split; [exact Ht|].
  assert (Hkv : k = (Qceiling (mn / Scribl.tick_minor_size c) + 1)%Z).
  { destruct Hk as [[[Hnn | Hm] _] | [_ [_ H]]];
      [lra | contradiction | exact H]. }
  subst k. split.
  - replace (Qfloor (mx / Scribl.tick_minor_size c)
             - Qceiling (mn / Scribl.tick_minor_size c))%Z
      with (Qfloor (mx / Scribl.tick_minor_size c) + 1
            - (Qceiling (mn / Scribl.tick_minor_size c) + 1))%Z by lia.
    exact Hat.
  - set (minor := Scribl.tick_minor_size c) in *.
    pose proof (Qle_ceiling (mn / minor)) as Hc.
    assert (Hle : mn <= inject_Z (Qceiling (mn / minor)) * minor).
    { assert (E : mn == mn / minor * minor) by (field; lra).
      rewrite E at 1. apply Qmult_le_compat_r; [exact Hc | lra]. }
    apply Qle_lteq in Hle. destruct Hle as [Hlt | Heq]; [exact Hlt|].
    exfalso. apply Hnm. exists (Qceiling (mn / minor)). exact Heq.
Qed.

Lemma drawScale_negative_min_skips_witness :
  Scribl.scale_min chart_from_minus_3 = Some (-3)
  /\ Scribl.scale_max chart_from_minus_3 = Some 10
  /\ 0 < Scribl.tick_minor_size chart_from_minus_3
  /\ -3 < 0
  /\ exists fuel ticks,
       DrawScale.drawScale fuel chart_from_minus_3 15 = Some ticks
       /\ ticks_at_multiples (Scribl.tick_minor_size chart_from_minus_3)
            ticks
            (seqZ
               (Qceiling (-3 / Scribl.tick_minor_size chart_from_minus_3)
                + 1)
               (Qfloor (10 / Scribl.tick_minor_size chart_from_minus_3)
                - Qceiling
                    (-3 / Scribl.tick_minor_size chart_from_minus_3)))
       /\ -3 < inject_Z
                 (Qceiling
                    (-3 / Scribl.tick_minor_size chart_from_minus_3))
               * Scribl.tick_minor_size chart_from_minus_3.
Proof.
  split; [reflexivity|]. split; [reflexivity|]. split; [reflexivity|].
  split; [reflexivity|].
  apply (drawScale_negative_min_skips chart_from_minus_3 15 (-3) 10);
    [reflexivity | reflexivity | reflexivity | reflexivity |].
  intros [k Hk]. change (Scribl.tick_minor_size chart_from_minus_3) with 2
    in Hk.
  unfold Qeq in Hk. simpl in Hk. lia.
Defined.

(** ** The scale that [draw] prepares, as [drawScale] draws it *)

Lemma drawScale_zero_minor (c : Scribl.t) (fuel : nat) (offset : Q) :
  Scribl.tick_minor_size c == 0 ->
  DrawScale.drawScale fuel c offset = Some [].
Proof.
  intros H0. unfold DrawScale.drawScale, DrawScale.firstMinorTick.
  destruct (Scribl.scale_min c) as [mn|]; [|reflexivity].
  cbn [mbind option_bind]. unfold DrawScale.rem.
  apply Qeq_bool_iff in H0. rewrite H0. reflexivity.
Qed.

(** A multiple of the major interval is drawn as a major tick, labelled. *)
Lemma tick_at_major (c : Scribl.t) (offset i : Q) :
  0 < Scribl.tick_major_size c ->
  is_multiple (Scribl.tick_major_size c) i ->
  DrawScale.stroke (DrawScale.tick_at c offset i)
  = DrawScale.Major (Scribl.getTickText c i).
Proof.
  intros Hpos [k Hk]. unfold DrawScale.tick_at, DrawScale.rem.
  assert (Hne : ~ Scribl.tick_major_size c == 0) by lra.
  destruct (Qeq_bool (Scribl.tick_major_size c) 0) eqn:E0.
  { apply Qeq_bool_iff in E0. contradiction. }
  assert (Hr : Js.rem i (Scribl.tick_major_size c) == 0).
  { rewrite (rem_proper _ _ _ Hk). apply rem_multiple. exact Hne. }
  apply Qeq_bool_iff in Hr. cbn [DrawScale.is_zero]. rewrite Hr.
  reflexivity.
Qed.

(** X22: an interval of 1 leaves the scale without ticks.  With
    [scale.pretty] and [tick.auto] on, on a chart whose scale is set with
    [max > min], a positive width and a positive label width plus buffer,
    when [determineMajorTick] gives 1,
    [draw] sets the minor interval to [Math.round(1/10)], which is 0; the
    remainder by it is [NaN], the first tick is [NaN], and [drawScale]
    draws no tick and no label at all. *)
Theorem drawScale_unit_major_draws_nothing (measureText : string -> Q)
  (c c1 : Scribl.t) (mn mx v : Q) :
  Scribl.scale_pretty c = true -> Scribl.tick_auto c = true ->
  Scribl.scale_min c = Some mn -> Scribl.scale_max c = Some mx ->
  mn < mx -> 0 < Scribl.width c ->
  0 < measureText (Scribl.text_of (Scribl.getTickTextDecimalPlaces c mx))
      + Scribl.scale_font_buffer c ->
  Scribl.determineMajorTick measureText c = Some (c1, v) -> v == 1 ->
  exists c',
    Scribl.draw_scale measureText c = Some c'
    /\ Scribl.tick_major_size c' == 1
    /\ Scribl.tick_minor_size c' == 0
    /\ forall fuel offset, DrawScale.drawScale fuel c' offset = Some [].
Proof.
  intros Hp Ha Hmn Hmx _ _ _ Hdet Hv.
  rewrite (determineMajorTick_unfold measureText c mn mx Hmn Hmx) in Hdet.
  injection Hdet as _ Hsnap.
  destruct (draw_scale_sizes measureText c mn mx Hp Ha Hmn Hmx)
    as (c2 & Hdraw & Hmaj & Hmin & Hmn2 & Hmx2 & _ & _).
  destruct (draw_scale_ends_fields c2 mn mx Hmn2 Hmx2)
    as (c' & Hc' & Hmaj' & Hmin' & _ & _).
  rewrite Hsnap in Hmaj, Hmin.
  assert (Hzero : Scribl.tick_minor_size c' == 0).
  { rewrite Hmin', Hmin.
    assert (E : v / 10 == 1 # 10) by (rewrite Hv; reflexivity).
    rewrite (Math_round_proper _ _ E). reflexivity. }
  exists c'. split; [rewrite Hdraw; exact Hc'|].
  split; [rewrite Hmaj', Hmaj; exact Hv|]. split; [exact Hzero|].
  intros fuel offset. apply drawScale_zero_minor. exact Hzero.
Qed.

Lemma drawScale_unit_major_draws_nothing_witness :
  exists c1 v,
    Scribl.scale_pretty chart_10 = true /\ Scribl.tick_auto chart_10 = true
    /\ Scribl.scale_min chart_10 = Some 0
    /\ Scribl.scale_max chart_10 = Some 10
    /\ 0 < 10 /\ 0 < Scribl.width chart_10
    /\ 0 < five_per_char
             (Scribl.text_of (Scribl.getTickTextDecimalPlaces chart_10 10))
           + Scribl.scale_font_buffer chart_10
    /\ Scribl.determineMajorTick five_per_char chart_10 = Some (c1, v)
    /\ v == 1
    /\ exists c',
         Scribl.draw_scale five_per_char chart_10 = Some c'
         /\ Scribl.tick_major_size c' == 1
         /\ Scribl.tick_minor_size c' == 0
         /\ forall fuel offset,
              DrawScale.drawScale fuel c' offset = Some [].
Proof.
  exists (Scribl.set_tick_major_size 1 chart_10), (10 # 10).
  split; [reflexivity|]. split; [reflexivity|]. split; [reflexivity|].
  split; [reflexivity|]. split; [reflexivity|]. split; [reflexivity|].
  split; [reflexivity|]. split; [vm_compute; reflexivity|].
  split; [reflexivity|].
  apply (drawScale_unit_major_draws_nothing five_per_char chart_10
           (Scribl.set_tick_major_size 1 chart_10) 0 10 (10 # 10));
    reflexivity.
Defined.

Lemma ticks_at_multiples_lookup (minor : Q) (ticks : list DrawScale.Tick)
  (k n : Z) (i : nat) :
  ticks_at_multiples minor ticks (seqZ k n) -> (Z.of_nat i < n)%Z ->
  exists t, ticks !! i = Some t
            /\ DrawScale.value t == inject_Z (k + Z.of_nat i) * minor.
Proof.
  intros Hat Hi. unfold ticks_at_multiples in Hat.
  exact (Forall2_lookup_r _ _ _ i _ Hat (lookup_seqZ_lt k n i Hi)).
Qed.

(** X23: the scale that [draw] prepares starts and ends with a labelled major
    tick.  With [scale.pretty], [tick.auto] and [scale.auto] on, on a chart
    with [0 <= min < max], a positive width and a positive label width plus
    buffer, when [determineMajorTick] gives another value than 1, the loop
    of [drawScale] on the chart that [draw] prepared ends; its first tick is
    at the new [min], its last tick at the new [max], and both are major
    ticks carrying the label of their value. *)
Theorem drawScale_ends_on_major_ticks (measureText : string -> Q)
  (c c1 : Scribl.t) (offset mn mx v : Q) :
  Scribl.scale_pretty c = true -> Scribl.tick_auto c = true ->
  Scribl.scale_auto c = true ->
  Scribl.scale_min c = Some mn -> Scribl.scale_max c = Some mx ->
  0 <= mn -> mn < mx -> 0 < Scribl.width c ->
  0 < measureText (Scribl.text_of (Scribl.getTickTextDecimalPlaces c mx))
      + Scribl.scale_font_buffer c ->
  Scribl.determineMajorTick measureText c = Some (c1, v) -> ~ v == 1 ->
  exists c' mn' mx' fuel ticks tfirst tlast,
    Scribl.draw_scale measureText c = Some c'
    /\ Scribl.scale_min c' = Some mn' /\ Scribl.scale_max c' = Some mx'
    /\ DrawScale.drawScale fuel c' offset = Some ticks
    /\ head ticks = Some tfirst /\ last ticks = Some tlast
    /\ DrawScale.value tfirst == mn' /\ DrawScale.value tlast == mx'
    /\ DrawScale.stroke tfirst
       = DrawScale.Major (Scribl.getTickText c' (DrawScale.value tfirst))
    /\ DrawScale.stroke tlast
       = DrawScale.Major (Scribl.getTickText c' (DrawScale.value tlast)).
Proof.
  intros Hp Ha Hauto Hmn Hmx Hnn Hd Hw Hl Hdet Hv1.
  pose proof (irregularTick_pos measureText c mn mx Hd Hw Hl) as Hx.
  pose proof (snap_major_tenth _ Hx) as Hv.
  rewrite (determineMajorTick_unfold measureText c mn mx Hmn Hmx) in Hdet.
  injection Hdet as _ Hsnap. rewrite Hsnap in Hv. destruct Hv as [Hv|Hv];
    [contradiction|].
  destruct (draw_scale_sizes measureText c mn mx Hp Ha Hmn Hmx)
    as (c2 & Hdraw & Hmaj & Hmin & Hmn2 & Hmx2 & Hauto2 & _).
  destruct (draw_scale_ends_fields c2 mn mx Hmn2 Hmx2)
    as (c' & Hc' & Hmaj' & Hmin' & _ & Hends).
  rewrite Hauto2 in Hends. destruct (Hends Hauto) as [Hmn' Hmx'].
  rewrite Hsnap in Hmaj, Hmin. rewrite Hmaj in Hmn', Hmx'.
  rewrite Hmaj in Hmaj'. rewrite Hmin in Hmin'. clear Hends Hmaj Hmin.
  (* the major interval is a whole number of minor intervals *)
  assert (Hj : exists j : Z, (1 <= j)%Z /\ 0 < Scribl.tick_minor_size c'
                 /\ v == inject_Z j * Scribl.tick_minor_size c').
  { rewrite Hmin'. destruct Hv as [H5 | (z & Hz & H10)].
    - exists 5%Z. split; [lia|].
      assert (E : v / 10 == 1 # 2) by (rewrite H5; reflexivity).
      rewrite (Math_round_proper _ _ E). split; [reflexivity|].
      rewrite H5. reflexivity.
    - exists 10%Z. split; [lia|].
      rewrite inject_Z_mult in H10. change (inject_Z 10) with 10 in H10.
      assert (E : v / 10 == inject_Z z) by (rewrite H10; field).
      rewrite (Math_round_proper _ _ E), Math_round_inject_Z.
      assert (Hz' : 1 <= inject_Z z).
      { change 1 with (inject_Z 1). rewrite <- Zle_Qle. exact Hz. }
      split; [lra|]. change (inject_Z 10) with 10. exact H10. }
  destruct Hj as (j & Hj & Hpos & Hvj).
  set (minor := Scribl.tick_minor_size c') in *.
  assert (Hvpos : 0 < v).
  { rewrite Hvj. apply Qmult_lt_0_compat; [|exact Hpos].
    change 0 with (inject_Z 0). rewrite <- Zlt_Qlt. lia. }
  (* the new ends are multiples of the major interval *)
  set (a := Qfloor (mn / v)).
  set (b := Qfloor (mx / v + (4 # 10) + (1 # 2))).
  assert (Ha' : mn - Js.rem mn v == inject_Z a * v)
    by (apply rem_floor; [exact Hnn | exact Hvpos]).
  assert (Hb' : Math_round (mx / v + (4 # 10)) * v = inject_Z b * v)
    by reflexivity.
  assert (Hab : (a <= b)%Z).
  { pose proof (Qfloor_le (mn / v)) as H1.
    pose proof (Qlt_floor (mx / v + (4 # 10) + (1 # 2))) as H2.
    fold a in H1. fold b in H2.
    assert (H3 : mn / v < mx / v).
    { apply Qlt_shift_div_l; [exact Hvpos|].
      assert (E : mn / v * v == mn) by (field; lra). rewrite E. exact Hd. }
    assert (H4 : inject_Z a < inject_Z (b + 1)) by lra.
    rewrite <- Zlt_Qlt in H4. lia. }
  assert (Ha0 : (0 <= a)%Z).
  { unfold a. pose proof (Qdiv_nonneg mn v Hnn Hvpos) as H.
    pose proof (Qlt_floor (mn / v)) as H2.
    assert (H4 : inject_Z (-1) < inject_Z (Qfloor (mn / v))).
    { rewrite inject_Z_plus in H2. change (inject_Z 1) with 1 in H2.
      change (inject_Z (-1)) with (-1 # 1). lra. }
    rewrite <- Zlt_Qlt in H4. lia. }
  set (mn' := mn - Js.rem mn v) in *.
  set (mx' := Math_round (mx / v + (4 # 10)) * v) in *.
  assert (Hmna : mn' == inject_Z (a * j) * minor).
  { rewrite Ha', Hvj, inject_Z_mult. ring. }
  assert (Hmxb : mx' == inject_Z (b * j) * minor).
  { rewrite Hb', Hvj, inject_Z_mult. ring. }
  assert (Hmn0 : 0 <= mn').
  { rewrite Ha'. apply Qmult_le_0_compat; [|lra].
    change 0 with (inject_Z 0). rewrite <- Zle_Qle. exact Ha0. }
  assert (Hne : ~ minor == 0) by lra.
  (* the ticks *)
  destruct (drawScale_ticks_from_first c' offset mn' mx' Hmn' Hmx' Hpos)
    as (k & fuel & ticks & Ht & Hat & Hst & Hk).
  fold minor in Hat, Hk.
  assert (Hkv : k = (a * j)%Z).
  { destruct Hk as [[_ ->] | [Hneg _]]; [|lra].
    assert (E : mn' / minor == inject_Z (a * j)) by (rewrite Hmna; field; lra).
    rewrite (Qceiling_comp _ _ E). apply Qceiling_Z. }
  assert (HF : Qfloor (mx' / minor) = (b * j)%Z).
  { assert (E : mx' / minor == inject_Z (b * j)) by (rewrite Hmxb; field; lra).
    rewrite (Qfloor_comp _ _ E). apply Qfloor_Z. }
  rewrite HF in Hat. subst k. clear Hk.
  set (n := (b * j + 1 - a * j)%Z) in *.
  assert (Hn : (1 <= n)%Z) by (unfold n; nia).
  destruct (ticks_at_multiples_lookup minor ticks (a * j) n 0 Hat)
    as (t0 & Ht0 & Hq0); [lia|].
  destruct (ticks_at_multiples_lookup minor ticks (a * j) n
              (Z.to_nat (n - 1)) Hat) as (t1 & Ht1 & Hq1); [lia|].
  assert (Hlen : length ticks = Z.to_nat n).
  { rewrite (Forall2_length _ _ _ Hat). apply length_seqZ. }
  assert (Hval0 : DrawScale.value t0 == mn').
  { rewrite Hq0, Hmna. replace (a * j + Z.of_nat 0)%Z with (a * j)%Z by lia.
    reflexivity. }
  assert (Hval1 : DrawScale.value t1 == mx').
  { rewrite Hq1, Hmxb.
    replace (a * j + Z.of_nat (Z.to_nat (n - 1)))%Z with (b * j)%Z
      by (unfold n; lia).
    reflexivity. }
  assert (Hmajor : forall t (i : nat) (z : Z),
             ticks !! i = Some t -> DrawScale.value t == inject_Z z * v ->
             DrawScale.stroke t
             = DrawScale.Major (Scribl.getTickText c' (DrawScale.value t))).
  { intros t i z Hti Htz.
    pose proof (Forall_lookup_1 _ _ _ _ Hst Hti) as Hshape.
    cbv beta in Hshape. rewrite Hshape at 1.
    apply tick_at_major; rewrite Hmaj'; [exact Hvpos | exists z; exact Htz]. }
  exists c', mn', mx', fuel, ticks, t0, t1.
  split; [rewrite Hdraw; exact Hc'|].
  split; [exact Hmn'|]. split; [exact Hmx'|]. split; [exact Ht|].
  split; [rewrite head_lookup; exact Ht0|].
  split.
  { rewrite last_lookup, Hlen.
    replace (Init.Nat.pred (Z.to_nat n)) with (Z.to_nat (n - 1)) by lia.
    exact Ht1. }
  split; [exact Hval0|]. split; [exact Hval1|].
  split.
  - apply (Hmajor t0 0%nat a Ht0). rewrite Hval0. exact Ha'.
  - apply (Hmajor t1 (Z.to_nat (n - 1)) b Ht1). rewrite Hval1, Hb'.
    reflexivity.
Qed.

Lemma drawScale_ends_on_major_ticks_witness :
  Scribl.scale_pretty chart_10k = true /\ Scribl.tick_auto chart_10k = true
  /\ Scribl.scale_auto chart_10k = true
  /\ Scribl.scale_min chart_10k = Some 0
  /\ Scribl.scale_max chart_10k = Some 10000
  /\ 0 <= 0 /\ 0 < 10000 /\ 0 < Scribl.width chart_10k
  /\ 0 < five_per_char
           (Scribl.text_of (Scribl.getTickTextDecimalPlaces chart_10k 10000))
         + Scribl.scale_font_buffer chart_10k
  /\ Scribl.determineMajorTick five_per_char chart_10k
     = Some (Scribl.set_tick_major_size 500 chart_10k, 1000 # 2)
  /\ ~ (1000 # 2) == 1
  /\ exists c' mn' mx' fuel ticks tfirst tlast,
       Scribl.draw_scale five_per_char chart_10k = Some c'
       /\ Scribl.scale_min c' = Some mn' /\ Scribl.scale_max c' = Some mx'
       /\ DrawScale.drawScale fuel c' 15 = Some ticks
       /\ head ticks = Some tfirst /\ last ticks = Some tlast
       /\ DrawScale.value tfirst == mn' /\ DrawScale.value tlast == mx'
       /\ DrawScale.stroke tfirst
          = DrawScale.Major
              (Scribl.getTickText c' (DrawScale.value tfirst))
       /\ DrawScale.stroke tlast
          = DrawScale.Major
              (Scribl.getTickText c' (DrawScale.value tlast)).
Proof.
  split; [reflexivity|]. split; [reflexivity|]. split; [reflexivity|].
  split; [reflexivity|]. split; [reflexivity|].
  split; [vm_compute; discriminate|]. split; [reflexivity|].
  split; [reflexivity|]. split; [reflexivity|].
  split; [vm_compute; reflexivity|]. split; [vm_compute; discriminate|].
  apply (drawScale_ends_on_major_ticks five_per_char chart_10k
           (Scribl.set_tick_major_size 500 chart_10k) 15 0 10000 (1000 # 2));
    [reflexivity | reflexivity | reflexivity | reflexivity | reflexivity
    | vm_compute; discriminate | reflexivity | reflexivity | reflexivity
    | vm_compute; reflexivity | vm_compute; discriminate].
Defined.

(** ** Utils: wrapping text *)

Lemma substring_length_le (s : string) (n m : nat) :
  (String.length (String.substring n m s) <= m)%nat.
Proof.
  revert n m. induction s as [|a s IH]; intros n m.
  - destruct n, m; simpl; lia.
  - destruct n as [|n].
    + destruct m as [|m]; simpl; [lia|]. specialize (IH 0%nat m). lia.
    + simpl. apply IH.
Qed.

Lemma substring_length (s : string) (n m : nat) :
  (n + m <= String.length s)%nat ->
  String.length (String.substring n m s) = m.
Proof.
  revert n m. induction s as [|a s IH]; intros n m H.
  - simpl in H. assert (n = 0%nat) by lia. assert (m = 0%nat) by lia.
    subst. reflexivity.
  - destruct n as [|n].
    + destruct m as [|m]; [reflexivity|]. simpl. f_equal. apply IH.
      simpl in H. lia.
    + simpl. apply IH. simpl in H. lia.
Qed.

(** [slice(0, max - 1)] and [slice(max, length)] for a column of at least
    one letter. *)
Lemma slice_trunc1 (w : string) (max : Z) :
  (1 <= max)%Z -> (max < Z.of_nat (String.length w))%Z ->
  Utils.slice w 0 (max - 1)
  = String.substring 0 (Z.to_nat (max - 1)) w.
Proof.
  intros H1 H2. unfold Utils.slice.
  destruct (0 <? 0)%Z eqn:E0; [lia|].
  destruct (max - 1 <? 0)%Z eqn:E1; [lia|].
  rewrite Z.min_l by lia. rewrite Z.min_l by lia.
  rewrite Z.max_l by lia. f_equal. lia.
Qed.

Lemma slice_trunc2 (w : string) (max : Z) :
  (1 <= max)%Z -> (max < Z.of_nat (String.length w))%Z ->
  Utils.slice w max (Z.of_nat (String.length w))
  = String.substring (Z.to_nat max)
      (String.length w - Z.to_nat max) w.
Proof.
  intros H1 H2. unfold Utils.slice.
  destruct (max <? 0)%Z eqn:E0; [lia|].
  destruct (Z.of_nat (String.length w) <? 0)%Z eqn:E1; [lia|].
  rewrite Z.min_l by lia. rewrite Z.min_l by lia.
  rewrite Z.max_l by lia. f_equal. lia.
Qed.

Lemma wrap_lookup (pre : list string) (w : string) (rest : list string) :
  (pre ++ w :: rest) !! length pre = Some w.
Proof. apply list_lookup_middle. reflexivity. Qed.

Lemma wrap_lookup_end (pre : list string) :
  (pre ++ []) !! length pre = None.
Proof. rewrite app_nil_r. apply lookup_ge_None. lia. Qed.

Lemma wrap_next (pre : list string) (w : string) (rest : list string) :
  pre ++ w :: rest = (pre ++ [w]) ++ rest
  /\ S (length pre) = length (pre ++ [w]).
Proof.
  split; [rewrite <- app_assoc; reflexivity|].
  rewrite length_app. simpl. lia.
Qed.

Lemma wrap_splice (pre : list string) (w t : string) (rest : list string) :
  Utils.splice_in (pre ++ w :: rest) (length pre + 1) t
  = (pre ++ [w]) ++ t :: rest.
Proof.
  unfold Utils.splice_in.
  destruct (wrap_next pre w rest) as [E El]. rewrite E.
  replace (length pre + 1)%nat with (length (pre ++ [w])) by lia.
  rewrite take_app_length, drop_app_length. reflexivity.
Qed.

Lemma string_eqb_empty (s : string) :
  String.eqb s "" = true -> s = EmptyString.
Proof. intros H. apply String.eqb_eq in H. exact H. Qed.

(** The loop for a column of at least one letter: it ends within the fuel
    that the words still to place ask for, counts its lines, and keeps
    every line within [max + 1] characters. *)
Lemma wrap_loop_fits (max : Z) :
  (1 <= max)%Z ->
  forall (fuel : nat) (ws pre : list string) (temp : string)
         (lines : list string),
    (2 * words_weight ws + (if String.eqb temp "" then 0 else 1) <= fuel)%nat ->
    line_fits max temp -> Forall (line_fits max) lines ->
    exists lines' temp',
      Utils.wrap_loop fuel max (length pre) (pre ++ ws) temp lines
        (length lines)
      = Some (lines', temp', length lines')
      /\ Forall (line_fits max) lines' /\ line_fits max temp'.
Proof.
  intros Hmax. induction fuel as [|fuel IH];
    intros ws pre temp lines Hfuel Htemp Hlines.
  - destruct ws as [|w rest]; [|simpl in Hfuel; lia].
    exists lines, temp. cbn [Utils.wrap_loop]. rewrite wrap_lookup_end.
    split; [reflexivity|]. split; assumption.
  - destruct ws as [|w rest].
    { exists lines, temp. cbn [Utils.wrap_loop]. rewrite wrap_lookup_end.
      split; [reflexivity|]. split; assumption. }
    cbn [Utils.wrap_loop]. rewrite wrap_lookup.
    destruct (wrap_next pre w rest) as [E El].
    cbn [words_weight foldr] in Hfuel. fold (words_weight rest) in Hfuel.
    destruct (Z.of_nat (String.length w + String.length temp) <=? max)%Z
      eqn:Efit.
    + apply Z.leb_le in Efit. rewrite E, El. apply IH.
      * destruct (String.eqb (temp +:+ (" " +:+ w)) ""); lia.
      * unfold line_fits. rewrite !string_app_length. simpl. lia.
      * exact Hlines.
    + apply Z.leb_gt in Efit.
      destruct (String.eqb temp "") eqn:Etemp.
      * apply string_eqb_empty in Etemp. subst temp. simpl in Efit.
        rewrite wrap_splice, El.
        replace (S (length lines)) with (length (lines ++ [EmptyString
                   +:+ ((" " +:+ Utils.slice w 0 (max - 1)) +:+ "-")]))
          by (rewrite length_app; simpl; lia).
        apply IH.
        -- change (String.eqb "" "") with true; cbv iota.
           cbn [words_weight foldr]. fold (words_weight rest).
           rewrite slice_trunc2 by lia.
           pose proof (substring_length_le w (Z.to_nat max)
                         (String.length w - Z.to_nat max)) as Hl.
           lia.
        -- unfold line_fits. simpl. lia.
        -- apply Forall_app. split; [exact Hlines|].
           constructor; [|constructor].
           unfold line_fits. rewrite slice_trunc1 by lia.
           rewrite !string_app_length. simpl.
           pose proof (substring_length_le w 0 (Z.to_nat (max - 1))) as Hl.
           lia.
      * replace (S (length lines)) with (length (lines ++ [temp]))
          by (rewrite length_app; simpl; lia).
        apply (IH (w :: rest)).
        -- change (String.eqb "" "") with true; cbv iota.
           cbn [words_weight foldr]. fold (words_weight rest). lia.
        -- unfold line_fits. simpl. lia.
        -- apply Forall_app. split; [exact Hlines|].
           constructor; [exact Htemp | constructor].
Qed.

(** X24: for a column of at least one letter [ScriblWrapLines] ends, whatever
    the text; the count it returns is the number of lines, there is at
    least one line, and no line is longer than [max + 1] characters, the
    column and the blank that leads every line. *)
Theorem ScriblWrapLines_lines_fit (max : Z) (text : string) :
  (1 <= max)%Z ->
  exists fuel lines,
    Utils.ScriblWrapLines fuel max text = Some (lines, length lines)
    /\ lines <> [] /\ Forall (line_fits max) lines.
Proof.
  intros Hmax.
  destruct (wrap_loop_fits max Hmax
              (2 * words_weight (Utils.split_space text))
              (Utils.split_space text) [] EmptyString [])
    as (lines & temp & Hloop & Hl & Ht).
  - change (String.eqb "" "") with true; cbv iota. lia.
  - unfold line_fits. simpl. lia.
  - constructor.
  - exists (2 * words_weight (Utils.split_space text))%nat, (lines ++ [temp]).
    unfold Utils.ScriblWrapLines.
    change (Utils.wrap_loop _ max 0 (Utils.split_space text) "" [] 0)
      with (Utils.wrap_loop (2 * words_weight (Utils.split_space text)) max
              (length (@nil string)) ([] ++ Utils.split_space text) "" []
              (length (@nil string))).
    rewrite Hloop. cbn [mbind option_bind].
    split; [rewrite length_app; simpl; f_equal; f_equal; lia|].
    split; [destruct lines; discriminate|].
    apply Forall_app. split; [exact Hl|]. constructor; [exact Ht|constructor].
Qed.

Lemma ScriblWrapLines_lines_fit_witness :
  (1 <= 5)%Z
  /\ exists fuel lines,
       Utils.ScriblWrapLines fuel 5 "the gene abcdefgh"
       = Some (lines, length lines)
       /\ lines <> [] /\ Forall (line_fits 5) lines.
Proof.
  split; [lia|].
  apply (ScriblWrapLines_lines_fit 5 "the gene abcdefgh"). lia.
Defined.

Lemma split_space_cons (text : string) :
  exists w ws, Utils.split_space text = w :: ws.
Proof.
  destruct text as [|ch rest]; [exists EmptyString, []; reflexivity|].
  cbn [Utils.split_space].
  destruct (String.eqb (String ch EmptyString) " "); [eauto|].
  destruct (Utils.split_space rest); eauto.
Qed.

Lemma string_app_assoc (a b c : string) :
  ((a +:+ b) +:+ c = a +:+ (b +:+ c))%string.
Proof.
  induction a as [|x a IH]; [reflexivity|].
  unfold String.append; fold String.append. f_equal. exact IH.
Qed.

Lemma glue_app (l1 l2 : list string) :
  glue (l1 ++ l2) = (glue l1 +:+ glue l2)%string.
Proof.
  induction l1 as [|x l1 IH]; [reflexivity|].
  cbn [app glue foldr]. fold (glue (l1 ++ l2)). fold (glue l1).
  rewrite IH, string_app_assoc. reflexivity.
Qed.

(** Every word after a blank, one after the other: a blank, then the
    text. *)
Lemma glue_split_space (text : string) :
  glue (map (String.append " ") (Utils.split_space text))
  = (" " +:+ text)%string.
Proof.
  induction text as [|ch rest IH]; [reflexivity|].
  cbn [Utils.split_space].
  destruct (String.eqb (String ch EmptyString) " ") eqn:E.
  - apply String.eqb_eq in E. injection E as ->.
    cbn [map glue foldr].
    fold (glue (map (String.append " ") (Utils.split_space rest))).
    rewrite IH. reflexivity.
  - destruct (Utils.split_space rest) as [|w ws] eqn:Es.
    { destruct (split_space_cons rest) as (w & ws & H). congruence. }
    cbn [map glue foldr] in IH |- *.
    fold (glue (map (String.append " ") ws)) in IH |- *.
    unfold String.append in IH |- *; fold String.append in IH |- *.
    injection IH as IH. rewrite IH. reflexivity.
Qed.

(** The loop when every word still to place fits the column: no word is
    broken, and the lines hold the words as they were. *)
Lemma wrap_loop_words_fit (max : Z) :
  forall (fuel : nat) (ws pre : list string) (temp : string)
         (lines : list string),
    (2 * words_weight ws + (if String.eqb temp "" then 0 else 1) <= fuel)%nat ->
    Forall (fun w => (Z.of_nat (String.length w) <= max)%Z) ws ->
    exists lines' temp',
      Utils.wrap_loop fuel max (length pre) (pre ++ ws) temp lines
        (length lines)
      = Some (lines', temp', length lines')
      /\ glue (lines' ++ [temp'])
         = (glue (lines ++ [temp])
            +:+ glue (map (String.append " ") ws))%string.
Proof.
  induction fuel as [|fuel IH]; intros ws pre temp lines Hfuel Hws.
  - destruct ws as [|w rest]; [|simpl in Hfuel; lia].
    exists lines, temp. cbn [Utils.wrap_loop]. rewrite wrap_lookup_end.
    split; [reflexivity|]. cbn [map glue foldr].
    rewrite string_app_nil_r. reflexivity.
  - destruct ws as [|w rest].
    { exists lines, temp. cbn [Utils.wrap_loop]. rewrite wrap_lookup_end.
      split; [reflexivity|]. cbn [map glue foldr].
      rewrite string_app_nil_r. reflexivity. }
    cbn [Utils.wrap_loop]. rewrite wrap_lookup.
    destruct (wrap_next pre w rest) as [E El].
    cbn [words_weight foldr] in Hfuel. fold (words_weight rest) in Hfuel.
    apply Forall_cons in Hws. destruct Hws as [Hw Hrest].
    destruct (Z.of_nat (String.length w + String.length temp) <=? max)%Z
      eqn:Efit.
    + rewrite E, El.
      destruct (IH rest (pre ++ [w]) (temp +:+ (" " +:+ w))%string lines)
        as (lines' & temp' & Hloop & Hglue).
      * destruct (String.eqb (temp +:+ (" " +:+ w)) ""); lia.
      * exact Hrest.
      * exists lines', temp'. split; [exact Hloop|]. rewrite Hglue.
        rewrite !glue_app. cbn [map glue foldr].
        fold (glue (map (String.append " ") rest)).
        rewrite !string_app_nil_r, !string_app_assoc. reflexivity.
    + apply Z.leb_gt in Efit.
      destruct (String.eqb temp "") eqn:Etemp.
      * apply string_eqb_empty in Etemp. subst temp. simpl in Efit. lia.
      * replace (S (length lines)) with (length (lines ++ [temp]))
          by (rewrite length_app; simpl; lia).
        destruct (IH (w :: rest) pre EmptyString (lines ++ [temp]))
          as (lines' & temp' & Hloop & Hglue).
        -- change (String.eqb "" "") with true; cbv iota.
           cbn [words_weight foldr]. fold (words_weight rest). lia.
        -- constructor; assumption.
        -- exists lines', temp'. split; [exact Hloop|]. rewrite Hglue.
           rewrite !glue_app. cbn [glue foldr].
           rewrite !string_app_nil_r. reflexivity.
Qed.

(** X25: a text whose words all fit the column loses nothing.  When no word
    of the text is longer than [max], [ScriblWrapLines] ends, and its
    lines put one after the other are the text after one blank: the text
    is only cut at blanks, each blank leading the next word. *)
Theorem ScriblWrapLines_keeps_fitting_words (max : Z) (text : string) :
  Forall (fun w => (Z.of_nat (String.length w) <= max)%Z)
    (Utils.split_space text) ->
  exists fuel lines,
    Utils.ScriblWrapLines fuel max text = Some (lines, length lines)
    /\ glue lines = (" " +:+ text)%string.
Proof.
  intros Hws.
  destruct (wrap_loop_words_fit max
              (2 * words_weight (Utils.split_space text))
              (Utils.split_space text) [] EmptyString [])
    as (lines & temp & Hloop & Hglue).
  - change (String.eqb "" "") with true; cbv iota. lia.
  - exact Hws.
  - exists (2 * words_weight (Utils.split_space text))%nat, (lines ++ [temp]).
    unfold Utils.ScriblWrapLines.
    change (Utils.wrap_loop _ max 0 (Utils.split_space text) "" [] 0)
      with (Utils.wrap_loop (2 * words_weight (Utils.split_space text)) max
              (length (@nil string)) ([] ++ Utils.split_space text) "" []
              (length (@nil string))).
    rewrite Hloop. cbn [mbind option_bind].
    split; [rewrite length_app; simpl; f_equal; f_equal; lia|].
    rewrite Hglue, glue_split_space. reflexivity.
Qed.

Lemma ScriblWrapLines_keeps_fitting_words_witness :
  Forall (fun w => (Z.of_nat (String.length w) <= 5)%Z)
    (Utils.split_space "the gene of a fly")
  /\ exists fuel lines,
       Utils.ScriblWrapLines fuel 5 "the gene of a fly"
       = Some (lines, length lines)
       /\ glue lines = (" " +:+ "the gene of a fly")%string.
Proof.
  assert (H : Forall (fun w => (Z.of_nat (String.length w) <= 5)%Z)
                (Utils.split_space "the gene of a fly")).
  { repeat constructor; simpl; lia. }
  split; [exact H|].
  apply (ScriblWrapLines_keeps_fitting_words 5 "the gene of a fly" H).
Defined.

(** With no room at all, what is cut off a word is never empty. *)
Lemma slice_trunc2_no_room (w : string) (max : Z) :
  (max <= 0)%Z -> (1 <= String.length w)%nat ->
  (1 <= String.length
          (Utils.slice w max (Z.of_nat (String.length w))))%nat.
Proof.
  intros Hmax Hw. unfold Utils.slice.
  set (len := Z.of_nat (String.length w)).
  assert (Hlen : (1 <= len)%Z) by (unfold len; lia).
  destruct (len <? 0)%Z eqn:E1; [lia|].
  rewrite (Z.min_l len len) by lia.
  set (from := if (max <? 0)%Z then Z.max (len + max) 0 else Z.min max len).
  assert (Hfrom : (0 <= from < len)%Z).
  { unfold from. destruct (max <? 0)%Z eqn:E0; lia. }
  rewrite substring_length; unfold len in *; lia.
Qed.

(** The loop with no room, at a word that is not empty and with nothing
    on the current line: the word is cut, what is cut off is placed next,
    and the loop is back where it was. *)
Lemma wrap_loop_no_room (max : Z) :
  (max <= 0)%Z ->
  forall (fuel : nat) (pre : list string) (w : string)
         (rest lines : list string) (linecount : nat),
    (1 <= String.length w)%nat ->
    Utils.wrap_loop fuel max (length pre) (pre ++ w :: rest) "" lines
      linecount
    = None.
Proof.
  intros Hmax. induction fuel as [|fuel IH];
    intros pre w rest lines linecount Hw.
  - cbn [Utils.wrap_loop]. rewrite wrap_lookup. reflexivity.
  - cbn [Utils.wrap_loop]. rewrite wrap_lookup.
    destruct (Z.of_nat (String.length w + String.length "") <=? max)%Z
      eqn:Efit.
    { apply Z.leb_le in Efit. lia. }
    change (String.eqb "" "") with true. cbv iota zeta.
    destruct (wrap_next pre w rest) as [_ El].
    rewrite wrap_splice, El. apply IH.
    apply slice_trunc2_no_room; assumption.
Qed.

(** X26: without room, [ScriblWrapLines] never returns.  For a column of
    zero or fewer letters and a text that starts with another character
    than a blank, the loop is still running after any number of
    iterations: the first word never fits, and what [slice(max, length)]
    cuts off it is placed next and is never empty. *)
Theorem ScriblWrapLines_no_room_hangs (max : Z) (ch : Ascii.ascii)
  (rest : string) :
  (max <= 0)%Z -> String ch EmptyString <> " "%string ->
  forall fuel, Utils.ScriblWrapLines fuel max (String ch rest) = None.
Proof.
  intros Hmax Hch fuel. unfold Utils.ScriblWrapLines.
  assert (Hw : exists w ws, Utils.split_space (String ch rest) = w :: ws
                            /\ (1 <= String.length w)%nat).
  { cbn [Utils.split_space].
    destruct (String.eqb (String ch EmptyString) " ") eqn:E.
    { apply String.eqb_eq in E. contradiction. }
    destruct (Utils.split_space rest) as [|w ws].
    - eexists _, _. split; [reflexivity|]. simpl. lia.
    - eexists _, _. split; [reflexivity|]. simpl. lia. }
  destruct Hw as (w & ws & -> & Hw).
  change (Utils.wrap_loop fuel max 0 (w :: ws) "" [] 0)
    with (Utils.wrap_loop fuel max (length (@nil string)) ([] ++ w :: ws) ""
            [] 0).
  rewrite (wrap_loop_no_room max Hmax fuel [] w ws [] 0%nat Hw).
  reflexivity.
Qed.

Lemma ScriblWrapLines_no_room_hangs_witness :
  (0 <= 0)%Z /\ "a"%string <> " "%string
  /\ forall fuel, Utils.ScriblWrapLines fuel 0 "a gene" = None.
Proof.
  split; [lia|]. split; [discriminate|].
  apply (ScriblWrapLines_no_room_hangs 0); [lia | discriminate].
Defined.

(** X27: a word longer than the column loses a character where it is broken.
    For a column of [m >= 1] letters and a single word of more than [m]
    and at most [2 m] characters, [ScriblWrapLines] returns two lines: a
    blank, the first [m - 1] characters of the word and a hyphen; then a
    blank and the word from index [m] on.  The character at index [m - 1]
    is in neither. *)
Theorem ScriblWrapLines_breaks_long_word (m : nat) (w : string) :
  (1 <= m)%nat -> Utils.split_space w = [w] ->
  (m < String.length w)%nat -> (String.length w <= 2 * m)%nat ->
  exists fuel,
    Utils.ScriblWrapLines fuel (Z.of_nat m) w
    = Some ([(" " +:+ String.substring 0 (m - 1) w +:+ "-")%string;
             (" " +:+ String.substring m (String.length w - m) w)%string],
            2%nat).
Proof.
  intros Hm Hsingle Hlong Hshort. exists 2%nat.
  unfold Utils.ScriblWrapLines. rewrite Hsingle.
  cbn [Utils.wrap_loop lookup list_lookup].
  destruct (Z.of_nat (String.length w + String.length "") <=? Z.of_nat m)%Z
    eqn:Efit.
  { apply Z.leb_le in Efit. simpl in Efit. lia. }
  change (String.eqb "" "") with true. cbv iota zeta.
  rewrite slice_trunc1, slice_trunc2 by lia.
  replace (Z.to_nat (Z.of_nat m - 1)) with (m - 1)%nat by lia.
  rewrite Nat2Z.id.
  change (Utils.splice_in [w] (0 + 1) ?t) with [w; t].
  cbn [lookup list_lookup].
  set (trunc2 := String.substring m (String.length w - m) w).
  assert (Hl2 : (String.length trunc2 <= m)%nat).
  { pose proof (substring_length_le w m (String.length w - m)).
    unfold trunc2. lia. }
  destruct (Z.of_nat (String.length trunc2 + String.length "")
            <=? Z.of_nat m)%Z eqn:Efit2.
  2:{ apply Z.leb_gt in Efit2. simpl in Efit2. lia. }
  cbn [mbind option_bind app]. 
  unfold String.append at 1; fold String.append.
  rewrite string_app_assoc. reflexivity.
Qed.

Lemma ScriblWrapLines_breaks_long_word_witness :
  (1 <= 5)%nat /\ Utils.split_space "abcdefgh" = ["abcdefgh"%string]
  /\ (5 < String.length "abcdefgh")%nat
  /\ (String.length "abcdefgh" <= 2 * 5)%nat
  /\ exists fuel,
       Utils.ScriblWrapLines fuel (Z.of_nat 5) "abcdefgh"
       = Some ([(" " +:+ String.substring 0 (5 - 1) "abcdefgh"
                 +:+ "-")%string;
                (" " +:+ String.substring 5 (String.length "abcdefgh" - 5)
                           "abcdefgh")%string],
               2%nat).
Proof.
  split; [lia|]. split; [reflexivity|]. split; [simpl; lia|].
  split; [simpl; lia|].
  apply (ScriblWrapLines_breaks_long_word 5 "abcdefgh");
    [lia | reflexivity | simpl; lia | simpl; lia].
Defined.

(** ** Utils: ids *)

Lemma string_app_inj_l (p a b : string) :
  (p +:+ a)%string = (p +:+ b)%string -> a = b.
Proof.
  induction p as [|x p IH]; intros H; [exact H|].
  unfold String.append in H; fold String.append in H.
  injection H as H. apply IH. exact H.
Qed.

(** The counter after a call does not depend on the prefix. *)
Lemma uniqueId_counter (prefix : option string) (n : N) :
  snd (Utils._uniqueId prefix n) = (n + 1)%N.
Proof.
  unfold Utils._uniqueId. destruct prefix as [p|]; [|reflexivity].
  destruct (String.eqb p ""); reflexivity.
Qed.

Lemma ids_from_lookup (prefixes : list (option string)) (n : N) (i : nat)
  (p : option string) :
  prefixes !! i = Some p ->
  ids_from prefixes n !! i = Some (fst (Utils._uniqueId p (n + N.of_nat i))).
Proof.
  revert n i. induction prefixes as [|q rest IH]; intros n i H.
  - discriminate H.
  - cbn [ids_from].
    pose proof (uniqueId_counter q n) as Hc.
    destruct (Utils._uniqueId q n) as [id n'] eqn:E. cbn [snd] in Hc.
    subst n'. destruct i as [|i].
    + injection H as ->. cbn [lookup list_lookup].
      rewrite N.add_0_r, E. reflexivity.
    + change ((q :: rest) !! S i) with (rest !! i) in H.
      change ((id :: ids_from rest (n + 1)%N) !! S i)
        with (ids_from rest (n + 1)%N !! i).
      rewrite (IH (n + 1)%N i H). do 3 f_equal. lia.
Qed.

Lemma uniqueId_inj (p : option string) (n m : N) :
  fst (Utils._uniqueId p n) = fst (Utils._uniqueId p m) -> n = m.
Proof.
  unfold Utils._uniqueId. destruct p as [p|].
  - destruct (String.eqb p ""); cbn [fst]; intros H.
    + injection H as H. exact H.
    + injection H as H. apply string_app_inj_l in H.
      apply (inj pretty) in H. exact H.
  - cbn [fst]. intros H. injection H as H. exact H.
Qed.

(** X28: two calls of [_uniqueId] with the same prefix never give the same
    id.  In any sequence of calls, from any value of the counter, the ids of
    two different calls that were given the same prefix (or both none)
    differ, whatever the prefixes of the calls between them. *)
Theorem uniqueId_distinct (prefixes : list (option string)) (idCounter : N)
  (i j : nat) (a b : Utils.Id) :
  i <> j ->
  prefixes !! i = prefixes !! j ->
  ids_from prefixes idCounter !! i = Some a ->
  ids_from prefixes idCounter !! j = Some b ->
  a <> b.
Proof.
  intros Hij Hp Ha Hb Hab.
  assert (Hlen : length (ids_from prefixes idCounter) = length prefixes).
  { clear. revert idCounter.
    induction prefixes as [|q rest IH]; intros n; [reflexivity|].
    cbn [ids_from]. destruct (Utils._uniqueId q n) as [id n'].
    cbn [length]. rewrite IH. reflexivity. }
  destruct (prefixes !! i) as [p|] eqn:Ei.
  - symmetry in Hp.
    rewrite (ids_from_lookup prefixes idCounter i p Ei) in Ha.
    rewrite (ids_from_lookup prefixes idCounter j p Hp) in Hb.
    injection Ha as Ha. injection Hb as Hb. subst a b.
    apply uniqueId_inj in Hab. lia.
  - apply lookup_ge_None in Ei. apply lookup_lt_Some in Ha. lia.
Qed.

Lemma uniqueId_distinct_witness :
  0%nat <> 2%nat
  /\ [Some "track"; Some "lane"; Some "track"]%string !! 0%nat
     = [Some "track"; Some "lane"; Some "track"]%string !! 2%nat
  /\ ids_from [Some "track"; Some "lane"; Some "track"]%string 0 !! 0%nat
     = Some (Utils.IdString "track0")
  /\ ids_from [Some "track"; Some "lane"; Some "track"]%string 0 !! 2%nat
     = Some (Utils.IdString "track2")
  /\ Utils.IdString "track0" <> Utils.IdString "track2".
Proof.
  split; [lia|]. split; [reflexivity|]. split; [reflexivity|].
  split; [reflexivity|].
  apply (uniqueId_distinct [Some "track"; Some "lane"; Some "track"]%string
           0 0 2);
    [lia | reflexivity | reflexivity | reflexivity].
Defined.

(** ** CollapseRenderer: what the blocks drawn cover *)

Lemma sort_insert_by_position (g : Glyph.t) (l : list Glyph.t) :
  by_position l -> by_position (Track.sort_insert g l).
Proof.
  induction l as [|h rest IH]; intros Hl.
  - simpl. split; [constructor | exact I].
  - cbn [Track.sort_insert]. destruct Hl as [Hh Hrest].
    destruct (ltb (Glyph.position g) (Glyph.position h)) eqn:E.
    + apply ltb_lt in E. cbn [by_position]. split; [|split; assumption].
      constructor; [lra|].
      eapply Forall_impl; [exact Hh|]. intros x Hx. cbv beta in Hx. lra.
    + apply ltb_nlt in E. cbn [by_position]. split; [|apply IH; exact Hrest].
      rewrite sort_insert_perm. constructor; [exact E | exact Hh].
Qed.

Lemma sort_by_position_sorted (l : list Glyph.t) :
  by_position (Track.sort_by_position l).
Proof.
  unfold Track.sort_by_position.
  assert (H : forall acc,
             by_position acc ->
             by_position (foldl (fun acc g => Track.sort_insert g acc) acc l)).
  { induction l as [|g l IH]; intros acc Hacc; [exact Hacc|].
    cbn [foldl]. apply IH. apply sort_insert_by_position. exact Hacc. }
  apply H. exact I.
Qed.

Lemma Math_max_bounds (a b : Q) : a <= Math_max a b /\ b <= Math_max a b.
Proof.
  unfold Math_max. destruct (Qle_bool a b) eqn:E.
  - apply Qle_bool_iff in E. lra.
  - assert (H : ~ a <= b) by (intros H; apply Qle_bool_iff in H; congruence).
    lra.
Qed.

(** The runs of the scan: the first one starts where the current run
    starts, and each ends before the next one starts. *)
Lemma merge_runs_apart (rest : list Glyph.t) :
  forall cur,
    runs_apart (merge_runs cur rest)
    /\ exists r runs, merge_runs cur rest = r :: runs
                      /\ runStart r = runStart cur
                      /\ runEnd cur <= runEnd r.
Proof.
  induction rest as [|f rest IH]; intros cur.
  - cbn [merge_runs]. split; [exact I|].
    exists cur, []. split; [reflexivity|]. split; [reflexivity | lra].
  - cbn [merge_runs]. destruct (leb (Glyph.position f) (runEnd cur)) eqn:E.
    + destruct (IH (extend_run cur f)) as [Hap (r & runs & Hr & Hs & He)].
      split; [exact Hap|]. exists r, runs. split; [exact Hr|].
      split; [exact Hs|]. cbn [extend_run runEnd] in He.
      pose proof (Math_max_bounds (runEnd cur) (Glyph.getEnd f)). lra.
    + apply leb_nle in E.
      destruct (IH (run_of f)) as [Hap (r & runs & Hr & Hs & He)].
      split.
      * rewrite Hr in Hap |- *.
        change (runEnd cur < runStart r /\ runs_apart (r :: runs)).
        split; [|exact Hap]. rewrite Hs. exact E.
      * exists cur, (merge_runs (run_of f) rest).
        split; [reflexivity|]. split; [reflexivity | lra].
Qed.

(** On features in the order of their positions, every feature scanned
    lies within one of the runs. *)
Lemma merge_runs_cover (rest : list Glyph.t) :
  forall cur,
    by_position rest ->
    Forall (fun f => runStart cur <= Glyph.position f) rest ->
    forall f, f ∈ rest ->
      exists r, r ∈ merge_runs cur rest
                /\ runStart r <= Glyph.position f
                /\ Glyph.getEnd f <= runEnd r.
Proof.
  induction rest as [|h rest IH]; intros cur Hsorted Hlo f Hf.
  - apply elem_of_nil in Hf. contradiction.
  - destruct Hsorted as [Hh Hsorted].
    apply Forall_cons in Hlo. destruct Hlo as [Hloh Hlo].
    cbn [merge_runs]. destruct (leb (Glyph.position h) (runEnd cur)) eqn:E.
    + apply elem_of_cons in Hf. destruct Hf as [-> | Hf].
      * destruct (merge_runs_apart rest (extend_run cur h))
          as [_ (r & runs & Hr & Hs & He)].
        exists r. rewrite Hr. split; [apply elem_of_cons; left; reflexivity|].
        rewrite Hs. cbn [extend_run runStart runEnd] in He |- *.
        pose proof (Math_max_bounds (runEnd cur) (Glyph.getEnd h)).
        split; [exact Hloh | lra].
      * apply (IH (extend_run cur h) Hsorted Hlo f Hf).
    + apply elem_of_cons in Hf. destruct Hf as [-> | Hf].
      * destruct (merge_runs_apart rest (run_of h))
          as [_ (r & runs & Hr & Hs & He)].
        exists r. split.
        -- apply elem_of_cons. right. rewrite Hr.
           apply elem_of_cons. left. reflexivity.
        -- rewrite Hs. cbn [run_of runStart runEnd] in He |- *.
           split; [lra | exact He].
      * destruct (IH (run_of h) Hsorted Hh f Hf) as (r & Hr & Hc).
        exists r. split; [apply elem_of_cons; right; exact Hr | exact Hc].
Qed.

Lemma shows_apart (drawn : list Glyph.t) (runs : list Run) :
  Forall2 shows drawn runs -> runs_apart runs -> apart drawn.
Proof.
  intros H. induction H as [|g r drawn runs Hgr Hrest IH]; intros Hap.
  - exact I.
  - destruct Hrest as [|g' r' drawn' runs' Hgr' Hrest'].
    + exact I.
    + destruct Hap as [Hlt Hap]. cbn [apart]. split.
      * destruct Hgr as (_ & He & _). destruct Hgr' as (Hs & _ & _). lra.
      * apply IH. exact Hap.
Qed.

Lemma foldl_lane_features (lanes : list Lane.t) (acc : list Glyph.t) :
  foldl (fun acc lane => acc ++ Lane.features lane) acc lanes
  = acc ++ concat (Lane.features <$> lanes).
Proof.
  revert acc. induction lanes as [|lane lanes IH]; intros acc.
  - simpl. rewrite app_nil_r. reflexivity.
  - cbn [foldl fmap list_fmap concat]. rewrite IH, <- app_assoc.
    reflexivity.
Qed.

(** X29: the blocks of a collapsed track are apart and hide no feature.  The
    collapse pass of [Track.draw] always completes; of the glyphs it draws,
    each ends before the next one starts; and every feature of the track,
    whatever its lane, lies within one of them, from its position to its
    end. *)
Theorem draw_collapse_apart_and_covering (track : Track.t) :
  exists features drawn,
    Track.draw_collapse track = Some (features, drawn)
    /\ apart drawn
    /\ forall f, f ∈ track_features track ->
         exists g, g ∈ drawn /\ within f g.
Proof.
  unfold Track.draw_collapse. fold (collapse_input track).
  destruct (collapse_loop_runs (List.length (collapse_input track))
              (collapse_input track) [] [] (Nat.le_refl _))
    as (drawn & Hloop & Hshows).
  cbn [app List.length] in Hloop.
  exists (collapse_input track), drawn. split; [exact Hloop|].
  assert (Hsorted : by_position (collapse_input track))
    by apply sort_by_position_sorted.
  assert (Hperm : collapse_input track ≡ₚ track_features track).
  { unfold collapse_input. rewrite sort_by_position_perm.
    rewrite foldl_lane_features. reflexivity. }
  destruct (collapse_input track) as [|f0 rest] eqn:Ein.
  - cbn [collapse_runs] in Hshows. apply Forall2_nil_inv_r in Hshows.
    subst drawn. split; [exact I|].
    intros f Hf. rewrite <- Hperm in Hf. apply elem_of_nil in Hf.
    contradiction.
  - cbn [collapse_runs] in Hshows. destruct Hsorted as [Hlo Hsorted].
    destruct (merge_runs_apart rest (run_of f0))
      as [Hap (r0 & runs & Hr0 & Hs0 & He0)].
    split; [exact (shows_apart _ _ Hshows Hap)|].
    intros f Hf. rewrite <- Hperm in Hf.
    assert (Hrun : exists r, r ∈ merge_runs (run_of f0) rest
                             /\ runStart r <= Glyph.position f
                             /\ Glyph.getEnd f <= runEnd r).
    { apply elem_of_cons in Hf. destruct Hf as [-> | Hf].
      - exists r0. rewrite Hr0.
        split; [apply elem_of_cons; left; reflexivity|].
        rewrite Hs0. cbn [run_of runStart runEnd] in He0 |- *.
        split; [lra | exact He0].
      - apply (merge_runs_cover rest (run_of f0) Hsorted Hlo f Hf). }
    destruct Hrun as (r & Hr & Hstart & Hend).
    apply list_elem_of_lookup in Hr. destruct Hr as [i Hi].
    destruct (Forall2_lookup_r _ _ _ i r Hshows Hi) as (g & Hg & Hgr).
    exists g. split; [apply list_elem_of_lookup; exists i; exact Hg|].
    destruct Hgr as (Hs & He & _). unfold within. lra.
Qed.

(** ** Doubles: rounding keeps the order *)

Lemma pow2_pos (k : Z) : 0 < 2 ^ k.
Proof. apply Qpower_0_lt. reflexivity. Qed.

Lemma pow2_plus (a b : Z) : 2 ^ (a + b) == 2 ^ a * 2 ^ b.
Proof. apply Qpower_plus. discriminate. Qed.

Lemma pow2_inject (j : Z) : (0 <= j)%Z -> 2 ^ j == inject_Z (2 ^ j).
Proof. intros H. rewrite Zpower_Qpower by exact H. reflexivity. Qed.

Lemma pow2_le (a b : Z) : (a <= b)%Z -> 2 ^ a <= 2 ^ b.
Proof. intros H. apply Qpower_le_compat_l; [exact H | discriminate]. Qed.

Lemma pow2_lt (a b : Z) : (a < b)%Z -> 2 ^ a < 2 ^ b.
Proof. intros H. apply Qpower_lt_compat_l; [exact H | reflexivity]. Qed.

Lemma rne_bounds (y : Q) :
  (Qfloor y <= Double.rne y <= Qfloor y + 1)%Z.
Proof.
  unfold Double.rne. destruct (Qcompare _ _); [|lia|lia].
  destruct (Z.even (Qfloor y)); lia.
Qed.

Lemma rne_comp (y y' : Q) : y == y' -> Double.rne y = Double.rne y'.
Proof.
  intros H. unfold Double.rne. rewrite (Qfloor_comp _ _ H).
  assert (E : y - inject_Z (Qfloor y') == y' - inject_Z (Qfloor y'))
    by (rewrite H; reflexivity).
  rewrite (Qcompare_comp _ _ E _ _ (Qeq_refl (1 # 2))). reflexivity.
Qed.

Lemma rne_inject_Z (z : Z) : Double.rne (inject_Z z) = z.
Proof.
  unfold Double.rne. rewrite Qfloor_Z.
  assert (E : inject_Z z - inject_Z z == 0) by ring.
  rewrite (Qcompare_comp _ _ E _ _ (Qeq_refl (1 # 2))). reflexivity.
Qed.

Lemma rne_mono (y y' : Q) : y <= y' -> (Double.rne y <= Double.rne y')%Z.
Proof.
  intros H.
  pose proof (Qfloor_resp_le _ _ H) as Hf.
  destruct (Z.eq_dec (Qfloor y) (Qfloor y')) as [E|E].
  - unfold Double.rne. rewrite E.
    destruct (Qcompare_spec (y - inject_Z (Qfloor y')) (1 # 2)) as [C1|C1|C1];
      destruct (Qcompare_spec (y' - inject_Z (Qfloor y')) (1 # 2))
        as [C2|C2|C2];
      try (destruct (Z.even (Qfloor y'))); try lia; lra.
  - pose proof (rne_bounds y). pose proof (rne_bounds y'). lia.
Qed.

Lemma rne_opp (y : Q) : Double.rne (- y) = (- Double.rne y)%Z.
Proof.
  pose proof (Qfloor_le y) as Hl. pose proof (Qlt_floor y) as Hu.
  rewrite inject_Z_plus in Hu. change (inject_Z 1) with 1 in Hu.
  destruct (Qeq_dec y (inject_Z (Qfloor y))) as [E|E].
  - assert (E' : - y == inject_Z (- Qfloor y)).
    { rewrite inject_Z_opp, <- E. reflexivity. }
    rewrite (rne_comp _ _ E'), (rne_comp _ _ E), !rne_inject_Z. reflexivity.
  - assert (Hlt : inject_Z (Qfloor y) < y).
    { apply Qle_lteq in Hl. destruct Hl as [Hl|Hl]; [exact Hl|].
      exfalso. apply E. symmetry. exact Hl. }
    assert (Hf : Qfloor (- y) = (- Qfloor y - 1)%Z).
    { apply Qfloor_unique.
      - unfold Z.sub. rewrite inject_Z_plus, inject_Z_opp.
        change (inject_Z (- (1))) with (-1 # 1). lra.
      - replace (- Qfloor y - 1 + 1)%Z with (- Qfloor y)%Z by lia.
        rewrite inject_Z_opp. lra. }
    unfold Double.rne. rewrite Hf.
    assert (Ed : - y - inject_Z (- Qfloor y - 1)
                 == 1 - (y - inject_Z (Qfloor y))).
    { unfold Z.sub. rewrite inject_Z_plus, inject_Z_opp.
      change (inject_Z (- (1))) with (-1 # 1). ring. }
    rewrite (Qcompare_comp _ _ Ed _ _ (Qeq_refl (1 # 2))).
    set (r := y - inject_Z (Qfloor y)).
    assert (Hev : Z.even (- Qfloor y - 1) = negb (Z.even (Qfloor y))).
    { rewrite Z.even_sub, Z.even_opp.
      destruct (Z.even (Qfloor y)); reflexivity. }
    destruct (Qcompare_spec r (1 # 2)) as [C1|C1|C1];
      destruct (Qcompare_spec (1 - r) (1 # 2)) as [C2|C2|C2];
      try lra; try lia.
    rewrite Hev. destruct (Z.even (Qfloor y)); simpl; lia.
Qed.

Lemma Qdiv_lt_cross (a b c d : Q) :
  0 < b -> 0 < d -> a * d < c * b -> a / b < c / d.
Proof.
  intros Hb Hd H. apply Qlt_shift_div_r; [exact Hb|].
  assert (E : c / d * b == c * b / d) by (field; lra).
  rewrite E. apply Qlt_shift_div_l; [exact Hd | exact H].
Qed.

Lemma Qdiv_le_cross (a b c d : Q) :
  0 < b -> 0 < d -> a * d <= c * b -> a / b <= c / d.
Proof.
  intros Hb Hd H. apply Qle_shift_div_r; [exact Hb|].
  assert (E : c / d * b == c * b / d) by (field; lra).
  rewrite E. apply Qle_shift_div_l; [exact Hd | exact H].
Qed.

(** [ilog2 x] is the exponent of the binade of [x]. *)
Lemma ilog2_spec (x : Q) :
  0 < x -> 2 ^ Double.ilog2 x <= x /\ x < 2 ^ (Double.ilog2 x + 1).
Proof.
  intros Hx. destruct x as [n d].
  assert (Hn : (0 < n)%Z).
  { unfold Qlt in Hx. simpl in Hx. lia. }
  unfold Double.ilog2. cbn [Qnum Qden].
  pose proof (Z.log2_spec n Hn) as [Hn1 Hn2].
  pose proof (Z.log2_spec (Z.pos d) (Pos2Z.is_pos d)) as [Hd1 Hd2].
  pose proof (Z.log2_nonneg n) as Hln.
  pose proof (Z.log2_nonneg (Z.pos d)) as Hld.
  set (ln := Z.log2 n) in *. set (ld := Z.log2 (Z.pos d)) in *.
  assert (Hx' : n # d == inject_Z n / inject_Z (Z.pos d))
    by apply Qmake_Qdiv.
  assert (HD : 0 < inject_Z (Z.pos d)).
  { change 0 with (inject_Z 0). rewrite <- Zlt_Qlt. lia. }
  assert (Hup : n # d < 2 ^ (ln - ld + 1)).
  { replace (ln - ld + 1)%Z with (Z.succ ln - ld)%Z by lia.
    rewrite Qpower_minus by discriminate.
    rewrite (pow2_inject (Z.succ ln)), (pow2_inject ld) by lia.
    rewrite Hx'. apply Qdiv_lt_cross; [exact HD | |].
    - change 0 with (inject_Z 0). rewrite <- Zlt_Qlt. lia.
    - rewrite <- !inject_Z_mult, <- Zlt_Qlt. nia. }
  assert (Hlo : 2 ^ (ln - ld - 1) <= n # d).
  { replace (ln - ld - 1)%Z with (ln - Z.succ ld)%Z by lia.
    rewrite Qpower_minus by discriminate.
    rewrite (pow2_inject ln), (pow2_inject (Z.succ ld)) by lia.
    rewrite Hx'. apply Qdiv_le_cross; [| exact HD |].
    - change 0 with (inject_Z 0). rewrite <- Zlt_Qlt. lia.
    - rewrite <- !inject_Z_mult, <- Zle_Qle. nia. }
  destruct (Qle_bool (2 ^ (ln - ld)) (n # d)) eqn:E.
  - apply Qle_bool_iff in E. split; [exact E | exact Hup].
  - assert (Hlt : n # d < 2 ^ (ln - ld)).
    { apply Qnot_le_lt. intros H. apply Qle_bool_iff in H. congruence. }
    split; [exact Hlo|].
    replace (ln - ld - 1 + 1)%Z with (ln - ld)%Z by lia. exact Hlt.
Qed.

Lemma ilog2_unique (x : Q) (e : Z) :
  2 ^ e <= x -> x < 2 ^ (e + 1) -> Double.ilog2 x = e.
Proof.
  intros Hlo Hhi.
  assert (Hx : 0 < x) by (pose proof (pow2_pos e); lra).
  destruct (ilog2_spec x Hx) as [Hl Hh].
  assert (H1 : 2 ^ e < 2 ^ (Double.ilog2 x + 1)) by lra.
  assert (H2 : 2 ^ Double.ilog2 x < 2 ^ (e + 1)) by lra.
  apply Qpower_lt_compat_l_inv in H1; [|reflexivity].
  apply Qpower_lt_compat_l_inv in H2; [|reflexivity].
  lia.
Qed.

Lemma ilog2_comp (x y : Q) :
  0 < x -> x == y -> Double.ilog2 x = Double.ilog2 y.
Proof.
  intros Hx E. destruct (ilog2_spec x Hx) as [Hl Hh].
  symmetry. apply ilog2_unique; rewrite <- E; assumption.
Qed.

Lemma ilog2_mono (x y : Q) :
  0 < x -> x <= y -> (Double.ilog2 x <= Double.ilog2 y)%Z.
Proof.
  intros Hx Hxy.
  destruct (ilog2_spec x Hx) as [Hl _].
  destruct (ilog2_spec y) as [_ Hh]; [lra|].
  assert (H : 2 ^ Double.ilog2 x < 2 ^ (Double.ilog2 y + 1)) by lra.
  apply Qpower_lt_compat_l_inv in H; [|reflexivity]. lia.
Qed.

Lemma round_at_mono (k : Z) (x y : Q) :
  x <= y -> Double.round_at k x <= Double.round_at k y.
Proof.
  intros H. unfold Double.round_at. pose proof (pow2_pos k) as Hk.
  apply Qmult_le_compat_r; [|lra].
  rewrite <- Zle_Qle. apply rne_mono.
  apply Qmult_le_compat_r; [exact H|].
  apply Qlt_le_weak. apply Qinv_lt_0_compat. exact Hk.
Qed.

Lemma round_at_comp (k : Z) (x y : Q) :
  x == y -> Double.round_at k x == Double.round_at k y.
Proof.
  intros H. unfold Double.round_at.
  assert (E : x / 2 ^ k == y / 2 ^ k) by (rewrite H; reflexivity).
  rewrite (rne_comp _ _ E). reflexivity.
Qed.

Lemma round_at_multiple (k m : Z) (x : Q) :
  x == inject_Z m * 2 ^ k -> Double.round_at k x == x.
Proof.
  intros H. unfold Double.round_at. pose proof (pow2_pos k) as Hk.
  assert (E : x / 2 ^ k == inject_Z m) by (rewrite H; field; lra).
  rewrite (rne_comp _ _ E), rne_inject_Z. symmetry. exact H.
Qed.

Lemma round_at_opp (k : Z) (x : Q) :
  Double.round_at k (- x) == - Double.round_at k x.
Proof.
  unfold Double.round_at. pose proof (pow2_pos k) as Hk.
  assert (E : - x / 2 ^ k == - (x / 2 ^ k)) by (field; lra).
  rewrite (rne_comp _ _ E), rne_opp, inject_Z_opp. ring.
Qed.

Lemma pow2_multiple (k j : Z) :
  (0 <= j)%Z -> 2 ^ (k + j) == inject_Z (2 ^ j) * 2 ^ k.
Proof.
  intros Hj. rewrite pow2_plus, (pow2_inject j Hj). ring.
Qed.

Lemma Qabs_nonzero (x : Q) : ~ x == 0 -> 0 < Qabs x.
Proof.
  intros Hx. destruct (Qlt_le_dec x 0) as [H|H].
  - rewrite Qabs_neg by lra. lra.
  - rewrite Qabs_pos by lra. apply Qle_lteq in H.
    destruct H as [H|H]; [exact H|]. exfalso. apply Hx. symmetry. exact H.
Qed.

Lemma ulp_exp_comp (x y : Q) :
  ~ x == 0 -> x == y -> Double.ulp_exp x = Double.ulp_exp y.
Proof.
  intros Hx E. unfold Double.ulp_exp.
  assert (Ha : Qabs x == Qabs y) by (rewrite E; reflexivity).
  assert (Hp : 0 < Qabs x) by (apply Qabs_nonzero; exact Hx).
  rewrite (ilog2_comp _ _ Hp Ha). reflexivity.
Qed.

Lemma round_comp (x y : Q) : x == y -> Double.round x == Double.round y.
Proof.
  intros E. unfold Double.round.
  destruct (Qeq_bool x 0) eqn:Ex.
  - apply Qeq_bool_iff in Ex.
    assert (Ey : y == 0) by (rewrite <- E; exact Ex).
    apply Qeq_bool_iff in Ey. rewrite Ey. reflexivity.
  - apply Qeq_bool_neq in Ex.
    assert (Ey : ~ y == 0) by (rewrite <- E; exact Ex).
    destruct (Qeq_bool y 0) eqn:Ey'.
    { apply Qeq_bool_iff in Ey'. contradiction. }
    rewrite (ulp_exp_comp x y Ex E). apply round_at_comp. exact E.
Qed.

Lemma round_opp (x : Q) : Double.round (- x) == - Double.round x.
Proof.
  unfold Double.round.
  destruct (Qeq_bool x 0) eqn:Ex.
  - apply Qeq_bool_iff in Ex.
    assert (Ey : - x == 0) by (rewrite Ex; reflexivity).
    apply Qeq_bool_iff in Ey. rewrite Ey. reflexivity.
  - apply Qeq_bool_neq in Ex.
    assert (Ey : ~ - x == 0) by (intros H; apply Ex; lra).
    destruct (Qeq_bool (- x) 0) eqn:Ey'.
    { apply Qeq_bool_iff in Ey'. contradiction. }
    assert (Hk : Double.ulp_exp (- x) = Double.ulp_exp x).
    { unfold Double.ulp_exp.
      assert (Hp : 0 < Qabs (- x)) by (apply Qabs_nonzero; exact Ey).
      rewrite (ilog2_comp _ _ Hp (Qabs_opp x)). reflexivity. }
    rewrite Hk. apply round_at_opp.
Qed.

Lemma round_pos_mono (x y : Q) :
  0 < x -> x <= y -> Double.round x <= Double.round y.
Proof.
  intros Hx Hxy. assert (Hy : 0 < y) by lra.
  unfold Double.round.
  destruct (Qeq_bool x 0) eqn:Ex; [apply Qeq_bool_iff in Ex; lra|].
  destruct (Qeq_bool y 0) eqn:Ey; [apply Qeq_bool_iff in Ey; lra|].
  unfold Double.ulp_exp.
  assert (Eax : Qabs x == x) by (apply Qabs_pos; lra).
  assert (Eay : Qabs y == y) by (apply Qabs_pos; lra).
  assert (Hpx : 0 < Qabs x) by lra.
  assert (Hpy : 0 < Qabs y) by lra.
  rewrite (ilog2_comp _ _ Hpx Eax), (ilog2_comp _ _ Hpy Eay).
  pose proof (ilog2_mono x y Hx Hxy) as He.
  destruct (ilog2_spec x Hx) as [_ Hxh].
  destruct (ilog2_spec y Hy) as [Hyl _].
  set (ex := Double.ilog2 x) in *. set (ey := Double.ilog2 y) in *.
  destruct (Z.eq_dec (Z.max (ex - 52) (-1074)) (Z.max (ey - 52) (-1074)))
    as [E|E].
  - rewrite E. apply round_at_mono. exact Hxy.
  - set (kx := Z.max (ex - 52) (-1074)) in *.
    set (ky := Z.max (ey - 52) (-1074)) in *.
    assert (Hky : ky = (ey - 52)%Z) by lia.
    assert (Hlt : (ex + 1 <= ey)%Z) by lia.
    assert (HxB : x <= 2 ^ ey).
    { pose proof (pow2_le (ex + 1) ey Hlt). lra. }
    assert (HBx : 2 ^ ey == inject_Z (2 ^ (ey - kx)) * 2 ^ kx).
    { rewrite <- pow2_multiple by lia.
      replace (kx + (ey - kx))%Z with ey by lia. reflexivity. }
    assert (HBy : 2 ^ ey == inject_Z (2 ^ 52) * 2 ^ ky).
    { rewrite <- pow2_multiple by lia.
      replace (ky + 52)%Z with ey by lia. reflexivity. }
    pose proof (round_at_mono kx _ _ HxB) as H1.
    rewrite (round_at_multiple kx _ _ HBx) in H1.
    pose proof (round_at_mono ky _ _ Hyl) as H2.
    rewrite (round_at_multiple ky _ _ HBy) in H2.
    lra.
Qed.

Lemma round_0 : Double.round 0 == 0.
Proof. reflexivity. Qed.

Lemma round_nonneg (x : Q) : 0 <= x -> 0 <= Double.round x.
Proof.
  intros Hx. unfold Double.round.
  destruct (Qeq_bool x 0); [lra|].
  unfold Double.round_at. pose proof (pow2_pos (Double.ulp_exp x)) as Hk.
  apply Qmult_le_0_compat; [|lra].
  change 0 with (inject_Z 0). rewrite <- Zle_Qle.
  pose proof (rne_bounds (x / 2 ^ Double.ulp_exp x)) as [Hb _].
  assert (H0 : (0 <= Qfloor (x / 2 ^ Double.ulp_exp x))%Z).
  { change 0%Z with (Qfloor 0). apply Qfloor_resp_le.
    apply Qle_shift_div_l; [exact Hk | lra]. }
  lia.
Qed.

(** Rounding keeps the order. *)
Lemma round_mono (x y : Q) : x <= y -> Double.round x <= Double.round y.
Proof.
  intros Hxy.
  destruct (Qlt_le_dec 0 x) as [Hx|Hx].
  - apply round_pos_mono; assumption.
  - destruct (Qlt_le_dec y 0) as [Hy|Hy].
    + assert (H : Double.round (- y) <= Double.round (- x))
        by (apply round_pos_mono; lra).
      rewrite !round_opp in H. lra.
    + pose proof (round_nonneg y Hy) as H1.
      assert (H2 : 0 <= Double.round (- x)) by (apply round_nonneg; lra).
      rewrite round_opp in H2. lra.
Qed.

(** ** LaneAllocator in double precision: the gap invariant *)

Lemma double_find_lane_Some (c : Scribl.t) (feature : Glyph.t)
  (ls : list Lane.t) (k j : nat) :
  Track64.find_lane c feature ls k = Some j ->
  exists (i : nat) (lane : Lane.t),
    j = (k + i)%nat /\ ls !! i = Some lane
    /\ Track64.accepts c lane feature = true
    /\ forall (i' : nat) (lane' : Lane.t),
         (i' < i)%nat -> ls !! i' = Some lane' ->
         Track64.accepts c lane' feature = false.
Proof.
  revert k. induction ls as [|lane ls IH]; intros k H; simpl in H.
  - discriminate.
  - destruct (Track64.accepts c lane feature) eqn:E.
    + injection H as <-. exists 0%nat, lane. split; [lia|].
      split; [reflexivity|]. split; [exact E|]. intros i' lane' Hi'. lia.
    + destruct (IH _ H) as (i & lane' & -> & Hi & Ha & Hb).
      exists (S i), lane'. split; [lia|]. split; [exact Hi|].
      split; [exact Ha|]. intros [|i'] l' Hlt Hl'.
      * injection Hl' as <-. exact E.
      * apply (Hb i' l'); [lia | exact Hl'].
Qed.

Lemma double_find_lane_None (c : Scribl.t) (feature : Glyph.t)
  (ls : list Lane.t) (k : nat) :
  Track64.find_lane c feature ls k = None ->
  forall lane, In lane ls -> Track64.accepts c lane feature = false.
Proof.
  revert k. induction ls as [|lane ls IH]; intros k H l Hl; simpl in H.
  - destruct Hl.
  - destruct (Track64.accepts c lane feature) eqn:E; [discriminate|].
    destruct Hl as [<- | Hl]; [exact E|]. apply (IH _ H l Hl).
Qed.

(** In doubles, adding a length that is not negative does not move to the
    left, and taking away a gap that is not negative does not move to the
    right. *)
Lemma double_add_ge (p l : Q) :
  is_double p -> 0 <= l -> p <= Double.add p l.
Proof.
  intros [Hp _] Hl. unfold Double.add. rewrite <- Hp at 1.
  apply round_mono. lra.
Qed.

Lemma double_sub_le (p gap : Q) :
  is_double p -> 0 <= gap -> Double.sub p gap <= p.
Proof.
  intros [Hp _] Hg. unfold Double.sub. rewrite <- Hp at 2.
  apply round_mono. lra.
Qed.

Lemma double_sub_mono (p q gap : Q) :
  p <= q -> Double.sub p gap <= Double.sub q gap.
Proof. intros H. unfold Double.sub. apply round_mono. lra. Qed.

(** A feature appended after the last one of a lane keeps the invariant
    when the test of the scan holds against that last one. *)
Lemma double_lane_gap_ok_snoc (gap : Q) (l : list Glyph.t)
  (prev f : Glyph.t) :
  0 <= gap -> double_lane_gap_ok gap l ->
  Forall double_feature l -> double_feature f ->
  last l = Some prev ->
  Double.add (Glyph.position prev) (Glyph.length prev)
  < Double.sub (Glyph.position f) gap ->
  double_lane_gap_ok gap (l ++ [f]).
Proof.
  intros Hgap Hok Hl Hf Hlast Hprev i j a b Hij Hi Hj.
  apply last_Some in Hlast as [l' ->].
  assert (Hj' : (j < List.length ((l' ++ [prev]) ++ [f]))%nat)
    by (apply lookup_lt_Some in Hj; exact Hj).
  rewrite !length_app in Hj'. simpl in Hj'.
  destruct (decide (j = List.length l' + 1)%nat) as [->|Hne].
  - rewrite lookup_app_r in Hj by (rewrite length_app; simpl; lia).
    rewrite length_app in Hj. simpl in Hj.
    replace (List.length l' + 1 - (List.length l' + 1))%nat with 0%nat
      in Hj by lia.
    injection Hj as <-.
    rewrite lookup_app_l in Hi by (rewrite length_app; simpl; lia).
    destruct (decide (i = List.length l')) as [->|Hi'].
    + rewrite lookup_app_r in Hi by lia.
      replace (List.length l' - List.length l')%nat with 0%nat in Hi by lia.
      injection Hi as <-. exact Hprev.
    + assert (Hp : (l' ++ [prev]) !! List.length l' = Some prev).
      { rewrite lookup_app_r by lia.
        replace (List.length l' - List.length l')%nat with 0%nat by lia.
        reflexivity. }
      assert (Hil : (i < List.length l')%nat) by lia.
      pose proof (Hok i (List.length l') a prev Hil Hi Hp) as H1.
      assert (Hdp : double_feature prev).
      { rewrite Forall_forall in Hl. apply Hl.
        apply list_elem_of_lookup. eauto. }
      destruct Hdp as (Hpp & _ & Hpl). destruct Hf as (Hfp & _ & _).
      pose proof (double_add_ge _ _ Hpp Hpl) as H2.
      pose proof (double_sub_le _ _ Hfp Hgap) as H3.
      assert (H4 : Glyph.position prev <= Glyph.position f) by lra.
      pose proof (double_sub_mono _ _ gap H4) as H5.
      lra.
  - rewrite lookup_app_l in Hj by (rewrite length_app; simpl; lia).
    rewrite lookup_app_l in Hi by (rewrite length_app; simpl; lia).
    exact (Hok i j a b Hij Hi Hj).
Qed.

Lemma double_lane_gap_ok_singleton (gap : Q) (f : Glyph.t) :
  double_lane_gap_ok gap [f].
Proof.
  intros i j a b Hij Hi Hj. apply lookup_lt_Some in Hj. simpl in Hj. lia.
Qed.

Lemma double_gap_nonneg (r : Q) : 0 < r -> 0 <= Double.div 3 r.
Proof.
  intros Hr. unfold Double.div. apply round_nonneg.
  apply Qle_shift_div_l; lra.
Qed.

(** One call of [Track.addFeature] keeps the invariant of the lanes. *)
Lemma double_addFeature_lanes_ok (c : Scribl.t) (r : Q) (track : Track.t)
  (feature : Glyph.t) :
  Track64.pixelsToNts c = Some r -> 0 < r ->
  double_feature feature ->
  double_lanes_ok (Double.div 3 r) track ->
  double_lanes_ok (Double.div 3 r) (double_track_addFeature c track feature).
Proof.
  intros Hr Hpos Hf Hinv.
  unfold double_lanes_ok, double_track_addFeature, Track64.addFeature in *.
  destruct (Track64.find_lane c feature (Track.lanes track) 0)
    as [j|] eqn:Efind.
  - cbn [fst Track.lanes Track.set_lanes].
    apply double_find_lane_Some in Efind as (i & lane & -> & Hi & Hacc & _).
    apply Forall_alter; [exact Hinv|].
    intros lane' Hl' [Hok Hls]. simpl in Hl'.
    assert (lane' = lane) as -> by congruence.
    unfold Track64.accepts in Hacc. rewrite Hr in Hacc.
    destruct (last (Lane.features lane)) as [prev|] eqn:Elast;
      [|discriminate].
    apply gtb_gt in Hacc. cbn [Lane.addFeature Lane.features]. split.
    + apply (double_lane_gap_ok_snoc _ _ prev);
        auto using double_gap_nonneg.
    + apply Forall_app. split; [exact Hls|]. constructor; [exact Hf|].
      constructor.
  - unfold Track.addLane. cbn [fst Track.lanes Track.set_lanes].
    rewrite alter_last. apply Forall_app. split; [exact Hinv|].
    constructor; [|constructor]. cbn [Lane.addFeature Lane.features Lane.init].
    split.
    + apply double_lane_gap_ok_singleton.
    + constructor; [exact Hf|constructor].
Qed.

Lemma double_add_all_lanes_ok (c : Scribl.t) (r : Q) (fs : list Glyph.t)
  (track : Track.t) :
  Track64.pixelsToNts c = Some r -> 0 < r ->
  Forall double_feature fs ->
  double_lanes_ok (Double.div 3 r) track ->
  double_lanes_ok (Double.div 3 r)
    (foldl (double_track_addFeature c) track fs).
Proof.
  intros Hr Hpos. revert track.
  induction fs as [|f fs IH]; intros track Hfs Hinv.
  - exact Hinv.
  - inversion Hfs as [|? ? Hf Hfs']; subst. simpl. apply IH; [exact Hfs'|].
    apply double_addFeature_lanes_ok; assumption.
Qed.

(** C2, as the code has it: on a chart whose scale is set and whose pixel
    ratio [pixelsToNts()] is positive, add any finite sequence of features
    (positions and lengths doubles, no length negative) to a new track with
    [Track.addFeature], in any order.  Every lane of the resulting track
    satisfies the gap invariant as the code evaluates it: for a feature [f]
    placed before a feature [g] in the lane, [g.position - gapThreshold],
    computed in doubles, is greater than [f.position + f.length], computed
    in doubles, where [gapThreshold] is the double [3/pixelsToNts()], three
    pixels in coordinate units. *)
Theorem addFeature_keeps_gap (c : Scribl.t) (r : Q) (fs : list Glyph.t) :
  Track64.pixelsToNts c = Some r -> 0 < r ->
  Forall double_feature fs ->
  double_gapThreshold c = Some (Double.div 3 r)
  /\ forall lane,
       In lane (Track.lanes (double_add_all c fs)) ->
       double_lane_gap_ok (Double.div 3 r) (Lane.features lane).
Proof.
  intros Hr Hpos Hfs. split.
  - unfold double_gapThreshold. rewrite Hr. reflexivity.
  - intros lane Hin.
    assert (Hinv : double_lanes_ok (Double.div 3 r) (double_add_all c fs)).
    { apply (double_add_all_lanes_ok c r fs); try assumption. constructor. }
    unfold double_lanes_ok in Hinv. rewrite List.Forall_forall in Hinv.
    apply (Hinv lane Hin).
Qed.

Lemma addFeature_keeps_gap_witness :
  exists r,
    Track64.pixelsToNts chart_7500 = Some r /\ 0 < r
    /\ Forall double_feature
         [rect 1 235 10 "a"; rect 2 0 10 "b"; rect 3 470 (5 # 2) "c"]
    /\ double_gapThreshold chart_7500 = Some (Double.div 3 r)
    /\ forall lane,
         In lane
            (Track.lanes
               (double_add_all chart_7500
                  [rect 1 235 10 "a"; rect 2 0 10 "b";
                   rect 3 470 (5 # 2) "c"])) ->
         double_lane_gap_ok (Double.div 3 r) (Lane.features lane).
Proof.
  assert (H : Forall double_feature
                [rect 1 235 10 "a"; rect 2 0 10 "b"; rect 3 470 (5 # 2) "c"]).
  { repeat (constructor;
            [ split; [split; vm_compute; reflexivity|];
              split; [split; vm_compute; reflexivity|];
              vm_compute; discriminate | ]).
    constructor. }
  eexists. split; [reflexivity|]. split; [vm_compute; reflexivity|].
  split; [exact H|].
  apply (addFeature_keeps_gap chart_7500 _
           [rect 1 235 10 "a"; rect 2 0 10 "b"; rect 3 470 (5 # 2) "c"]);
    [reflexivity | vm_compute; reflexivity | exact H].
Defined.

(** C2, as the specification words it, fails on the boundary.  With the
    threshold taken exactly, [3 (max - min) / width]: on the
    chart 100 pixels wide over [0, 7500] the threshold is 225, the code
    computes 224.99999999999997 for it, and the feature at 235 joins the
    lane of the feature that ends at 10, though [235 - 225 > 10] does not
    hold. *)
Lemma addFeature_gap_fails_on_the_boundary :
  Track.lanes
    (double_add_all chart_7500 [rect 1 0 10 "a"; rect 2 235 10 "b"])
  = [Lane.mk [rect 1 0 10 "a"; rect 2 235 10 "b"]]
  /\ (exists gap,
         gapThreshold chart_7500 = Some gap /\ gap == 225
         /\ ~ lane_gap_ok gap [rect 1 0 10 "a"; rect 2 235 10 "b"])
  /\ (exists gap,
         double_gapThreshold chart_7500 = Some gap /\ gap < 225).
Proof.
  split; [vm_compute; reflexivity|]. split.
  - eexists. split; [reflexivity|]. split; [reflexivity|]. intros H.
    specialize (H 0%nat 1%nat (rect 1 0 10 "a") (rect 2 235 10 "b")
                  ltac:(lia) eq_refl eq_refl).
    vm_compute in H. discriminate H.
  - eexists. split; [reflexivity|]. vm_compute. reflexivity.
Qed.

(** The order of insertion changes the number of lanes: two features that
    share a lane when added left to right take two lanes when added right
    to left. *)
Lemma double_lane_count_depends_on_order :
  List.length
    (Track.lanes
       (double_add_all chart_7500 [rect 1 0 10 "a"; rect 2 1000 10 "b"]))
  = 1%nat
  /\ List.length
       (Track.lanes
          (double_add_all chart_7500 [rect 2 1000 10 "b"; rect 1 0 10 "a"]))
     = 2%nat.
Proof. split; vm_compute; reflexivity. Qed.

(** ** LaneAllocator in double precision: first fit *)

Lemma double_accepts_clears (c : Scribl.t) (r : Q) (lane : Lane.t)
  (feature : Glyph.t) :
  Track64.pixelsToNts c = Some r ->
  Track64.accepts c lane feature = true
  <-> double_clears (Double.div 3 r) lane feature.
Proof.
  intros Hr. unfold Track64.accepts, double_clears. rewrite Hr.
  destruct (last (Lane.features lane)) as [prev|].
  - split.
    + intros H. apply gtb_gt in H. exists prev. split; [reflexivity | exact H].
    + intros (p & [= <-] & H). apply gtb_gt. exact H.
  - split; [discriminate|]. intros (p & Hp & _). discriminate Hp.
Qed.

Lemma double_accepts_not_clears (c : Scribl.t) (r : Q) (lane : Lane.t)
  (feature : Glyph.t) :
  Track64.pixelsToNts c = Some r ->
  Track64.accepts c lane feature = false ->
  ~ double_clears (Double.div 3 r) lane feature.
Proof.
  intros Hr H Hc. apply (double_accepts_clears c r lane feature Hr) in Hc.
  congruence.
Qed.

Lemma double_track_addFeature_lanes (c : Scribl.t) (track : Track.t)
  (feature : Glyph.t) :
  Track.lanes (double_track_addFeature c track feature)
  = match Track64.find_lane c feature (Track.lanes track) 0 with
    | Some j =>
        alter (fun lane => Lane.addFeature lane feature) j
              (Track.lanes track)
    | None => Track.lanes track ++ [Lane.mk [feature]]
    end.
Proof.
  unfold double_track_addFeature, Track64.addFeature.
  destruct (Track64.find_lane c feature (Track.lanes track) 0);
    [reflexivity|].
  unfold Track.addLane. cbn [fst Track.lanes Track.set_lanes].
  rewrite alter_last. reflexivity.
Qed.

(** X1: [Track.addFeature] is first fit.  On a chart whose scale is set and
    whose pixel ratio [r = pixelsToNts()] is not zero, with the arithmetic
    of doubles: either some lane has a last feature [prev] with
    [prev.position + prev.length < feature.position - 3/r], no lane before
    it has, and the feature is appended to that lane, every other lane
    being left as it is; or no lane has, and a new lane holding the feature
    alone is appended. *)
Theorem addFeature_first_fit (c : Scribl.t) (r : Q) (track : Track.t)
  (feature : Glyph.t) :
  Track64.pixelsToNts c = Some r -> ~ r == 0 ->
  (exists (j : nat) (lane : Lane.t),
      Track.lanes track !! j = Some lane
      /\ double_clears (Double.div 3 r) lane feature
      /\ (forall (i : nat) (lane' : Lane.t),
             (i < j)%nat -> Track.lanes track !! i = Some lane' ->
             ~ double_clears (Double.div 3 r) lane' feature)
      /\ Track.lanes (double_track_addFeature c track feature)
         = <[j := Lane.addFeature lane feature]> (Track.lanes track))
  \/ ((forall lane, In lane (Track.lanes track) ->
                    ~ double_clears (Double.div 3 r) lane feature)
      /\ Track.lanes (double_track_addFeature c track feature)
         = Track.lanes track ++ [Lane.mk [feature]]).
Proof.
  intros Hr _. rewrite double_track_addFeature_lanes.
  destruct (Track64.find_lane c feature (Track.lanes track) 0)
    as [j|] eqn:E.
  - left. apply double_find_lane_Some in E as (i & lane & -> & Hi & Ha & Hb).
    exists i, lane. split; [exact Hi|].
    split; [apply (double_accepts_clears c r lane feature Hr); exact Ha|].
    split.
    + intros i' lane' Hlt Hl'.
      apply (double_accepts_not_clears c r lane' feature Hr).
      apply (Hb i' lane' Hlt Hl').
    + simpl. apply list_eq. intros n.
      destruct (decide (n = i)) as [->|Hn].
      * rewrite list_lookup_alter_eq, Hi.
        rewrite list_lookup_insert_eq
          by (apply lookup_lt_Some in Hi; exact Hi).
        reflexivity.
      * rewrite list_lookup_alter_ne by congruence.
        rewrite list_lookup_insert_ne by congruence. reflexivity.
  - right. split; [|reflexivity].
    intros lane Hl.
    apply (double_accepts_not_clears c r lane feature Hr).
    apply (double_find_lane_None c feature _ 0 E lane Hl).
Qed.

Lemma addFeature_first_fit_witness :
  exists r,
    Track64.pixelsToNts chart_7500 = Some r /\ ~ r == 0
    /\ ((exists (j : nat) (lane : Lane.t),
            Track.lanes (Track.mk [Lane.mk [rect 1 0 10 "a"]] None) !! j
            = Some lane
            /\ double_clears (Double.div 3 r) lane (rect 2 235 10 "b")
            /\ (forall (i : nat) (lane' : Lane.t),
                   (i < j)%nat ->
                   Track.lanes (Track.mk [Lane.mk [rect 1 0 10 "a"]] None)
                     !! i = Some lane' ->
                   ~ double_clears (Double.div 3 r) lane'
                       (rect 2 235 10 "b"))
            /\ Track.lanes
                 (double_track_addFeature chart_7500
                    (Track.mk [Lane.mk [rect 1 0 10 "a"]] None)
                    (rect 2 235 10 "b"))
               = <[j := Lane.addFeature lane (rect 2 235 10 "b")]>
                   (Track.lanes (Track.mk [Lane.mk [rect 1 0 10 "a"]] None)))
        \/ ((forall lane,
                In lane
                   (Track.lanes (Track.mk [Lane.mk [rect 1 0 10 "a"]] None)) ->
                ~ double_clears (Double.div 3 r) lane (rect 2 235 10 "b"))
            /\ Track.lanes
                 (double_track_addFeature chart_7500
                    (Track.mk [Lane.mk [rect 1 0 10 "a"]] None)
                    (rect 2 235 10 "b"))
               = Track.lanes (Track.mk [Lane.mk [rect 1 0 10 "a"]] None)
                 ++ [Lane.mk [rect 2 235 10 "b"]])).
Proof.
  eexists. split; [reflexivity|]. split; [vm_compute; discriminate|].
  apply (addFeature_first_fit chart_7500 _
           (Track.mk [Lane.mk [rect 1 0 10 "a"]] None) (rect 2 235 10 "b"));
    [reflexivity | vm_compute; discriminate].
Defined.

(** On the chart 100 pixels wide over [0, 7500], a feature at 235 joins the
    lane whose last feature ends at 10. *)
Lemma addFeature_first_fit_at_235 :
  Track.lanes
    (double_track_addFeature chart_7500
       (Track.mk [Lane.mk [rect 1 0 10 "a"]] None) (rect 2 235 10 "b"))
  = [Lane.mk [rect 1 0 10 "a"; rect 2 235 10 "b"]].
Proof. vm_compute. reflexivity. Qed.

(** ** TickPlanner: what the width estimate rounds *)

(** C9, as the specification words it, fails: at 1500 the width-estimation
    formatter prints 150k, and the integer it prints is neither the value
    rounded, 1500, nor the value in thousands rounded, 2.  With [tick.auto]
    off it returns the number as it is. *)
Lemma getTickTextDecimalPlaces_at_1500 :
  Scribl.getTickTextDecimalPlaces chart_10k 1500 = Scribl.Str "150k"
  /\ Scribl.getTickTextDecimalPlaces chart_10k 1500
     <> Scribl.Str (toString (Math_round 1500) +:+ "k")
  /\ Scribl.getTickTextDecimalPlaces chart_10k 1500
     <> Scribl.Str (toString (Math_round (1500 / 1000)) +:+ "k")
  /\ Scribl.getTickTextDecimalPlaces chart_10k_manual_ticks 1500
     = Scribl.Num 1500.
Proof.
  split; [reflexivity|]. split; [vm_compute; discriminate|].
  split; [vm_compute; discriminate | reflexivity].
Qed.

(** ** Chart-level [addFeature]: the first track *)



